(** * Reduced Wong-Wang neural mass model with Balloon-Windkessel BOLD
      (whobpyt, [models/RWW/wong_wang.py])

    Shallow embedding of [h_tf], [setModelParameters] and
    [integration_forward], and the properties of the specification
    that concern them.

    Number model.  A tensor entry is a value of [num]: a finite real
    number, or [NaN].  Finite values are exact reals, with one rounding
    of the 32-bit format kept: [tanh] returns exactly 1 or -1 once its
    value is within half a unit in the last place of them.  An
    operation of the code leaves the finite reals only where real
    arithmetic has no value: division by zero, a power at a base that
    is not positive, the square root of a negative number, the mean of
    no samples.  These give [NaN], which the arithmetic propagates and
    every comparison answers with false.  (For [x / 0] with [x <> 0]
    torch answers with an infinity; the model does not tell it from
    [NaN].)

    Overflow is not part of [num].  The statements about a whole call
    are therefore of two kinds: equalities between values that the code
    copies or computes in one way, and ranges of the form "NaN, or
    within closed bounds" behind a saturation or a floor, which hold
    whatever the arithmetic before the saturation produced.  Where a
    statement needs the arithmetic itself to stay finite, its
    hypotheses bound the sizes ([moderate_coupling]); the response
    function is in addition embedded with the range of the 32-bit
    format written out ([Float32]).

    The model object appears twice: [Materializer] follows the tensor
    objects that [setModelParameters] creates and registers, and the
    record [Model] lists the attributes that [integration_forward]
    reads once they are set. *)

From Stdlib Require Import Reals Lra Lia List Bool Arith ZArith.
From Stdlib Require String.
Import ListNotations.
Open Scope R_scope.

(** ** Numbers *)

Inductive num : Type :=
| Fin (r : R)
| NaN.

Definition lift1 (f : R -> R) (x : num) : num :=
  match x with Fin a => Fin (f a) | NaN => NaN end.

Definition lift2 (f : R -> R -> R) (x y : num) : num :=
  match x, y with Fin a, Fin b => Fin (f a b) | _, _ => NaN end.

Definition tadd : num -> num -> num := lift2 Rplus.
Definition tsub : num -> num -> num := lift2 Rminus.
Definition tmul : num -> num -> num := lift2 Rmult.
Definition tneg : num -> num := lift1 Ropp.
Definition tabs : num -> num := lift1 Rabs.
Definition texp : num -> num := lift1 exp.

(** [torch.tanh] on 32-bit floats.  The floats next to 1 are
    [1 - 2^-24] and 1 itself, so a value of [tanh] from [1 - 2^-25] on
    is rounded to 1, and likewise at -1: the result reaches both
    bounds. *)
Definition half_ulp_1 : R := / 33554432.   (* 2^-25 *)

Definition tanh32 (x : R) : R :=
  if Rle_dec (1 - half_ulp_1) (tanh x) then 1
  else if Rle_dec (tanh x) (half_ulp_1 - 1) then -1
  else tanh x.

Definition ttanh : num -> num := lift1 tanh32.

(** [torch.nn.ReLU]: the maximum with zero. *)
Definition relu : num -> num := lift1 (Rmax 0).

(** [torch.divide]. *)
Definition tdiv (x y : num) : num :=
  match x, y with
  | Fin a, Fin b => if Req_dec_T b 0 then NaN else Fin (a / b)
  | _, _ => NaN
  end.

(** [torch.reciprocal]. *)
Definition reciprocal (x : num) : num := tdiv (Fin 1) x.

(** [torch.sqrt]. *)
Definition tsqrt (x : num) : num :=
  match x with
  | Fin a => if Rlt_dec a 0 then NaN else Fin (sqrt a)
  | NaN => NaN
  end.

(** Whether a real is an integer, and the parity of an integral real. *)
Definition is_int (y : R) : bool :=
  if Req_dec_T (IZR (Int_part y)) y then true else false.

(** [torch.pow] on finite arguments: [x ^ 0 = 1]; a positive base is
    raised through [exp (y * ln x)]; [0 ^ y = 0] for [y > 0]; a negative
    base has a value only at an integral exponent. *)
Definition rpow (x y : R) : num :=
  if Req_dec_T y 0 then Fin 1
  else if Rlt_dec 0 x then Fin (Rpower x y)
  else if Req_dec_T x 0 then (if Rlt_dec 0 y then Fin 0 else NaN)
  else if is_int y
       then Fin ((if Z.even (Int_part y) then 1 else -1) * Rpower (- x) y)
       else NaN.

Definition tpow (x y : num) : num :=
  match x, y with
  | Fin a, Fin b => rpow a b
  | NaN, Fin b => if Req_dec_T b 0 then Fin 1 else NaN
  | Fin a, NaN => if Req_dec_T a 1 then Fin 1 else NaN
  | NaN, NaN => NaN
  end.

(** Masked assignment [t[t < c] = c]: an entry below [c] is raised to
    [c]; a [NaN] entry compares false and stays. *)
Definition floor_at (c : R) (x : num) : num :=
  match x with
  | Fin a => if Rlt_dec a c then Fin c else Fin a
  | NaN => NaN
  end.

Definition finite (x : num) : Prop := exists r, x = Fin r.

(** [x] is a finite real and satisfies [P]. *)
Definition holds (P : R -> Prop) (x : num) : Prop :=
  exists r, x = Fin r /\ P r.

(** [x] is [NaN], or a finite real that satisfies [P]. *)
Definition nan_or (P : R -> Prop) (x : num) : Prop :=
  x = NaN \/ holds P x.

Declare Scope num_scope.
Delimit Scope num_scope with num.
Infix "+" := tadd : num_scope.
Infix "-" := tsub : num_scope.
Infix "*" := tmul : num_scope.
Infix "/" := tdiv : num_scope.
Notation "- x" := (tneg x) : num_scope.

(** Decimal constants of the source. *)
Definition c_1e5 : R := 1 / 100000.   (* 0.00001 *)
Definition c_1e3 : R := 1 / 1000.     (* 0.001 *)
Definition c_002 : R := 2 / 100.      (* 0.02 *)
Definition c_005 : R := 5 / 100.      (* 0.05 *)

(** ** Response function *)

(** [h_tf(a, b, d, z)]. *)
Definition h_tf (a b d z : num) : num :=
  let num_ := (Fin c_1e5 + tabs (a * z - b))%num in
  let den := (Fin c_1e5 * d + tabs (Fin 1 - texp (- d * (a * z - b))))%num in
  tdiv num_ den.

(** ** The response function within the range of 32-bit floats *)

Module Float32.

(** A 32-bit float as far as its range goes: a finite real, an infinity
    with its sign, or not-a-number.  A finite result outside
    [[- max_float, max_float]] overflows to the infinity of its sign;
    inside the range a result is kept exact, so rounding and underflow
    stay outside the model.  A zero divisor counts as the positive
    zero, which is the only zero the denominator of [h_tf] can be. *)
Inductive val : Type :=
| Num (r : R)
| Inf (negative : bool)
| Nan.

(** The largest 32-bit float, [(2^24 - 1) * 2^104]. *)
Definition max_float : R := 340282346638528859811704183484516925440.

Definition range (r : R) : val :=
  if Rlt_dec max_float r then Inf false
  else if Rlt_dec r (- max_float) then Inf true
  else Num r.

Definition is_negative (r : R) : bool := if Rlt_dec r 0 then true else false.

Definition fadd (x y : val) : val :=
  match x, y with
  | Num a, Num b => range (a + b)
  | Num _, Inf s => Inf s
  | Inf s, Num _ => Inf s
  | Inf s, Inf s' => if Bool.eqb s s' then Inf s else Nan
  | _, _ => Nan
  end.

Definition fneg (x : val) : val :=
  match x with
  | Num a => Num (- a)
  | Inf s => Inf (negb s)
  | Nan => Nan
  end.

Definition fsub (x y : val) : val := fadd x (fneg y).

Definition fmul (x y : val) : val :=
  match x, y with
  | Num a, Num b => range (a * b)
  | Num a, Inf s => if Req_dec_T a 0 then Nan else Inf (xorb (is_negative a) s)
  | Inf s, Num b => if Req_dec_T b 0 then Nan else Inf (xorb s (is_negative b))
  | Inf s, Inf s' => Inf (xorb s s')
  | _, _ => Nan
  end.

Definition fabs (x : val) : val :=
  match x with
  | Num a => Num (Rabs a)
  | Inf _ => Inf false
  | Nan => Nan
  end.

Definition fexp (x : val) : val :=
  match x with
  | Num a => range (exp a)
  | Inf false => Inf false
  | Inf true => Num 0
  | Nan => Nan
  end.

Definition fdiv (x y : val) : val :=
  match x, y with
  | Num a, Num b =>
      if Req_dec_T b 0
      then (if Req_dec_T a 0 then Nan else Inf (is_negative a))
      else range (a / b)
  | Num _, Inf _ => Num 0
  | Inf s, Num b => Inf (xorb s (is_negative b))
  | _, _ => Nan
  end.


(** [h_tf(a, b, d, z)], operation by operation. *)
Definition h_tf (a b d z : val) : val :=
  let num_ := fadd (Num c_1e5) (fabs (fsub (fmul a z) b)) in
  let den := fadd (fmul (Num c_1e5) d)
                  (fabs (fsub (Num 1) (fexp (fmul (fneg d) (fsub (fmul a z) b))))) in
  fdiv num_ den.




End Float32.

(** ** Tensors

    A stored tensor is a list (of rows); inside the loops a tensor in
    the making is the function from its indices to its entries. *)

Definition matrix (A : Type) : Type := list (list A).

Definition tabulate {A : Type} (n : nat) (f : nat -> A) : list A :=
  map f (seq 0 n).

Definition tabulate2 {A : Type} (n k : nat) (f : nat -> nat -> A) : matrix A :=
  tabulate n (fun i => tabulate k (f i)).

Definition mget {A : Type} (d : A) (M : matrix A) (i j : nat) : A :=
  nth j (nth i M []) d.

(** Entry of a real matrix and of a [num] matrix. *)
Definition rget : matrix R -> nat -> nat -> R := mget 0.
Definition nget : matrix num -> nat -> nat -> num := mget NaN.

Fixpoint rsum (n : nat) (f : nat -> R) : R :=
  match n with
  | O => 0
  | S k => rsum k f + f k
  end.

Fixpoint tsum (n : nat) (f : nat -> num) : num :=
  match n with
  | O => Fin 0
  | S k => (tsum k f + f k)%num
  end.

(** [t.mean(1)] of a row with [n] entries. *)
Definition tmean (n : nat) (f : nat -> num) : num :=
  tdiv (tsum n f) (Fin (INR n)).

Definition sum_squares (n : nat) (A : nat -> nat -> R) : R :=
  rsum n (fun i => rsum n (fun j => A i j * A i j)).

(** [torch.linalg.norm] of an [n x n] matrix: the Frobenius norm. *)
Definition fro_norm (n : nat) (A : nat -> nat -> R) : R :=
  sqrt (sum_squares n A).

(** [torch.diag] of a vector. *)
Definition diag (v : nat -> num) (i j : nat) : num :=
  if Nat.eqb i j then v i else Fin 0.

(** ** The model object *)

(** Values of the attributes that [setModelParameters] copies from
    [model.param] onto the model and that [integration_forward] reads. *)
Record Params : Type := {
  W_E : R; W_I : R; I_0 : R;
  g : R; g_EE : R; g_IE : R; g_EI : R;
  aE : R; bE : R; dE : R; aI : R; bI : R; dI : R;
  tau_E : R; tau_I : R; gamma_E : R; gamma_I : R;
  std_in : R; std_out : R;
  tau_s : R; tau_f : R; tau_0 : R; alpha : R; rho : R;
  V : R; E0 : R; k1 : R; k2 : R; k3 : R
}.

Record Model : Type := {
  tr : R;
  step_size : R;
  steps_per_TR : Z;
  TRs_per_window : nat;
  node_size : nat;
  sampling_size : nat;
  sc : matrix R;
  sc_fitted : matrix num;
  use_fit_gains : bool;
  use_Laplacian : bool;
  use_Bifurcation : bool;
  use_Gaussian_EI : bool;
  use_dynamic_boundary : bool;
  gains_con : matrix R;
  param : Params
}.

Definition set_sc_fitted (m : Model) (A : matrix num) : Model :=
  {| tr := tr m; step_size := step_size m; steps_per_TR := steps_per_TR m;
     TRs_per_window := TRs_per_window m; node_size := node_size m;
     sampling_size := sampling_size m; sc := sc m; sc_fitted := A;
     use_fit_gains := use_fit_gains m; use_Laplacian := use_Laplacian m;
     use_Bifurcation := use_Bifurcation m; use_Gaussian_EI := use_Gaussian_EI m;
     use_dynamic_boundary := use_dynamic_boundary m;
     gains_con := gains_con m; param := param m |}.

(** Python's [int] of a float: truncation towards zero. *)
Definition py_int (r : R) : Z :=
  if Rle_dec 0 r then Int_part r else (- Int_part (- r))%Z.


(** [RNNRWW.__init__].  The float division raises [ZeroDivisionError]
    at [step_size = 0].  The quotient [tr / step_size] is the exact one
    here and a double in the code: the two truncate to the same integer
    unless the exact quotient is within [double_eps] (relative) below
    an integer.  [gains_con] and the parameter attributes are assigned
    by [setModelParameters]; the record takes their values as
    arguments. *)
Definition RNNRWW_init (node_size_ TRs_per_window_ : nat) (step_size_ : R)
    (sampling_size_ : nat) (tr_ : R) (sc_ : matrix R) (use_fit_gains_ : bool)
    (param_ : Params)
    (use_Bifurcation_ use_Gaussian_EI_ use_Laplacian_ use_dynamic_boundary_ : bool)
    (gains_con_ : matrix R) : option Model :=
  if Req_dec_T step_size_ 0 then None
  else Some
    {| tr := tr_; step_size := step_size_;
       steps_per_TR := py_int (tr_ / step_size_);
       TRs_per_window := TRs_per_window_; node_size := node_size_;
       sampling_size := sampling_size_; sc := sc_;
       sc_fitted := map (map Fin) sc_;
       use_fit_gains := use_fit_gains_; use_Laplacian := use_Laplacian_;
       use_Bifurcation := use_Bifurcation_; use_Gaussian_EI := use_Gaussian_EI_;
       use_dynamic_boundary := use_dynamic_boundary_;
       gains_con := gains_con_; param := param_ |}.

(** ** Coupling matrix *)

(** [sc_mod = exp(gains_con) * sc], with the exact exponential: the
    32-bit one overflows from a gain of about 88.7 on, which
    [moderate_coupling] keeps away. *)
Definition sc_mod (m : Model) (i j : nat) : R :=
  exp (rget (gains_con m) i j) * rget (sc m) i j.

(** [0.5 * (sc_mod + sc_mod^T)]. *)
Definition sc_sym (m : Model) (i j : nat) : R :=
  (1 / 2) * (sc_mod m i j + sc_mod m j i).

(** [sc_mod_normalized]: the symmetrised matrix over its norm. *)
Definition sc_mod_normalized (m : Model) : matrix num :=
  let n := length (sc m) in
  tabulate2 n n (fun i j =>
    tdiv (Fin (sc_sym m i j)) (Fin (fro_norm n (sc_sym m)))).

(** [-torch.diag(A.sum(1)) + A]. *)
Definition laplacian (n : nat) (A : matrix num) : matrix num :=
  tabulate2 n n (fun i j =>
    (- diag (fun r => tsum n (fun c => nget A r c)) i j + nget A i j)%num).

(** [lap_adj], the operator the integrator multiplies with. *)
Definition lap_adj (m : Model) : matrix num :=
  if (1 <? length (sc m))%nat then
    if use_Laplacian m
    then laplacian (length (sc m)) (sc_mod_normalized m)
    else sc_mod_normalized m
  else [[Fin 0]].

(** The write [model.sc_fitted = sc_mod_normalized]. *)
Definition store_coupling (m : Model) : Model :=
  if (1 <? length (sc m))%nat then set_sc_fitted m (sc_mod_normalized m) else m.

(** ** Forward integration *)

(** [for i in range(n): st = body(i, st)]. *)
Definition for_range {A : Type} (n : nat) (body : nat -> A -> A) (st : A) : A :=
  fold_left (fun st i => body i st) (seq 0 n) st.

(** The draws of [torch.randn], in the order the code asks for them:
    the sample perturbations of E and of I (period, step, sample,
    region), the state noise of E and of I (period, step, region,
    sample) and the observation noise (period, region). *)
Record Noise : Type := {
  xi_E0 : nat -> nat -> nat -> nat -> R;
  xi_I0 : nat -> nat -> nat -> nat -> R;
  xi_E : nat -> nat -> nat -> nat -> R;
  xi_I : nat -> nat -> nat -> nat -> R;
  xi_bold : nat -> nat -> R
}.

(** A column of one entry per region. *)
Definition vec : Type := nat -> num.

(** What the neural loops carry: the running means and the
    [(region, period, step)] histories. *)
Record neural_state : Type := {
  E_mean : vec;
  I_mean : vec;
  E_hist : nat -> nat -> nat -> num;
  I_hist : nat -> nat -> nat -> num
}.

(** What the hemodynamic loops carry: [x], [f], [v], [q] and the
    [(region, period)] windows. *)
Record hemo_state : Type := {
  s_x : vec; s_f : vec; s_v : vec; s_q : vec;
  x_win : nat -> nat -> num;
  f_win : nat -> nat -> num;
  v_win : nat -> nat -> num;
  q_win : nat -> nat -> num;
  bold_win : nat -> nat -> num
}.

(** The dictionary [next_state]. *)
Record NextState : Type := {
  current_state : matrix num;
  bold_window : matrix num;
  E_window : matrix num;
  I_window : matrix num;
  x_window : matrix num;
  f_window : matrix num;
  v_window : matrix num;
  q_window : matrix num
}.

(** Assignment [hist[:, TR_i, step_i] = col] and [win[:, TR_i] = col]. *)
Definition upd_hist (h : nat -> nat -> nat -> num) (TR_i step_i : nat) (col : vec)
  : nat -> nat -> nat -> num :=
  fun i t s => if Nat.eqb t TR_i && Nat.eqb s step_i then col i else h i t s.

Definition upd_win (w : nat -> nat -> num) (TR_i : nat) (col : vec)
  : nat -> nat -> num :=
  fun i t => if Nat.eqb t TR_i then col i else w i t.

Section Forward.

Variable m : Model.
Variable nz : Noise.

Let p : Params := param m.
Let n : nat := node_size m.
Let S_ : nat := sampling_size m.
Let dt : num := Fin (step_size m).

(** [torch.matmul(lap_adj, E)]. *)
Definition matmul (L : matrix num) (E : nat -> nat -> num) (i s : nat) : num :=
  tsum n (fun k => nget L i k * E k s)%num.

(** The argument of the saturation in [IE] and in [II]. *)
Definition input_E (L : matrix num) (E I : nat -> nat -> num) (i s : nat) : num :=
  (Fin (W_E p) * Fin (I_0 p) + (Fin c_1e3 + relu (Fin (g_EE p))) * E i s
   + Fin (g p) * matmul L E i s
   - (Fin c_1e3 + relu (Fin (g_IE p))) * I i s)%num.

Definition input_I (E I : nat -> nat -> num) (i s : nat) : num :=
  (Fin (W_I p) * Fin (I_0 p) + (Fin c_1e3 + relu (Fin (g_EI p))) * E i s
   - I i s)%num.

(** The Euler updates [E_next] and [I_next] of one sample. *)
Definition E_euler (E rE : num) (xi : R) : num :=
  (E + dt * (- E * reciprocal (Fin (tau_E p))
             + Fin (gamma_E p) * (Fin 1 - E) * rE)
   + tsqrt dt * Fin xi * (Fin c_002 + relu (Fin (std_in p))))%num.

Definition I_euler (I rI : num) (xi : R) : num :=
  (I + dt * (- I * reciprocal (Fin (tau_I p)) + Fin (gamma_I p) * rI)
   + tsqrt dt * Fin xi * (Fin c_002 + relu (Fin (std_in p))))%num.

(** One fine step of the neural loop under [use_dynamic_boundary]. *)
Definition neural_step_smooth (L : matrix num) (TR_i step_i : nat)
    (st : neural_state) : neural_state :=
  let E := fun i s => (E_mean st i + Fin c_002 * Fin (xi_E0 nz TR_i step_i s i))%num in
  let I := fun i s => (I_mean st i + Fin c_1e3 * Fin (xi_I0 nz TR_i step_i s i))%num in
  let IE := fun i s => ttanh (relu (input_E L E I i s)) in
  let II := fun i s => ttanh (relu (input_I E I i s)) in
  let rE := fun i s => h_tf (Fin (aE p)) (Fin (bE p)) (Fin (dE p)) (IE i s) in
  let rI := fun i s => h_tf (Fin (aI p)) (Fin (bI p)) (Fin (dI p)) (II i s) in
  let E_next := fun i s => E_euler (E i s) (rE i s) (xi_E nz TR_i step_i i s) in
  let I_next := fun i s => I_euler (I i s) (rI i s) (xi_I nz TR_i step_i i s) in
  let E' := fun i s => ttanh (Fin 0 + relu (Fin 1 * E_next i s))%num in
  let I' := fun i s => ttanh (Fin 0 + relu (Fin 1 * I_next i s))%num in
  let I_mean' := fun i => floor_at c_1e5 (tmean S_ (I' i)) in
  let E_mean' := fun i => floor_at c_1e5 (tmean S_ (E' i)) in
  {| E_mean := E_mean'; I_mean := I_mean';
     E_hist := upd_hist (E_hist st) TR_i step_i E_mean';
     I_hist := upd_hist (I_hist st) TR_i step_i I_mean' |}.

(** One fine step of the neural loop under the hard-clamp policy. *)
Definition neural_step_hard (L : matrix num) (TR_i step_i : nat)
    (st : neural_state) : neural_state :=
  let E := fun i s => (E_mean st i + Fin c_1e3 * Fin (xi_E0 nz TR_i step_i s i))%num in
  let I := fun i s => (I_mean st i + Fin c_1e3 * Fin (xi_I0 nz TR_i step_i s i))%num in
  let IE := fun i s => (Fin 1 * ttanh (relu (input_E L E I i s)))%num in
  let II := fun i s => (Fin 1 * ttanh (relu (input_I E I i s)))%num in
  let rE := fun i s => h_tf (Fin (aE p)) (Fin (bE p)) (Fin (dE p)) (IE i s) in
  let rI := fun i s => h_tf (Fin (aI p)) (Fin (bI p)) (Fin (dI p)) (II i s) in
  let E_next := fun i s =>
    floor_at c_1e5 (E_euler (E i s) (rE i s) (xi_E nz TR_i step_i i s)) in
  let I_next := fun i s =>
    floor_at c_1e5 (I_euler (I i s) (rI i s) (xi_I nz TR_i step_i i s)) in
  let I_mean' := fun i => tmean S_ (I_next i) in
  let E_mean' := fun i => tmean S_ (E_next i) in
  {| E_mean := E_mean'; I_mean := I_mean';
     E_hist := upd_hist (E_hist st) TR_i step_i (fun i => ttanh (E_mean' i));
     I_hist := upd_hist (I_hist st) TR_i step_i (fun i => ttanh (I_mean' i)) |}.

(** The two nested neural loops. *)
Definition neural_loop (step : nat -> nat -> neural_state -> neural_state)
    (st : neural_state) : neural_state :=
  for_range (TRs_per_window m) (fun TR_i st =>
    for_range (Z.to_nat (steps_per_TR m)) (fun step_i st => step TR_i step_i st) st)
    st.

(** The Euler updates of the Balloon-Windkessel states. *)
Definition x_euler (Eh x f : num) : num :=
  (x + Fin 1 * dt * (Fin 1 * Eh - reciprocal (Fin (tau_s p)) * x
                     - reciprocal (Fin (tau_f p)) * (f - Fin 1)))%num.

Definition f_euler (x f : num) : num :=
  (f + Fin 1 * dt * x)%num.

Definition v_euler (f v : num) : num :=
  (v + Fin 1 * dt * (f - tpow v (reciprocal (Fin (alpha p))))
       * reciprocal (Fin (tau_0 p)))%num.

Definition q_euler (f v q : num) : num :=
  (q + Fin 1 * dt
       * (f * (Fin 1 - tpow (Fin 1 - Fin (rho p)) (reciprocal f))
            * reciprocal (Fin (rho p))
          - q * tpow v (reciprocal (Fin (alpha p))) * reciprocal v)
       * reciprocal (Fin (tau_0 p)))%num.

(** One fine step of the hemodynamic loop under [use_dynamic_boundary]. *)
Definition hemo_step_smooth (Eh : nat -> nat -> nat -> num) (TR_i step_i : nat)
    (st : hemo_state) : hemo_state :=
  let x := s_x st in let f := s_f st in let v := s_v st in let q := s_q st in
  {| s_x := fun i => ttanh (x_euler (Eh i TR_i step_i) (x i) (f i));
     s_f := fun i => (Fin 1 + ttanh (f_euler (x i) (f i) - Fin 1))%num;
     s_v := fun i => (Fin 1 + ttanh (v_euler (f i) (v i) - Fin 1))%num;
     s_q := fun i => (Fin 1 + ttanh (q_euler (f i) (v i) (q i) - Fin 1))%num;
     x_win := x_win st; f_win := f_win st; v_win := v_win st;
     q_win := q_win st; bold_win := bold_win st |}.

(** One fine step of the hemodynamic loop under the hard-clamp policy. *)
Definition hemo_step_hard (Eh : nat -> nat -> nat -> num) (TR_i step_i : nat)
    (st : hemo_state) : hemo_state :=
  let x := s_x st in let f := s_f st in let v := s_v st in let q := s_q st in
  {| s_x := fun i => x_euler (Eh i TR_i step_i) (x i) (f i);
     s_f := fun i => floor_at c_1e3 (f_euler (x i) (f i));
     s_v := fun i => floor_at c_1e3 (v_euler (f i) (v i));
     s_q := fun i => floor_at c_1e3 (q_euler (f i) (v i) (q i));
     x_win := x_win st; f_win := f_win st; v_win := v_win st;
     q_win := q_win st; bold_win := bold_win st |}.

(** The BOLD sample of one region at the end of a period. *)
Definition bold_signal (xi : R) (v q : num) : num :=
  ((Fin 0 + relu (Fin (std_out p))) * Fin xi
   + Fin 100 * Fin (V p) * reciprocal (Fin (E0 p))
     * (Fin (k1 p) * (Fin 1 - q) + Fin (k2 p) * (Fin 1 - q * reciprocal v)
        + Fin (k3 p) * (Fin 1 - v)))%num.

(** End of a period: the windows take the states of the last step. *)
Definition record_TR (TR_i : nat) (st : hemo_state) : hemo_state :=
  {| s_x := s_x st; s_f := s_f st; s_v := s_v st; s_q := s_q st;
     x_win := upd_win (x_win st) TR_i (s_x st);
     f_win := upd_win (f_win st) TR_i (s_f st);
     v_win := upd_win (v_win st) TR_i (s_v st);
     q_win := upd_win (q_win st) TR_i (s_q st);
     bold_win := upd_win (bold_win st) TR_i
       (fun i => bold_signal (xi_bold nz TR_i i) (s_v st i) (s_q st i)) |}.

(** The two nested hemodynamic loops. *)
Definition hemo_loop (step : nat -> nat -> hemo_state -> hemo_state)
    (st : hemo_state) : hemo_state :=
  for_range (TRs_per_window m) (fun TR_i st =>
    record_TR TR_i
      (for_range (Z.to_nat (steps_per_TR m))
                 (fun step_i st => step TR_i step_i st) st))
    st.

Definition zeros2 : nat -> nat -> num := fun _ _ => Fin 0.
Definition zeros3 : nat -> nat -> nat -> num := fun _ _ _ => Fin 0.

(** Column [c] of the state tensor [hx]. *)
Definition column (hx : matrix num) (c : nat) : vec := fun i => nget hx i c.

Definition init_neural (hx : matrix num) : neural_state :=
  {| E_mean := column hx 0; I_mean := column hx 1;
     E_hist := zeros3; I_hist := zeros3 |}.

Definition init_hemo (hx : matrix num) : hemo_state :=
  {| s_x := column hx 2; s_f := column hx 3; s_v := column hx 4;
     s_q := column hx 5;
     x_win := zeros2; f_win := zeros2; v_win := zeros2; q_win := zeros2;
     bold_win := zeros2 |}.

(** The neural pass and the hemodynamic pass of the policy in force. *)
Definition run_neural (hx : matrix num) : neural_state :=
  let L := lap_adj m in
  if use_dynamic_boundary m
  then neural_loop (neural_step_smooth L) (init_neural hx)
  else neural_loop (neural_step_hard L) (init_neural hx).

Definition run_hemo (hx : matrix num) : hemo_state :=
  let Eh := E_hist (run_neural hx) in
  if use_dynamic_boundary m
  then hemo_loop (hemo_step_smooth Eh) (init_hemo hx)
  else hemo_loop (hemo_step_hard Eh) (init_hemo hx).

(** [hist.reshape((node_size, -1))]. *)
Definition reshape_hist (h : nat -> nat -> nat -> num) : matrix num :=
  let K := Z.to_nat (steps_per_TR m) in
  tabulate2 n (TRs_per_window m * K) (fun i k => h i (k / K)%nat (k mod K)%nat).

(** The dictionary the call returns. *)
Definition assemble (hx : matrix num) : NextState :=
  let ns := run_neural hx in
  let hs := run_hemo hx in
  let T := TRs_per_window m in
  {| current_state := tabulate n (fun i =>
       [E_mean ns i; I_mean ns i; s_x hs i; s_f hs i; s_v hs i; s_q hs i]);
     bold_window := tabulate2 n T (bold_win hs);
     E_window := reshape_hist (E_hist ns);
     I_window := reshape_hist (I_hist ns);
     x_window := tabulate2 n T (x_win hs);
     f_window := tabulate2 n T (f_win hs);
     v_window := tabulate2 n T (v_win hs);
     q_window := tabulate2 n T (q_win hs) |}.

(** [integration_forward(model, external, hx, hE)]: the returned pair
    and the model object after the call.  [torch.zeros] raises at a
    negative step count, and no call goes through without a region. *)
Definition integration_forward {X H : Type} (external : X) (hx : matrix num)
    (hE : H) : option ((NextState * H) * Model) :=
  if (steps_per_TR m <? 0)%Z || Nat.eqb n 0 then None
  else Some ((assemble hx, hE), store_coupling m).

End Forward.

(** ** Parameter materialisation *)

Module Materializer.

Import String.
Local Open Scope string_scope.

(** Identity of a tensor object.  A [Parameter] or tensor that
    [setModelParameters] constructs is named after the attribute it is
    first bound to (each construction site runs at most once in a
    call); the three tensors of an entry of the parameter container are
    named after the entry. *)
Inductive tref : Type :=
| Created (attribute : string)
| Val (entry : string)
| PriorMean (entry : string)
| PriorVar (entry : string).

Inductive tdata : Type :=
| Scalar (r : R)
| Mat (a : matrix R).

Record tensor : Type := {
  ident : tref;
  data : tdata;
  requires_grad : bool
}.

(** Modelled from the spec: the class [par] of
    [whobpyt.datatypes.parameter] is not among the sources.  An entry
    carries its current value, a prior mean and a prior variance, the
    flags [fit_par] and [fit_hyper], and [randSet] redraws the current
    value from the prior. *)
Record par : Type := {
  val : tdata;
  prior_mean : tdata;
  prior_var : tdata;
  fit_par : bool;
  fit_hyper : bool
}.

Definition val_tensor (name : string) (v : par) : tensor :=
  {| ident := Val name; data := val v; requires_grad := fit_par v |}.

Definition prior_mean_tensor (name : string) (v : par) : tensor :=
  {| ident := PriorMean name; data := prior_mean v; requires_grad := fit_hyper v |}.

Definition prior_var_tensor (name : string) (v : par) : tensor :=
  {| ident := PriorVar name; data := prior_var v; requires_grad := fit_hyper v |}.

Definition randSet (draw : tdata) (v : par) : par :=
  {| val := draw; prior_mean := prior_mean v; prior_var := prior_var v;
     fit_par := fit_par v; fit_hyper := fit_hyper v |}.

(** An attribute of [model.param]: an entry of type [par], or anything
    else (a method, a plain number). *)
Inductive attribute : Type :=
| IsPar (v : par)
| Other.

(** What [setModelParameters] reads of the model, with the attributes
    of [model.param] in the order of [dir], and the draws of [randSet]. *)
Record config : Type := {
  node_size : nat;
  use_Gaussian_EI : bool;
  use_Bifurcation : bool;
  use_fit_gains : bool;
  param : list (string * attribute);
  draw : string -> tdata
}.

(** What it writes: attributes of the model (latest first), the two
    lists of [model.params_fitted], and the container after [randSet]. *)
Record state : Type := {
  attrs : list (string * tensor);
  param_reg : list tensor;
  param_hyper : list tensor;
  param_after : list (string * attribute)
}.

Definition set_attr (name : string) (t : tensor) (st : state) : state :=
  {| attrs := (name, t) :: attrs st; param_reg := param_reg st;
     param_hyper := param_hyper st; param_after := param_after st |}.

Definition append_reg (t : tensor) (st : state) : state :=
  {| attrs := attrs st; param_reg := param_reg st ++ [t];
     param_hyper := param_hyper st; param_after := param_after st |}.

Definition append_hyper (t : tensor) (st : state) : state :=
  {| attrs := attrs st; param_reg := param_reg st;
     param_hyper := param_hyper st ++ [t]; param_after := param_after st |}.

Definition keep_entry (e : string * attribute) (st : state) : state :=
  {| attrs := attrs st; param_reg := param_reg st;
     param_hyper := param_hyper st; param_after := param_after st ++ [e] |}.

Fixpoint get_attr (name : string) (l : list (string * tensor)) : option tensor :=
  match l with
  | [] => None
  | (k, t) :: rest => if String.eqb k name then Some t else get_attr name rest
  end.

(** [model.<name> = Parameter(torch.tensor(d))]. *)
Definition new_Parameter (name : string) (d : tdata) : state -> state :=
  set_attr name {| ident := Created name; data := d; requires_grad := true |}.

(** [model.<name> = torch.tensor(d)]. *)
Definition new_tensor (name : string) (d : tdata) : state -> state :=
  set_attr name {| ident := Created name; data := d; requires_grad := false |}.

(** [param_hyper.append(model.<name>)] and [param_reg.append(model.<name>)]. *)
Definition hyper_append_attr (name : string) (st : state) : state :=
  match get_attr name (attrs st) with
  | Some t => append_hyper t st
  | None => st
  end.

Definition reg_append_attr (name : string) (st : state) : state :=
  match get_attr name (attrs st) with
  | Some t => append_reg t st
  | None => st
  end.

(** The block under [if model.use_Gaussian_EI]. *)
Definition gaussian_EI_block (st : state) : state :=
  let st := new_Parameter "E_m" (Scalar (16 / 100)) st in
  let st := hyper_append_attr "E_m" st in
  let st := new_Parameter "I_m" (Scalar (1 / 10)) st in
  let st := hyper_append_attr "I_m" st in
  let st := new_Parameter "v_m" (Scalar 1) st in
  let st := hyper_append_attr "v_m" st in
  let st := new_Parameter "q_m" (Scalar 1) st in
  let st := hyper_append_attr "q_m" st in
  let st := new_Parameter "E_v_inv" (Scalar 2500) st in
  let st := hyper_append_attr "E_v_inv" st in
  let st := new_Parameter "I_v_inv" (Scalar 2500) st in
  let st := hyper_append_attr "I_v_inv" st in
  let st := new_Parameter "v_v_inv" (Scalar 100) st in
  let st := hyper_append_attr "v_v_inv" st in
  let st := new_Parameter "q_v_inv" (Scalar 100) st in
  hyper_append_attr "v_v_inv" st.

(** The block under [if model.use_Bifurcation]. *)
Definition bifurcation_block (st : state) : state :=
  let st := new_Parameter "sup_ca" (Scalar (1 / 2)) st in
  let st := hyper_append_attr "sup_ca" st in
  let st := new_Parameter "sup_cb" (Scalar 20) st in
  let st := hyper_append_attr "sup_cb" st in
  let st := new_Parameter "sup_cc" (Scalar 10) st in
  hyper_append_attr "sup_cc" st.

(** [np.zeros((n, n)) + c]. *)
Definition zeros_plus (n : nat) (c : R) : matrix R :=
  tabulate2 n n (fun _ _ => 0 + c).

(** [np.zeros((n, n))]. *)
Definition np_zeros (n : nat) : matrix R :=
  tabulate2 n n (fun _ _ => 0).

(** The block that sets [model.gains_con]. *)
Definition gains_block (cfg : config) (st : state) : state :=
  if use_fit_gains cfg then
    let st := new_Parameter "gains_con" (Mat (zeros_plus (node_size cfg) c_005)) st in
    reg_append_attr "gains_con" st
  else
    new_tensor "gains_con" (Mat (np_zeros (node_size cfg))) st.

(** The body of the loop over [var_names] for one attribute that
    passed the filter. *)
Definition visit (cfg : config) (var_name : string) (var : attribute)
    (st : state) : state :=
  match var with
  | IsPar v =>
      let v1 := if fit_hyper v then randSet (draw cfg var_name) v else v in
      let st := if fit_hyper v
                then append_hyper (prior_var_tensor var_name v1)
                       (append_hyper (prior_mean_tensor var_name v1) st)
                else st in
      let st := if fit_par v1 then append_reg (val_tensor var_name v1) st else st in
      let st := set_attr var_name (val_tensor var_name v1) st in
      keep_entry (var_name, IsPar v1) st
  | Other => keep_entry (var_name, Other) st
  end.

(** The loop, with the filter [not a.startswith('__')] of [var_names]. *)
Definition visit_all (cfg : config) (st : state) : state :=
  fold_left (fun st e =>
    if prefix "__" (fst e) then keep_entry e st
    else visit cfg (fst e) (snd e) st) (param cfg) st.

Definition empty_state : state :=
  {| attrs := []; param_reg := []; param_hyper := []; param_after := [] |}.

(** [setModelParameters(model)]. *)
Definition setModelParameters (cfg : config) : state :=
  let st := empty_state in
  let st := if use_Gaussian_EI cfg then gaussian_EI_block st else st in
  let st := if use_Bifurcation cfg then bifurcation_block st else st in
  let st := gains_block cfg st in
  visit_all cfg st.

(** A tensor that the call constructed as a [Parameter]. *)
Definition created_trainable (t : tensor) : bool :=
  match ident t with
  | Created _ => requires_grad t
  | _ => false
  end.

(** Trainable tensors among the attributes of the model. *)
Definition trainable_attrs (st : state) : list tensor :=
  filter created_trainable (map snd (attrs st)).

(** The tensor objects of a collection. *)
Definition idents (l : list tensor) : list tref := map ident l.

(** The claim on the two collections: no tensor object in both, none
    twice, and every trainable tensor the call created is in one of
    them. *)
Definition collections_ok (st : state) : Prop :=
  (forall r, In r (idents (param_reg st)) -> ~ In r (idents (param_hyper st))) /\
  NoDup (idents (param_reg st ++ param_hyper st)) /\
  (forall t, In t (trainable_attrs st) ->
     In (ident t) (idents (param_reg st ++ param_hyper st))).

(** The entries the loop works on, after [randSet]. *)
Definition visited (cfg : config) : list (string * par) :=
  flat_map (fun e =>
    if prefix "__" (fst e) then []
    else match snd e with
         | IsPar v =>
             [(fst e, if fit_hyper v then randSet (draw cfg (fst e)) v else v)]
         | Other => []
         end) (param cfg).

(** What the loop appends to the two lists and to the attributes. *)
Definition loop_reg (l : list (string * par)) : list tensor :=
  flat_map (fun e => if fit_par (snd e) then [val_tensor (fst e) (snd e)] else []) l.

Definition loop_hyper (l : list (string * par)) : list tensor :=
  flat_map (fun e => if fit_hyper (snd e)
                     then [prior_mean_tensor (fst e) (snd e);
                           prior_var_tensor (fst e) (snd e)]
                     else []) l.

Definition loop_attrs (l : list (string * par)) : list (string * tensor) :=
  rev (map (fun e => (fst e, val_tensor (fst e) (snd e))) l).

Definition no_entries (gaussian bifurcation gains : bool) : config :=
  {| node_size := 1; use_Gaussian_EI := gaussian; use_Bifurcation := bifurcation;
     use_fit_gains := gains; param := []; draw := fun _ => Scalar 0 |}.

End Materializer.

(** ** Vocabulary of the statements *)

(** The entries of the [n x n] matrix [A] are finite, symmetric, and
    its Frobenius norm is 1 up to [tol]. *)
Definition symmetric_unit_norm (tol : R) (n : nat) (A : matrix num) : Prop :=
  exists a : nat -> nat -> R,
    (forall i j, (i < n)%nat -> (j < n)%nat -> nget A i j = Fin (a i j)) /\
    (forall i j, (i < n)%nat -> (j < n)%nat -> a i j = a j i) /\
    Rabs (fro_norm n a - 1) <= tol.

(** A symmetric matrix without negative entries. *)
Definition symmetric_nonneg (n : nat) (S : matrix R) : Prop :=
  forall i j, (i < n)%nat -> (j < n)%nat ->
    rget S i j = rget S j i /\ 0 <= rget S i j.

(** Some entry of [S] is not zero. *)
Definition nonzero_matrix (n : nat) (S : matrix R) : Prop :=
  exists i j, (i < n)%nat /\ (j < n)%nat /\ rget S i j <> 0.

(** Sizes at which no step of the coupling computation leaves the range
    of the 32-bit floats: at most 1000 regions, gains within
    [[-20, 20]], entries of the structural matrix within [[0, 10^6]],
    one of them at least [10^-6]. *)
Record moderate_coupling (m : Model) : Prop := {
  mc_regions : (length (sc m) <= 1000)%nat;
  mc_gains : forall i j, Rabs (rget (gains_con m) i j) <= 20;
  mc_sc : forall i j, 0 <= rget (sc m) i j <= 1000000;
  mc_entry : exists i j, (i < length (sc m))%nat /\ (j < length (sc m))%nat /\
                         / 1000000 <= rget (sc m) i j
}.

(** The parameters keep every division, power and square root of one
    call among the finite reals. *)
Record valid_params (m : Model) : Prop := {
  vp_tau_E : tau_E (param m) <> 0;
  vp_tau_I : tau_I (param m) <> 0;
  vp_tau_s : tau_s (param m) <> 0;
  vp_tau_f : tau_f (param m) <> 0;
  vp_tau_0 : tau_0 (param m) <> 0;
  vp_alpha : alpha (param m) <> 0;
  vp_rho : rho (param m) <> 0;
  vp_rho_le : rho (param m) <= 1;
  vp_dE : 0 < dE (param m);
  vp_dI : 0 < dI (param m);
  vp_dt : 0 <= step_size m
}.

(** A valid configuration: positive counts, a structural matrix with
    one row per region whose symmetrised modulation is not zero when
    there are 2 regions or more, and valid parameters. *)
Record valid_config (m : Model) : Prop := {
  vc_nodes : (1 <= node_size m)%nat;
  vc_TRs : (1 <= TRs_per_window m)%nat;
  vc_steps : (1 <= steps_per_TR m)%Z;
  vc_samples : (1 <= sampling_size m)%nat;
  vc_sc : length (sc m) = node_size m;
  vc_coupling : (2 <= length (sc m))%nat ->
                0 < fro_norm (length (sc m)) (sc_sym m);
  vc_params : valid_params m
}.

(** A valid state: one row of six finite entries per region, with
    positive blood flow and blood volume. *)
Definition valid_state (n : nat) (hx : matrix num) : Prop :=
  forall i, (i < n)%nat ->
    finite (nget hx i 0) /\ finite (nget hx i 1) /\ finite (nget hx i 2) /\
    holds (fun r => 0 < r) (nget hx i 3) /\
    holds (fun r => 0 < r) (nget hx i 4) /\
    finite (nget hx i 5).

(** The entries that one fine step records for every region satisfy
    [PE] (excitatory history) and [PI] (inhibitory history). *)
Definition hist_entries (n : nat) (PE PI : num -> Prop) (st : neural_state)
    (t s : nat) : Prop :=
  forall i, (i < n)%nat -> PE (E_hist st i t s) /\ PI (I_hist st i t s).

(** [P x f v q] holds of the hemodynamic states of every region, and of
    the window entries of every region at period [t]. *)
Definition on_state (n : nat) (P : num -> num -> num -> num -> Prop)
    (st : hemo_state) : Prop :=
  forall i, (i < n)%nat -> P (s_x st i) (s_f st i) (s_v st i) (s_q st i).

Definition on_windows (n : nat) (P : num -> num -> num -> num -> Prop)
    (st : hemo_state) (t : nat) : Prop :=
  forall i, (i < n)%nat ->
    P (x_win st i t) (f_win st i t) (v_win st i t) (q_win st i t).

(** The running means of every region are NaN or satisfy [P]. *)
Definition means_nan_or (n : nat) (P : R -> Prop) (st : neural_state) : Prop :=
  forall i, (i < n)%nat -> nan_or P (E_mean st i) /\ nan_or P (I_mean st i).

(** What a saturation and a floor leave of the hemodynamic states. *)
Definition smooth_hemo (x f v q : num) : Prop :=
  nan_or (fun r => -1 <= r <= 1) x /\ nan_or (fun r => 0 <= r <= 2) f /\
  nan_or (fun r => 0 <= r <= 2) v /\ nan_or (fun r => 0 <= r <= 2) q.

Definition hard_hemo (x f v q : num) : Prop :=
  nan_or (fun r => c_1e3 <= r) f /\ nan_or (fun r => c_1e3 <= r) v /\
  nan_or (fun r => c_1e3 <= r) q.

(** The vasodilatory signal, and all four hemodynamic states, of every
    region are NaN. *)
Definition x_NaN (n : nat) (st : hemo_state) : Prop :=
  forall i, (i < n)%nat -> s_x st i = NaN.

Definition all_NaN (n : nat) (st : hemo_state) : Prop :=
  forall i, (i < n)%nat ->
    s_x st i = NaN /\ s_f st i = NaN /\ s_v st i = NaN /\ s_q st i = NaN.

(** ** Example configurations *)

Definition example_params : Params :=
  {| W_E := 1; W_I := 7 / 10; I_0 := 2 / 10;
     g := 20; g_EE := 35 / 10; g_IE := 42 / 100; g_EI := 42 / 100;
     aE := 310; bE := 125; dE := 16 / 100;
     aI := 615; bI := 177; dI := 87 / 1000;
     tau_E := 100; tau_I := 10; gamma_E := 641 / 1000000; gamma_I := 1 / 1000;
     std_in := 2 / 100; std_out := 2 / 100;
     tau_s := 65 / 100; tau_f := 41 / 100; tau_0 := 98 / 100;
     alpha := 32 / 100; rho := 34 / 100;
     V := 2 / 100; E0 := 34 / 100; k1 := 238 / 100; k2 := 2; k3 := 48 / 100 |}.

Definition example_model (n T : nat) (K : Z) (S_ : nat) (sc_ gains : matrix R)
    (lap smooth : bool) : Model :=
  {| tr := 1; step_size := 5 / 100; steps_per_TR := K;
     TRs_per_window := T; node_size := n; sampling_size := S_;
     sc := sc_; sc_fitted := map (map Fin) sc_;
     use_fit_gains := false; use_Laplacian := lap; use_Bifurcation := true;
     use_Gaussian_EI := false; use_dynamic_boundary := smooth;
     gains_con := gains; param := example_params |}.

Definition zeros_2x2 : matrix R := [[0; 0]; [0; 0]].
Definition ring_2x2 : matrix R := [[0; 1]; [1; 0]].

(** Two regions without any connection. *)
Definition unconnected_model : Model :=
  example_model 2 1 1 1 zeros_2x2 zeros_2x2 true true.

(** Two regions joined by one connection. *)
Definition pair_model : Model :=
  example_model 2 1 1 1 ring_2x2 zeros_2x2 true true.

Definition zero_noise : Noise :=
  {| xi_E0 := fun _ _ _ _ => 0; xi_I0 := fun _ _ _ _ => 0;
     xi_E := fun _ _ _ _ => 0; xi_I := fun _ _ _ _ => 0;
     xi_bold := fun _ _ => 0 |}.

(** One region, one period of one step, one sample, either policy. *)
Definition single_region_model (smooth : bool) : Model :=
  example_model 1 1 1 1 [[0]] [[0]] true smooth.

Definition rest_state : matrix num :=
  [[Fin (1 / 10); Fin (1 / 10); Fin 0; Fin 1; Fin 1; Fin 1]].

Definition rest_state_2 : matrix num :=
  [[Fin (1 / 10); Fin (1 / 10); Fin 0; Fin 1; Fin 1; Fin 1];
   [Fin (1 / 10); Fin (1 / 10); Fin 0; Fin 1; Fin 1; Fin 1]].

(** A state whose vasodilatory signal is a large negative seed. *)
Definition seeded_state : matrix num :=
  [[Fin (1 / 10); Fin (1 / 10); Fin (-1000); Fin 1; Fin 1; Fin 1]].

(** A state with a high excitatory activity, and one with a negative
    blood volume. *)
Definition excited_state : matrix num :=
  [[Fin 20; Fin 20; Fin 0; Fin 1; Fin 1; Fin 1]].

Definition negative_volume_state : matrix num :=
  [[Fin 0; Fin 0; Fin 0; Fin 1; Fin (-1); Fin 1]].

(** A state with a blood volume of 10, and one region with one period
    of two steps. *)
Definition swollen_state : matrix num :=
  [[Fin (1 / 10); Fin (1 / 10); Fin 0; Fin 1; Fin 10; Fin 1]].

Definition two_step_model : Model :=
  example_model 1 1 2 1 [[0]] [[0]] true true.

(** Two regions without any connection, one period of three steps. *)
Definition three_step_unconnected : Model :=
  example_model 2 1 3 1 zeros_2x2 zeros_2x2 true true.

Module MaterializerExamples.

Import String.
Import Materializer.
Local Open Scope string_scope.

(** A parameter container with the single entry [g]. *)
Definition one_entry (hyper : bool) : config :=
  {| node_size := 1; use_Gaussian_EI := false; use_Bifurcation := true;
     use_fit_gains := true;
     param := [("g", IsPar {| val := Scalar 20; prior_mean := Scalar 20;
                              prior_var := Scalar 1; fit_par := true;
                              fit_hyper := hyper |})];
     draw := fun _ => Scalar 21 |}.

End MaterializerExamples.

(** ** Initial condition *)

(** The attribute [state_size] that [__init__] sets. *)
Definition state_size : nat := 6.

(** [createIC(ver)]:
    [0.2 * uniform(0, 1, (node_size, state_size)) + [0, 0, 0, 1.0, 1.0, 1.0]],
    with the uniform draws [u].  The code converts the array to 32-bit
    floats, which moves an entry by at most one part in [2^24]; the
    entries here are the values before the conversion. *)
Definition createIC (m : Model) (u : nat -> nat -> R) : matrix num :=
  tabulate2 (node_size m) state_size
    (fun i c => Fin (2 / 10 * u i c + nth c [0; 0; 0; 1; 1; 1] 0)).

(** ** Further configurations of the examples *)

(** The model with every gain raised by [k], and with the structural
    matrix scaled by [c]. *)
Definition shift_gains (k : R) (m : Model) : Model :=
  {| tr := tr m; step_size := step_size m; steps_per_TR := steps_per_TR m;
     TRs_per_window := TRs_per_window m; node_size := node_size m;
     sampling_size := sampling_size m; sc := sc m; sc_fitted := sc_fitted m;
     use_fit_gains := use_fit_gains m; use_Laplacian := use_Laplacian m;
     use_Bifurcation := use_Bifurcation m; use_Gaussian_EI := use_Gaussian_EI m;
     use_dynamic_boundary := use_dynamic_boundary m;
     gains_con := map (map (fun x => x + k)) (gains_con m); param := param m |}.

Definition scale_sc (c : R) (m : Model) : Model :=
  {| tr := tr m; step_size := step_size m; steps_per_TR := steps_per_TR m;
     TRs_per_window := TRs_per_window m; node_size := node_size m;
     sampling_size := sampling_size m; sc := map (map (fun x => c * x)) (sc m);
     sc_fitted := sc_fitted m;
     use_fit_gains := use_fit_gains m; use_Laplacian := use_Laplacian m;
     use_Bifurcation := use_Bifurcation m; use_Gaussian_EI := use_Gaussian_EI m;
     use_dynamic_boundary := use_dynamic_boundary m;
     gains_con := gains_con m; param := param m |}.

(** A square matrix of [n] rows. *)
Definition square (n : nat) (M : matrix R) : Prop :=
  length M = n /\ Forall (fun row => length row = n) M.

(** * Properties *)

Lemma tanh_lt_1 (x : R) : tanh x < 1.
Proof.
  unfold tanh, sinh, cosh.
  pose proof (exp_pos x) as Hx. pose proof (exp_pos (- x)) as Hm.
  apply Rmult_lt_reg_r with ((exp x + exp (- x)) / 2); [lra|].
  field_simplify; lra.
Qed.

Lemma tanh_gt_m1 (x : R) : -1 < tanh x.
Proof.
  unfold tanh, sinh, cosh.
  pose proof (exp_pos x) as Hx. pose proof (exp_pos (- x)) as Hm.
  apply Rmult_lt_reg_r with ((exp x + exp (- x)) / 2); [lra|].
  field_simplify; lra.
Qed.

Lemma tanh_nonneg (x : R) : 0 <= x -> 0 <= tanh x.
Proof.
  intros Hx. unfold tanh, sinh, cosh.
  pose proof (exp_pos x) as Hp. pose proof (exp_pos (- x)) as Hm.
  assert (exp (- x) <= exp x).
  { destruct (Req_dec x 0) as [->|Hn].
    - rewrite Ropp_0. lra.
    - left. apply exp_increasing. lra. }
  apply Rmult_le_reg_r with ((exp x + exp (- x)) / 2); [lra|].
  field_simplify; lra.
Qed.

Lemma tanh_pos (x : R) : 0 < x -> 0 < tanh x.
Proof.
  intros Hx. unfold tanh, sinh, cosh.
  pose proof (exp_pos x) as Hp. pose proof (exp_pos (- x)) as Hm.
  assert (exp (- x) < exp x) by (apply exp_increasing; lra).
  apply Rdiv_lt_0_compat; lra.
Qed.

(** [tanh] at large arguments: [1 - tanh x <= 2 / exp (2 x)], which is
    below [2^-25] from 19 on. *)
Lemma tanh_neg (x : R) : tanh (- x) = - tanh x.
Proof.
  unfold tanh, sinh, cosh. rewrite Ropp_involutive.
  pose proof (exp_pos x). pose proof (exp_pos (- x)).
  field. lra.
Qed.

Lemma one_minus_tanh (x : R) : 1 - tanh x <= 2 / exp (2 * x).
Proof.
  unfold tanh, sinh, cosh.
  pose proof (exp_pos x) as Hp. pose proof (exp_pos (- x)) as Hm.
  assert (E2 : exp (2 * x) = exp x * exp x).
  { replace (2 * x) with (x + x) by ring. apply exp_plus. }
  assert (E1 : exp x * exp (- x) = 1).
  { rewrite <- exp_plus. replace (x + - x) with 0 by ring. apply exp_0. }
  rewrite E2.
  replace (1 - (exp x - exp (- x)) / 2 / ((exp x + exp (- x)) / 2))
    with (2 * exp (- x) / (exp x + exp (- x))) by (field; lra).
  apply Rmult_le_reg_r with ((exp x + exp (- x)) * (exp x * exp x)).
  - apply Rmult_lt_0_compat; nra.
  - replace (2 * exp (- x) / (exp x + exp (- x)) * ((exp x + exp (- x)) * (exp x * exp x)))
      with (2 * (exp x * exp (- x)) * exp x) by (field; lra).
    replace (2 / (exp x * exp x) * ((exp x + exp (- x)) * (exp x * exp x)))
      with (2 * (exp x + exp (- x))) by (field; nra).
    rewrite E1. nra.
Qed.

Lemma exp_ge_2pow26 (x : R) : 19 <= x -> 67108864 <= exp (2 * x).
Proof.
  intros Hx.
  assert (H1 : 3 <= exp 2).
  { pose proof (exp_ineq1 2). lra. }
  assert (Hm : exp 38 <= exp (2 * x)).
  { destruct (Req_dec (2 * x) 38) as [->|Hne]; [lra|].
    left. apply exp_increasing. lra. }
  assert (E : exp 38 = exp 2 ^ 19).
  { replace 38 with (2 + (2 + (2 + (2 + (2 + (2 + (2 + (2 + (2 + (2 + (2 + (2 + (2 + (2 + (2 + (2 + (2 + (2 + 2)))))))))))))))))) by ring.
    rewrite !exp_plus. simpl. ring. }
  assert (3 ^ 19 <= exp 2 ^ 19) by (apply pow_incr; lra).
  assert (3 ^ 19 = 1162261467) by (simpl; ring).
  lra.
Qed.

Lemma tanh32_high (x : R) : 19 <= x -> tanh32 x = 1.
Proof.
  intros Hx. unfold tanh32.
  destruct (Rle_dec (1 - half_ulp_1) (tanh x)) as [_|Hn]; [reflexivity|].
  exfalso. apply Hn.
  pose proof (one_minus_tanh x) as H1. pose proof (exp_ge_2pow26 x Hx) as H2.
  assert (2 / exp (2 * x) <= half_ulp_1).
  { unfold half_ulp_1. apply Rmult_le_reg_r with (exp (2 * x)); [lra|].
    unfold Rdiv. rewrite Rmult_assoc, Rinv_l by lra. lra. }
  lra.
Qed.

Lemma tanh32_low (x : R) : x <= -19 -> tanh32 x = -1.
Proof.
  intros Hx. unfold tanh32.
  assert (Ht : tanh x <= half_ulp_1 - 1).
  { pose proof (one_minus_tanh (- x)) as H1.
    assert (H2 : 67108864 <= exp (2 * - x)) by (apply exp_ge_2pow26; lra).
    rewrite tanh_neg in H1.
    assert (2 / exp (2 * - x) <= half_ulp_1).
    { unfold half_ulp_1. apply Rmult_le_reg_r with (exp (2 * - x)); [lra|].
      unfold Rdiv. rewrite Rmult_assoc, Rinv_l by lra. lra. }
    lra. }
  destruct (Rle_dec (1 - half_ulp_1) (tanh x)) as [H|_].
  - exfalso. unfold half_ulp_1 in *. lra.
  - destruct (Rle_dec (tanh x) (half_ulp_1 - 1)); [reflexivity | contradiction].
Qed.

Lemma tanh32_range (x : R) : -1 <= tanh32 x <= 1.
Proof.
  unfold tanh32. pose proof (tanh_lt_1 x). pose proof (tanh_gt_m1 x).
  destruct (Rle_dec _ _); [lra|]. destruct (Rle_dec _ _); lra.
Qed.

Lemma tanh32_nonneg (x : R) : 0 <= x -> 0 <= tanh32 x.
Proof.
  intros Hx. unfold tanh32. pose proof (tanh_nonneg x Hx).
  destruct (Rle_dec _ _); [lra|].
  destruct (Rle_dec _ _) as [H1|]; [|assumption].
  unfold half_ulp_1 in H1. lra.
Qed.

Lemma tanh32_pos (x : R) : 0 < x -> 0 < tanh32 x.
Proof.
  intros Hx. unfold tanh32. pose proof (tanh_pos x Hx).
  destruct (Rle_dec _ _); [lra|].
  destruct (Rle_dec _ _) as [H1|]; [|assumption].
  unfold half_ulp_1 in H1. lra.
Qed.

(** ** Lists and sums *)

Lemma tabulate_length {A : Type} (n : nat) (f : nat -> A) :
  length (tabulate n f) = n.
Proof. unfold tabulate. now rewrite length_map, length_seq. Qed.

Lemma nth_tabulate {A : Type} (n : nat) (f : nat -> A) (d : A) (i : nat) :
  (i < n)%nat -> nth i (tabulate n f) d = f i.
Proof.
  intros Hi. unfold tabulate.
  rewrite (nth_indep _ d (f 0%nat)) by (now rewrite length_map, length_seq).
  rewrite (map_nth f (seq 0 n) 0%nat i), seq_nth; auto.
Qed.

Lemma mget_tabulate2 {A : Type} (n k : nat) (f : nat -> nat -> A) (d : A) (i j : nat) :
  (i < n)%nat -> (j < k)%nat -> mget d (tabulate2 n k f) i j = f i j.
Proof.
  intros Hi Hj. unfold mget, tabulate2.
  rewrite nth_tabulate by assumption. now apply nth_tabulate.
Qed.

Lemma tabulate_ext {A : Type} (n : nat) (f h : nat -> A) :
  (forall i, (i < n)%nat -> f i = h i) -> tabulate n f = tabulate n h.
Proof.
  intros E. unfold tabulate. apply map_ext_in. intros i Hi.
  apply in_seq in Hi. apply E. lia.
Qed.

Lemma tabulate2_ext {A : Type} (n k : nat) (f h : nat -> nat -> A) :
  (forall i j, (i < n)%nat -> (j < k)%nat -> f i j = h i j) ->
  tabulate2 n k f = tabulate2 n k h.
Proof.
  intros E. unfold tabulate2. apply tabulate_ext. intros i Hi.
  apply tabulate_ext. intros j Hj. now apply E.
Qed.

Lemma rsum_ext (n : nat) (f h : nat -> R) :
  (forall i, (i < n)%nat -> f i = h i) -> rsum n f = rsum n h.
Proof.
  induction n as [|n IH]; intros E; simpl; [reflexivity|].
  rewrite IH, E; auto.
Qed.

Lemma rsum_scale (n : nat) (c : R) (f : nat -> R) :
  rsum n (fun i => c * f i) = c * rsum n f.
Proof. induction n as [|n IH]; simpl; [ring | rewrite IH; ring]. Qed.

Lemma rsum_nonneg (n : nat) (f : nat -> R) :
  (forall i, (i < n)%nat -> 0 <= f i) -> 0 <= rsum n f.
Proof.
  induction n as [|n IH]; intros Hf; simpl; [lra|].
  assert (0 <= rsum n f) by (apply IH; auto).
  assert (0 <= f n) by (apply Hf; lia). lra.
Qed.

Lemma rsum_ge_term (n : nat) (f : nat -> R) (k : nat) :
  (forall i, (i < n)%nat -> 0 <= f i) -> (k < n)%nat -> f k <= rsum n f.
Proof.
  induction n as [|n IH]; intros Hf Hk; [lia|]. simpl.
  assert (0 <= rsum n f) by (apply rsum_nonneg; auto).
  assert (0 <= f n) by (apply Hf; lia).
  destruct (Nat.eq_dec k n) as [->|Hne]; [lra|].
  assert (f k <= rsum n f) by (apply IH; auto; lia). lra.
Qed.

Lemma rsum_zero (n : nat) (f : nat -> R) :
  (forall i, (i < n)%nat -> f i = 0) -> rsum n f = 0.
Proof.
  induction n as [|n IH]; intros Hf; simpl; [reflexivity|].
  rewrite IH, Hf; auto; lra.
Qed.

Lemma tsum_ext (n : nat) (f h : nat -> num) :
  (forall i, (i < n)%nat -> f i = h i) -> tsum n f = tsum n h.
Proof.
  induction n as [|n IH]; intros E; simpl; [reflexivity|].
  rewrite IH, E; auto.
Qed.

Lemma tsum_Fin (n : nat) (f : nat -> R) :
  tsum n (fun i => Fin (f i)) = Fin (rsum n f).
Proof. induction n as [|n IH]; simpl; [reflexivity | now rewrite IH]. Qed.

Lemma tsum_NaN (n : nat) (f : nat -> num) :
  (0 < n)%nat -> (forall i, (i < n)%nat -> f i = NaN) -> tsum n f = NaN.
Proof.
  destruct n as [|n]; [lia|]. intros _ Hf. simpl.
  rewrite (Hf n) by lia. now destruct (tsum n f).
Qed.

(** ** Response function *)

Lemma h_tf_den_pos (a b d z : R) :
  0 < d -> 0 < c_1e5 * d + Rabs (1 - exp (- d * (a * z - b))).
Proof.
  intros Hd. pose proof (Rabs_pos (1 - exp (- d * (a * z - b)))).
  unfold c_1e5. nra.
Qed.

(** ** Coupling matrix *)

Lemma sc_sym_comm (m : Model) (i j : nat) : sc_sym m i j = sc_sym m j i.
Proof. unfold sc_sym. ring. Qed.

Lemma sum_squares_nonneg (n : nat) (A : nat -> nat -> R) : 0 <= sum_squares n A.
Proof.
  apply rsum_nonneg; intros i _. apply rsum_nonneg; intros j _. nra.
Qed.

Lemma sum_squares_pos (n : nat) (A : nat -> nat -> R) (i j : nat) :
  (i < n)%nat -> (j < n)%nat -> A i j <> 0 -> 0 < sum_squares n A.
Proof.
  intros Hi Hj Hne.
  assert (Hrow : A i j * A i j <= rsum n (fun c => A i c * A i c)).
  { apply (rsum_ge_term n (fun c => A i c * A i c) j); [intros; nra | assumption]. }
  assert (Hall : rsum n (fun c => A i c * A i c) <= sum_squares n A).
  { apply (rsum_ge_term n (fun r => rsum n (fun c => A r c * A r c)) i);
      [|assumption].
    intros r _. apply rsum_nonneg; intros; nra. }
  assert (0 < A i j * A i j) by nra. lra.
Qed.

Lemma fro_norm_zero (n : nat) (A : nat -> nat -> R) :
  (forall i j, (i < n)%nat -> (j < n)%nat -> A i j = 0) -> fro_norm n A = 0.
Proof.
  intros Hz. unfold fro_norm, sum_squares. rewrite rsum_zero; [apply sqrt_0|].
  intros i Hi. apply rsum_zero. intros j Hj. rewrite Hz by assumption. ring.
Qed.

Lemma fro_norm_pos (n : nat) (A : nat -> nat -> R) (i j : nat) :
  (i < n)%nat -> (j < n)%nat -> A i j <> 0 -> 0 < fro_norm n A.
Proof.
  intros Hi Hj Hne. unfold fro_norm. apply sqrt_lt_R0.
  exact (sum_squares_pos n A i j Hi Hj Hne).
Qed.

Lemma fro_norm_scaled (n : nat) (A : nat -> nat -> R) :
  0 < fro_norm n A -> fro_norm n (fun i j => A i j / fro_norm n A) = 1.
Proof.
  intros Hpos. set (N := fro_norm n A) in *.
  assert (HN : N * N = sum_squares n A).
  { unfold N, fro_norm. apply sqrt_sqrt. apply sum_squares_nonneg. }
  unfold fro_norm. unfold sum_squares at 1.
  replace (rsum n (fun i => rsum n (fun j => A i j / N * (A i j / N))))
    with (/ (N * N) * sum_squares n A).
  - rewrite <- HN. replace (/ (N * N) * (N * N)) with 1 by (field; lra).
    apply sqrt_1.
  - unfold sum_squares. rewrite <- rsum_scale. apply rsum_ext; intros i _.
    rewrite <- rsum_scale. apply rsum_ext; intros j _. field. lra.
Qed.

Lemma normalized_entry (m : Model) (i j : nat) :
  (i < length (sc m))%nat -> (j < length (sc m))%nat ->
  nget (sc_mod_normalized m) i j
  = tdiv (Fin (sc_sym m i j)) (Fin (fro_norm (length (sc m)) (sc_sym m))).
Proof.
  intros Hi Hj. unfold nget, sc_mod_normalized.
  now rewrite mget_tabulate2.
Qed.

Lemma normalized_finite (m : Model) (i j : nat) :
  (i < length (sc m))%nat -> (j < length (sc m))%nat ->
  0 < fro_norm (length (sc m)) (sc_sym m) ->
  nget (sc_mod_normalized m) i j
  = Fin (sc_sym m i j / fro_norm (length (sc m)) (sc_sym m)).
Proof.
  intros Hi Hj Hpos. rewrite normalized_entry by assumption. simpl.
  destruct (Req_dec_T _ 0); [lra | reflexivity].
Qed.

Lemma normalized_NaN (m : Model) (i j : nat) :
  (i < length (sc m))%nat -> (j < length (sc m))%nat ->
  fro_norm (length (sc m)) (sc_sym m) = 0 ->
  nget (sc_mod_normalized m) i j = NaN.
Proof.
  intros Hi Hj Hz. rewrite normalized_entry by assumption. simpl.
  destruct (Req_dec_T _ 0); [reflexivity | contradiction].
Qed.

Lemma sc_sym_nonzero (m : Model) (i j : nat) :
  0 <= rget (sc m) j i -> 0 < rget (sc m) i j -> sc_sym m i j <> 0.
Proof.
  intros Hji Hij. unfold sc_sym, sc_mod.
  pose proof (exp_pos (rget (gains_con m) i j)).
  pose proof (exp_pos (rget (gains_con m) j i)).
  assert (0 < exp (rget (gains_con m) i j) * rget (sc m) i j) by nra.
  assert (0 <= exp (rget (gains_con m) j i) * rget (sc m) j i) by nra.
  lra.
Qed.

Lemma unit_norm_of_nonzero (m : Model) :
  0 < fro_norm (length (sc m)) (sc_sym m) ->
  symmetric_unit_norm 0 (length (sc m)) (sc_mod_normalized m).
Proof.
  intros Hpos.
  exists (fun i j => sc_sym m i j / fro_norm (length (sc m)) (sc_sym m)).
  split; [|split].
  - intros i j Hi Hj. now apply normalized_finite.
  - intros i j _ _. now rewrite sc_sym_comm.
  - rewrite fro_norm_scaled by assumption.
    replace (1 - 1) with 0 by ring. rewrite Rabs_R0. lra.
Qed.

Lemma symmetric_unit_norm_weaken (tol tol' : R) (n : nat) (A : matrix num) :
  tol <= tol' -> symmetric_unit_norm tol n A -> symmetric_unit_norm tol' n A.
Proof.
  intros Hle (a & Ha & Hs & Hn). exists a. repeat split; auto. lra.
Qed.

Lemma rsum_plus (n : nat) (f h : nat -> R) :
  rsum n (fun i => f i + h i) = rsum n f + rsum n h.
Proof. induction n as [|n IH]; simpl; [ring | rewrite IH; ring]. Qed.

Lemma rsum_single (n i : nat) (r : R) :
  (i < n)%nat -> rsum n (fun j => if Nat.eqb i j then r else 0) = r.
Proof.
  induction n as [|n IH]; intros Hi; [lia|]. simpl.
  destruct (Nat.eqb_spec i n) as [->|Hne].
  - rewrite rsum_zero; [ring|].
    intros j Hj. destruct (Nat.eqb_spec n j); [lia | reflexivity].
  - rewrite IH by lia. ring.
Qed.

Lemma laplacian_entry (n : nat) (A : matrix num) (i j : nat) :
  (i < n)%nat -> (j < n)%nat ->
  nget (laplacian n A) i j
  = (- diag (fun r => tsum n (fun c => nget A r c)) i j + nget A i j)%num.
Proof. intros Hi Hj. unfold nget at 1, laplacian. now rewrite mget_tabulate2. Qed.

Lemma neg_plus_is_minus (d a : num) : (- d + a)%num = (a - d)%num.
Proof. destruct d, a; simpl; try reflexivity. f_equal. ring. Qed.

Lemma lap_adj_coupled (m : Model) :
  (2 <= length (sc m))%nat ->
  lap_adj m = if use_Laplacian m
              then laplacian (length (sc m)) (sc_mod_normalized m)
              else sc_mod_normalized m.
Proof.
  intros Hn. unfold lap_adj.
  destruct (Nat.ltb_spec 1 (length (sc m))); [reflexivity | lia].
Qed.

Lemma laplacian_NaN (n : nat) (A : matrix num) (i j : nat) :
  (i < n)%nat -> (j < n)%nat -> nget A i j = NaN ->
  nget (laplacian n A) i j = NaN.
Proof.
  intros Hi Hj HA. rewrite laplacian_entry, HA by assumption.
  now destruct (diag _ i j).
Qed.

Lemma laplacian_row_sum (n : nat) (A : matrix num) (a : nat -> nat -> R) (i : nat) :
  (forall r c, (r < n)%nat -> (c < n)%nat -> nget A r c = Fin (a r c)) ->
  (i < n)%nat ->
  tsum n (fun j => nget (laplacian n A) i j) = Fin 0.
Proof.
  intros Ha Hi.
  rewrite (tsum_ext n _ (fun j =>
    Fin ((if Nat.eqb i j then - rsum n (a i) else 0) + a i j))).
  - rewrite tsum_Fin, rsum_plus, rsum_single by assumption.
    f_equal. replace (fun j => a i j) with (a i) by reflexivity. ring.
  - intros j Hj. rewrite laplacian_entry, Ha by assumption. unfold diag.
    destruct (Nat.eqb i j).
    + rewrite (tsum_ext n _ (fun c => Fin (a i c))) by (intros; now apply Ha).
      now rewrite tsum_Fin.
    + simpl. f_equal. ring.
Qed.

Lemma sc_sym_of_zero (m : Model) (i j : nat) :
  rget (sc m) i j = 0 -> rget (sc m) j i = 0 -> sc_sym m i j = 0.
Proof. intros Hij Hji. unfold sc_sym, sc_mod. rewrite Hij, Hji. ring. Qed.

Lemma not_unit_norm_of_zero (m : Model) (tol : R) :
  (0 < length (sc m))%nat ->
  fro_norm (length (sc m)) (sc_sym m) = 0 ->
  ~ symmetric_unit_norm tol (length (sc m)) (sc_mod_normalized m).
Proof.
  intros Hn Hz (a & Ha & _).
  specialize (Ha 0%nat 0%nat Hn Hn).
  rewrite normalized_NaN in Ha by assumption. discriminate.
Qed.

Lemma fro_norm_pos_of_nonzero (m : Model) :
  symmetric_nonneg (length (sc m)) (sc m) ->
  nonzero_matrix (length (sc m)) (sc m) ->
  0 < fro_norm (length (sc m)) (sc_sym m).
Proof.
  intros Hs (i & j & Hi & Hj & Hne).
  apply (fro_norm_pos _ _ i j Hi Hj).
  destruct (Hs i j Hi Hj) as [_ H0]. destruct (Hs j i Hj Hi) as [_ H1].
  apply sc_sym_nonzero; lra.
Qed.

Lemma moderate_norm_pos (m : Model) :
  moderate_coupling m -> 0 < fro_norm (length (sc m)) (sc_sym m).
Proof.
  intros [_ _ Hsc (i & j & Hi & Hj & Hij)].
  apply (fro_norm_pos _ _ i j Hi Hj).
  apply sc_sym_nonzero; [apply Hsc|].
  assert (0 < / 1000000) by (apply Rinv_0_lt_compat; lra). lra.
Qed.

(** C2 (amended).  For a symmetric structural matrix without negative
    entries, with at least 2 regions and of moderate size (at most 1000
    regions, gains within [[-20, 20]], entries at most 10^6 and one of
    them at least 10^-6), the coupling matrix has finite entries, is
    symmetric and has Frobenius norm 1 within 1e-5; it is the operator
    of the integrator when the Laplacian mode is off.  With a single
    region the operator is the 1 x 1 zero matrix. *)
Theorem coupling_unit_norm (m : Model) :
  symmetric_nonneg (length (sc m)) (sc m) ->
  ((2 <= length (sc m))%nat -> moderate_coupling m) ->
  ((2 <= length (sc m))%nat ->
     symmetric_unit_norm c_1e5 (length (sc m)) (sc_mod_normalized m) /\
     (use_Laplacian m = false -> lap_adj m = sc_mod_normalized m)) /\
  (length (sc m) = 1%nat -> lap_adj m = [[Fin 0]]).
Proof.
  intros Hs Hmod. split.
  - intros Hn. split.
    + apply (symmetric_unit_norm_weaken 0); [unfold c_1e5; lra|].
      apply unit_norm_of_nonzero, moderate_norm_pos. now apply Hmod.
    + intros Hl. rewrite lap_adj_coupled, Hl by assumption. reflexivity.
  - intros H1. unfold lap_adj. now rewrite H1.
Qed.

Lemma ring_2x2_symmetric_nonneg : symmetric_nonneg 2 ring_2x2.
Proof.
  intros i j Hi Hj.
  destruct i as [|[|i]]; [| |lia]; (destruct j as [|[|j]]; [| |lia]);
    unfold rget, mget; simpl; lra.
Qed.

Lemma ring_2x2_nonzero : nonzero_matrix 2 ring_2x2.
Proof.
  exists 0%nat, 1%nat. repeat split; [lia | lia |].
  unfold rget, mget; simpl; lra.
Qed.

Lemma rget_2x2 (a b c d : R) (P : R -> Prop) :
  P a -> P b -> P c -> P d -> P 0 ->
  forall i j, P (rget [[a; b]; [c; d]] i j).
Proof.
  intros Ha Hb Hc Hd H0 i j. unfold rget, mget.
  destruct i as [|[|i]]; cbn [nth];
    destruct j as [|[|[|j]]]; cbn [nth]; try assumption;
    destruct i; assumption.
Qed.

Lemma pair_model_moderate : moderate_coupling pair_model.
Proof.
  constructor.
  - simpl. lia.
  - apply (rget_2x2 0 0 0 0 (fun r => Rabs r <= 20));
      rewrite Rabs_R0; lra.
  - apply (rget_2x2 0 1 1 0 (fun r => 0 <= r <= 1000000)); lra.
  - exists 0%nat, 1%nat. split; [simpl; lia|]. split; [simpl; lia|].
    unfold rget, mget. simpl. lra.
Qed.

Lemma coupling_unit_norm_witness :
  symmetric_nonneg 2 ring_2x2 /\ moderate_coupling pair_model /\
  symmetric_unit_norm c_1e5 2 (sc_mod_normalized pair_model).
Proof.
  split; [exact ring_2x2_symmetric_nonneg | split; [exact pair_model_moderate|]].
  apply (coupling_unit_norm pair_model).
  - exact ring_2x2_symmetric_nonneg.
  - intros _. exact pair_model_moderate.
  - simpl. lia.
Defined.

Lemma zeros_2x2_symmetric_nonneg : symmetric_nonneg 2 zeros_2x2.
Proof.
  intros i j Hi Hj.
  destruct i as [|[|i]]; [| |lia]; (destruct j as [|[|j]]; [| |lia]);
    unfold rget, mget; simpl; lra.
Qed.

Lemma unconnected_norm_zero :
  fro_norm (length (sc unconnected_model)) (sc_sym unconnected_model) = 0.
Proof.
  apply fro_norm_zero. intros i j Hi Hj. simpl in Hi, Hj.
  apply sc_sym_of_zero;
    destruct i as [|[|i]]; try lia; destruct j as [|[|j]]; try lia; reflexivity.
Qed.

(** C2 as stated fails: the structural matrix of two unconnected regions
    is symmetric without negative entries, and its coupling matrix is not
    a symmetric matrix of norm 1 within 1e-5. *)
Lemma coupling_unit_norm_counterexample :
  symmetric_nonneg 2 (sc unconnected_model) /\
  (2 <= length (sc unconnected_model))%nat /\
  ~ symmetric_unit_norm c_1e5 2 (sc_mod_normalized unconnected_model).
Proof.
  split; [exact zeros_2x2_symmetric_nonneg | split; [simpl; lia|]].
  apply (not_unit_norm_of_zero unconnected_model c_1e5).
  - simpl; lia.
  - exact unconnected_norm_zero.
Qed.

(** C7.  With the Laplacian mode on and at least 2 regions, the operator
    of the integrator is [A - diag (rowsum A)] for the normalised matrix
    [A]; when [A] is the unit-norm symmetric matrix, every row of the
    operator sums to 0. *)
Theorem laplacian_rows_sum_to_zero (m : Model) :
  use_Laplacian m = true ->
  (2 <= length (sc m))%nat ->
  let n := length (sc m) in
  let A := sc_mod_normalized m in
  (forall i j, (i < n)%nat -> (j < n)%nat ->
     nget (lap_adj m) i j
     = (nget A i j - diag (fun r => tsum n (fun c => nget A r c)) i j)%num) /\
  (symmetric_unit_norm c_1e5 n A ->
   forall i, (i < n)%nat -> tsum n (fun j => nget (lap_adj m) i j) = Fin 0).
Proof.
  intros Hl Hn n A. rewrite lap_adj_coupled, Hl by assumption. split.
  - intros i j Hi Hj. rewrite laplacian_entry by assumption.
    apply neg_plus_is_minus.
  - intros (a & Ha & _) i Hi. now apply (laplacian_row_sum n A a).
Qed.

Lemma laplacian_rows_sum_to_zero_witness :
  symmetric_unit_norm c_1e5 2 (sc_mod_normalized pair_model) /\
  forall i, (i < 2)%nat ->
    tsum 2 (fun j => nget (lap_adj pair_model) i j) = Fin 0.
Proof.
  assert (H : symmetric_unit_norm c_1e5 2 (sc_mod_normalized pair_model)).
  { apply (symmetric_unit_norm_weaken 0); [unfold c_1e5; lra|].
    apply (unit_norm_of_nonzero pair_model), fro_norm_pos_of_nonzero.
    - exact ring_2x2_symmetric_nonneg.
    - exact ring_2x2_nonzero. }
  split; [exact H|].
  apply (laplacian_rows_sum_to_zero pair_model); [reflexivity | simpl; lia | exact H].
Defined.

(** ** Finite values and NaN *)

Lemma tadd_NaN_r (x : num) : (x + NaN)%num = NaN.
Proof. now destruct x. Qed.

Lemma tmul_NaN_r (x : num) : (x * NaN)%num = NaN.
Proof. now destruct x. Qed.

Lemma tsub_NaN_r (x : num) : (x - NaN)%num = NaN.
Proof. now destruct x. Qed.

Lemma tmul_NaN_l (x : num) : (NaN * x)%num = NaN.
Proof. reflexivity. Qed.

Lemma tdiv_Fin (a b : R) : b <> 0 -> tdiv (Fin a) (Fin b) = Fin (a / b).
Proof. intros Hb. simpl. now destruct (Req_dec_T b 0). Qed.

Lemma reciprocal_Fin (r : R) : r <> 0 -> reciprocal (Fin r) = Fin (1 / r).
Proof. intros Hr. unfold reciprocal; simpl. now destruct (Req_dec_T r 0). Qed.

Lemma h_tf_Fin (a b d z : R) :
  0 < d ->
  h_tf (Fin a) (Fin b) (Fin d) (Fin z)
  = Fin ((c_1e5 + Rabs (a * z - b))
         / (c_1e5 * d + Rabs (1 - exp (- d * (a * z - b))))).
Proof.
  intros Hd. pose proof (h_tf_den_pos a b d z Hd).
  unfold h_tf; simpl. destruct (Req_dec_T _ 0); [lra | reflexivity].
Qed.

Lemma h_tf_pos (a b d z : R) :
  0 < d -> holds (fun r => 0 < r) (h_tf (Fin a) (Fin b) (Fin d) (Fin z)).
Proof.
  intros Hd. rewrite h_tf_Fin by assumption. eexists; split; [reflexivity|].
  apply Rdiv_lt_0_compat; [|now apply h_tf_den_pos].
  pose proof (Rabs_pos (a * z - b)). unfold c_1e5. lra.
Qed.

(** ** The response function within the range of 32-bit floats *)

Module Float32Facts.

Import Float32.

























End Float32Facts.

(** ** Loops *)

Lemma for_range_S {A : Type} (n : nat) (body : nat -> A -> A) (st : A) :
  for_range (S n) body st = body n (for_range n body st).
Proof. unfold for_range. now rewrite seq_S, fold_left_app. Qed.

Lemma for_range_ind {A : Type} (Inv : nat -> A -> Prop) (n : nat)
    (body : nat -> A -> A) (st : A) :
  Inv 0%nat st ->
  (forall i st, (i < n)%nat -> Inv i st -> Inv (S i) (body i st)) ->
  Inv n (for_range n body st).
Proof.
  intros H0 Hstep.
  assert (H : forall k, (k <= n)%nat -> Inv k (for_range k body st)).
  { induction k as [|k IH]; intros Hk; [exact H0|].
    rewrite for_range_S. apply Hstep; [lia | apply IH; lia]. }
  apply H. lia.
Qed.

Section NeuralLoop.

Variable m : Model.
Variable step : nat -> nat -> neural_state -> neural_state.
Variables F G : neural_state -> Prop.
Variables PE PI : num -> Prop.

Hypothesis G_F : forall st, G st -> F st.
Hypothesis step_G : forall t s st, F st -> G (step t s st).
Hypothesis step_hist : forall t s st i,
  F st -> (i < node_size m)%nat ->
  PE (E_hist (step t s st) i t s) /\ PI (I_hist (step t s st) i t s).
Hypothesis step_frame : forall t s st i t' s',
  (t' <> t \/ s' <> s) ->
  E_hist (step t s st) i t' s' = E_hist st i t' s' /\
  I_hist (step t s st) i t' s' = I_hist st i t' s'.

Let T := TRs_per_window m.
Let K := Z.to_nat (steps_per_TR m).

Let hist_ok := hist_entries (node_size m) PE PI.

Lemma neural_loop_inv (st0 : neural_state) :
  F st0 ->
  F (neural_loop m step st0) /\
  ((0 < T)%nat -> (0 < K)%nat -> G (neural_loop m step st0)) /\
  (forall t s, (t < T)%nat -> (s < K)%nat ->
     hist_ok (neural_loop m step st0) t s).
Proof.
  intros HF. unfold neural_loop. fold T K.
  apply (for_range_ind (fun t st =>
    F st /\ ((0 < t)%nat -> (0 < K)%nat -> G st) /\
    (forall t' s, (t' < t)%nat -> (s < K)%nat -> hist_ok st t' s))).
  - cbv beta. split; [exact HF | split; intros; lia].
  - cbv beta. intros t st Ht (HFt & HGt & Hh).
    pose proof (for_range_ind (fun s st' =>
      F st' /\ (((0 < t)%nat \/ (0 < s)%nat) -> (0 < K)%nat -> G st') /\
      (forall t' s', (t' < t)%nat -> (s' < K)%nat -> hist_ok st' t' s') /\
      (forall s', (s' < s)%nat -> hist_ok st' t s')) K
      (fun step_i st' => step t step_i st') st) as Hin.
    cbv beta in Hin. destruct Hin as (H1 & H2 & H3 & H4).
    { split; [exact HFt|]. split; [intros [H|H] HK; [auto | lia]|].
      split; [exact Hh | intros; lia]. }
    { intros s st' Hs (HF' & HG' & Hold & Hcur).
      split; [apply G_F, step_G, HF'|]. split; [intros; apply step_G, HF'|].
      split.
      + intros t' s' Ht' Hs' i Hi.
        destruct (step_frame t s st' i t' s') as [-> ->]; [left; lia|].
        now apply Hold.
      + intros s' Hs' i Hi.
        destruct (Nat.eq_dec s' s) as [->|Hne].
        * now apply step_hist.
        * destruct (step_frame t s st' i t s') as [-> ->]; [right; lia|].
          apply Hcur; [lia | assumption]. }
    split; [exact H1|]. split.
    + intros _ HK. apply H2; [right; lia | assumption].
    + intros t' s Ht' Hs.
      destruct (Nat.eq_dec t' t) as [->|Hne]; [now apply H4|].
      apply H3; [lia | assumption].
Qed.

End NeuralLoop.

(** ** Neural-mass steps *)

Lemma upd_hist_same (h : nat -> nat -> nat -> num) (t s : nat) (col : vec) (i : nat) :
  upd_hist h t s col i t s = col i.
Proof. unfold upd_hist. now rewrite !Nat.eqb_refl. Qed.

Lemma upd_hist_other (h : nat -> nat -> nat -> num) (t s : nat) (col : vec)
    (i t' s' : nat) :
  t' <> t \/ s' <> s -> upd_hist h t s col i t' s' = h i t' s'.
Proof.
  intros Hne. unfold upd_hist.
  destruct (Nat.eqb_spec t' t); destruct (Nat.eqb_spec s' s); simpl;
    try reflexivity.
  destruct Hne; contradiction.
Qed.

(** ** Hemodynamic steps *)

Section HemoLoop.

Variable m : Model.
Variable nz : Noise.
Variable step : nat -> nat -> hemo_state -> hemo_state.
Variables F G : num -> num -> num -> num -> Prop.

Let n := node_size m.
Let T := TRs_per_window m.
Let K := Z.to_nat (steps_per_TR m).

Hypothesis G_F : forall x f v q, G x f v q -> F x f v q.
Hypothesis step_G : forall t s st,
  (t < T)%nat -> (s < K)%nat -> on_state n F st -> on_state n G (step t s st).
Hypothesis step_win : forall t s st i t',
  x_win (step t s st) i t' = x_win st i t' /\
  f_win (step t s st) i t' = f_win st i t' /\
  v_win (step t s st) i t' = v_win st i t' /\
  q_win (step t s st) i t' = q_win st i t'.

Lemma on_state_G_F (st : hemo_state) : on_state n G st -> on_state n F st.
Proof. intros H i Hi. apply G_F, H, Hi. Qed.

Lemma hemo_steps_inv (t : nat) (st : hemo_state) :
  (t < T)%nat -> on_state n F st ->
  let st' := for_range K (fun step_i st => step t step_i st) st in
  on_state n F st' /\ ((0 < K)%nat -> on_state n G st') /\
  (forall i t', x_win st' i t' = x_win st i t' /\
                f_win st' i t' = f_win st i t' /\
                v_win st' i t' = v_win st i t' /\
                q_win st' i t' = q_win st i t').
Proof.
  intros Ht HF.
  pose proof (for_range_ind (fun s st' =>
    on_state n F st' /\ ((0 < s)%nat -> on_state n G st') /\
    (forall i t', x_win st' i t' = x_win st i t' /\
                  f_win st' i t' = f_win st i t' /\
                  v_win st' i t' = v_win st i t' /\
                  q_win st' i t' = q_win st i t')) K
    (fun step_i st => step t step_i st) st) as Hin.
  cbv beta in Hin. apply Hin; clear Hin.
  - split; [exact HF|]. split; [intros; lia | intros; repeat split].
  - intros s st' Hs (HF' & _ & Hw).
    assert (HG : on_state n G (step t s st')) by (now apply step_G).
    split; [now apply on_state_G_F|]. split; [intros _; exact HG|].
    intros i t'. destruct (step_win t s st' i t') as (-> & -> & -> & ->).
    apply Hw.
Qed.

Lemma hemo_loop_inv (st0 : hemo_state) :
  on_state n F st0 ->
  on_state n F (hemo_loop m nz step st0) /\
  ((0 < T)%nat -> (0 < K)%nat -> on_state n G (hemo_loop m nz step st0)) /\
  ((0 < K)%nat -> forall t, (t < T)%nat ->
     on_windows n G (hemo_loop m nz step st0) t).
Proof.
  intros HF. unfold hemo_loop. fold T K.
  apply (for_range_ind (fun t st =>
    on_state n F st /\ ((0 < t)%nat -> (0 < K)%nat -> on_state n G st) /\
    ((0 < K)%nat -> forall t', (t' < t)%nat -> on_windows n G st t'))).
  - cbv beta. split; [exact HF|]. split; intros; lia.
  - cbv beta. intros t st Ht (HFt & _ & Hw).
    destruct (hemo_steps_inv t st Ht HFt) as (H1 & H2 & H3).
    set (st' := for_range K (fun step_i st1 => step t step_i st1) st) in *.
    split; [exact H1|]. split; [intros _ HK; exact (H2 HK)|].
    intros HK t' Ht' i Hi. unfold record_TR; cbn [x_win f_win v_win q_win].
    unfold upd_win. destruct (Nat.eqb_spec t' t) as [->|Hne].
    + apply (H2 HK i Hi).
    + destruct (H3 i t') as (-> & -> & -> & ->). apply Hw; [assumption | lia | assumption].
Qed.

End HemoLoop.

(** ** Ranges behind a saturation or a floor *)

Lemma nan_or_weaken (P Q : R -> Prop) (x : num) :
  (forall r, P r -> Q r) -> nan_or P x -> nan_or Q x.
Proof.
  intros HPQ [->|(r & -> & Hr)]; [now left | right]. exists r. auto.
Qed.

Lemma ttanh_range (x : num) : nan_or (fun r => -1 <= r <= 1) (ttanh x).
Proof.
  destruct x as [a|]; [right | now left].
  eexists; split; [reflexivity | apply tanh32_range].
Qed.

(** Range of the smooth saturation [tanh (0 + relu (1 * x))]. *)
Lemma saturation_range (x : num) :
  nan_or (fun r => 0 <= r <= 1) (ttanh (Fin 0 + relu (Fin 1 * x)))%num.
Proof.
  destruct x as [a|]; [right | now left].
  eexists; split; [reflexivity|]. split.
  - apply tanh32_nonneg. pose proof (Rmax_l 0 (1 * a)). lra.
  - apply tanh32_range.
Qed.

Lemma one_plus_tanh_range (y : num) :
  nan_or (fun r => 0 <= r <= 2) (Fin 1 + ttanh (y - Fin 1))%num.
Proof.
  destruct y as [a|]; [right | now left].
  eexists; split; [reflexivity|].
  pose proof (tanh32_range (a - 1)). lra.
Qed.

Lemma tsum_nan_or (n : nat) (f : nat -> num) (lo hi : R) :
  (forall s, (s < n)%nat -> nan_or (fun r => lo <= r <= hi) (f s)) ->
  nan_or (fun r => INR n * lo <= r <= INR n * hi) (tsum n f).
Proof.
  induction n as [|n IH]; intros Hf.
  - right. exists 0. simpl. split; [reflexivity | lra].
  - simpl tsum.
    destruct IH as [->|(a & -> & Hr)]; [auto | now left |].
    destruct (Hf n) as [->|(b & -> & Hbr)]; [lia | now left |].
    right. exists (a + b). split; [reflexivity|]. rewrite S_INR. lra.
Qed.

Lemma tmean_nan_or (n : nat) (f : nat -> num) (lo hi : R) :
  (forall s, (s < n)%nat -> nan_or (fun r => lo <= r <= hi) (f s)) ->
  nan_or (fun r => lo <= r <= hi) (tmean n f).
Proof.
  intros Hf. unfold tmean.
  destruct (tsum_nan_or n f lo hi Hf) as [->|(a & -> & Hr)]; [now left|].
  destruct n as [|n].
  - left. simpl. destruct (Req_dec_T 0 0); [reflexivity | contradiction].
  - assert (0 < INR (S n)) by (apply lt_0_INR; lia).
    right. exists (a / INR (S n)). rewrite tdiv_Fin by lra.
    split; [reflexivity|]. split.
    + apply Rmult_le_reg_r with (INR (S n)); [assumption|].
      unfold Rdiv. rewrite Rmult_assoc, Rinv_l by lra. lra.
    + apply Rmult_le_reg_r with (INR (S n)); [assumption|].
      unfold Rdiv. rewrite Rmult_assoc, Rinv_l by lra. lra.
Qed.

Lemma tsum_nan_or_ge (n : nat) (f : nat -> num) (lo : R) :
  (forall s, (s < n)%nat -> nan_or (fun r => lo <= r) (f s)) ->
  nan_or (fun r => INR n * lo <= r) (tsum n f).
Proof.
  induction n as [|n IH]; intros Hf.
  - right. exists 0. simpl. split; [reflexivity | lra].
  - simpl tsum.
    destruct IH as [->|(a & -> & Hr)]; [auto | now left |].
    destruct (Hf n) as [->|(b & -> & Hbr)]; [lia | now left |].
    right. exists (a + b). split; [reflexivity|]. rewrite S_INR. lra.
Qed.

Lemma tmean_nan_or_ge (n : nat) (f : nat -> num) (lo : R) :
  (forall s, (s < n)%nat -> nan_or (fun r => lo <= r) (f s)) ->
  nan_or (fun r => lo <= r) (tmean n f).
Proof.
  intros Hf. unfold tmean.
  destruct (tsum_nan_or_ge n f lo Hf) as [->|(a & -> & Hr)]; [now left|].
  destruct n as [|n].
  - left. simpl. destruct (Req_dec_T 0 0); [reflexivity | contradiction].
  - assert (0 < INR (S n)) by (apply lt_0_INR; lia).
    right. exists (a / INR (S n)). rewrite tdiv_Fin by lra.
    split; [reflexivity|].
    apply Rmult_le_reg_r with (INR (S n)); [assumption|].
    unfold Rdiv. rewrite Rmult_assoc, Rinv_l by lra. lra.
Qed.

(** The masked assignment leaves [NaN] in place and raises every other
    value to the floor. *)
Lemma floor_at_nan_or (c : R) (x : num) : nan_or (fun r => c <= r) (floor_at c x).
Proof.
  destruct x as [a|]; [right | now left]. simpl.
  destruct (Rlt_dec a c); eexists; (split; [reflexivity | lra]).
Qed.

Lemma floor_at_nan_or_le (c hi : R) (x : num) :
  c <= hi -> nan_or (fun r => r <= hi) x ->
  nan_or (fun r => c <= r <= hi) (floor_at c x).
Proof.
  intros Hc [->|(a & -> & Ha)]; [now left | right]. simpl.
  destruct (Rlt_dec a c); eexists; (split; [reflexivity | lra]).
Qed.

Lemma ttanh_of_floor (x : num) :
  nan_or (fun r => c_1e5 <= r) x -> nan_or (fun r => 0 < r <= 1) (ttanh x).
Proof.
  intros [->|(a & -> & Ha)]; [now left | right].
  eexists; split; [reflexivity|]. split.
  - apply tanh32_pos. unfold c_1e5 in Ha. lra.
  - apply tanh32_range.
Qed.

(** The running means after a fine step of either policy. *)
Lemma neural_step_smooth_range (m : Model) (nz : Noise) (L : matrix num)
    (t s : nat) (st : neural_state) (i : nat) :
  nan_or (fun r => c_1e5 <= r <= 1) (E_mean (neural_step_smooth m nz L t s st) i) /\
  nan_or (fun r => c_1e5 <= r <= 1) (I_mean (neural_step_smooth m nz L t s st) i).
Proof.
  unfold neural_step_smooth; cbv zeta; cbn [E_mean I_mean].
  split; (apply floor_at_nan_or_le; [unfold c_1e5; lra|]);
    (apply (nan_or_weaken (fun r => 0 <= r <= 1)); [intros r Hr; lra|]);
    apply tmean_nan_or; intros s' _; apply saturation_range.
Qed.

Lemma neural_step_hard_range (m : Model) (nz : Noise) (L : matrix num)
    (t s : nat) (st : neural_state) (i : nat) :
  nan_or (fun r => c_1e5 <= r) (E_mean (neural_step_hard m nz L t s st) i) /\
  nan_or (fun r => c_1e5 <= r) (I_mean (neural_step_hard m nz L t s st) i).
Proof.
  unfold neural_step_hard; cbv zeta; cbn [E_mean I_mean].
  split; apply tmean_nan_or_ge; intros s' _; apply floor_at_nan_or.
Qed.

Lemma run_neural_smooth (m : Model) (nz : Noise) (hx : matrix num) :
  use_dynamic_boundary m = true ->
  ((0 < TRs_per_window m)%nat -> (0 < Z.to_nat (steps_per_TR m))%nat ->
   means_nan_or (node_size m) (fun r => c_1e5 <= r <= 1) (run_neural m nz hx)) /\
  (forall t s, (t < TRs_per_window m)%nat -> (s < Z.to_nat (steps_per_TR m))%nat ->
     hist_entries (node_size m) (nan_or (fun r => c_1e5 <= r <= 1))
       (nan_or (fun r => c_1e5 <= r <= 1)) (run_neural m nz hx) t s).
Proof.
  intros Hs. unfold run_neural. rewrite Hs.
  destruct (neural_loop_inv m (neural_step_smooth m nz (lap_adj m))
              (fun _ => True)
              (means_nan_or (node_size m) (fun r => c_1e5 <= r <= 1))
              (nan_or (fun r => c_1e5 <= r <= 1))
              (nan_or (fun r => c_1e5 <= r <= 1))) with (st0 := init_neural hx)
    as (_ & HG & Hh); auto.
  - intros t s st _ i _. apply neural_step_smooth_range.
  - intros t s st i _ _.
    unfold neural_step_smooth at 1 2; cbv zeta; cbn [E_hist I_hist].
    rewrite !upd_hist_same.
    apply (neural_step_smooth_range m nz (lap_adj m) t s st i).
  - intros t s st i t' s' Hne.
    unfold neural_step_smooth; cbv zeta; cbn [E_hist I_hist].
    now rewrite !upd_hist_other.
Qed.

Lemma run_neural_hard (m : Model) (nz : Noise) (hx : matrix num) :
  use_dynamic_boundary m = false ->
  ((0 < TRs_per_window m)%nat -> (0 < Z.to_nat (steps_per_TR m))%nat ->
   means_nan_or (node_size m) (fun r => c_1e5 <= r) (run_neural m nz hx)) /\
  (forall t s, (t < TRs_per_window m)%nat -> (s < Z.to_nat (steps_per_TR m))%nat ->
     hist_entries (node_size m) (nan_or (fun r => 0 < r <= 1))
       (nan_or (fun r => 0 < r <= 1)) (run_neural m nz hx) t s).
Proof.
  intros Hs. unfold run_neural. rewrite Hs.
  destruct (neural_loop_inv m (neural_step_hard m nz (lap_adj m))
              (fun _ => True)
              (means_nan_or (node_size m) (fun r => c_1e5 <= r))
              (nan_or (fun r => 0 < r <= 1))
              (nan_or (fun r => 0 < r <= 1))) with (st0 := init_neural hx)
    as (_ & HG & Hh); auto.
  - intros t s st _ i _. apply neural_step_hard_range.
  - intros t s st i _ _.
    unfold neural_step_hard at 1 2; cbv zeta; cbn [E_hist I_hist].
    rewrite !upd_hist_same.
    destruct (neural_step_hard_range m nz (lap_adj m) t s st i) as [HE HI].
    unfold neural_step_hard in HE, HI; cbv zeta in HE, HI;
      cbn [E_mean I_mean] in HE, HI.
    split; apply ttanh_of_floor; assumption.
  - intros t s st i t' s' Hne.
    unfold neural_step_hard; cbv zeta; cbn [E_hist I_hist].
    now rewrite !upd_hist_other.
Qed.

Lemma hemo_step_smooth_range (m : Model) (Eh : nat -> nat -> nat -> num)
    (t s : nat) (st : hemo_state) :
  on_state (node_size m) smooth_hemo (hemo_step_smooth m Eh t s st).
Proof.
  intros i _. unfold hemo_step_smooth; cbn [s_x s_f s_v s_q]. repeat split.
  - apply ttanh_range.
  - apply one_plus_tanh_range.
  - apply one_plus_tanh_range.
  - apply one_plus_tanh_range.
Qed.

Lemma hemo_step_hard_range (m : Model) (Eh : nat -> nat -> nat -> num)
    (t s : nat) (st : hemo_state) :
  on_state (node_size m) hard_hemo (hemo_step_hard m Eh t s st).
Proof.
  intros i _. unfold hemo_step_hard; cbn [s_x s_f s_v s_q].
  repeat split; apply floor_at_nan_or.
Qed.

Lemma run_hemo_smooth (m : Model) (nz : Noise) (hx : matrix num) :
  use_dynamic_boundary m = true ->
  (0 < Z.to_nat (steps_per_TR m))%nat ->
  ((0 < TRs_per_window m)%nat ->
   on_state (node_size m) smooth_hemo (run_hemo m nz hx)) /\
  (forall t, (t < TRs_per_window m)%nat ->
     on_windows (node_size m) smooth_hemo (run_hemo m nz hx) t).
Proof.
  intros Hs HK. unfold run_hemo. rewrite Hs.
  destruct (hemo_loop_inv m nz (hemo_step_smooth m (E_hist (run_neural m nz hx)))
              (fun _ _ _ _ => True) smooth_hemo) with (st0 := init_hemo hx)
    as (_ & HG & Hw).
  - auto.
  - intros t s st _ _ _. apply hemo_step_smooth_range.
  - intros; repeat split.
  - intros i _. exact I.
  - split; [exact (fun HT => HG HT HK) | exact (Hw HK)].
Qed.

Lemma run_hemo_hard (m : Model) (nz : Noise) (hx : matrix num) :
  use_dynamic_boundary m = false ->
  (0 < Z.to_nat (steps_per_TR m))%nat ->
  ((0 < TRs_per_window m)%nat ->
   on_state (node_size m) hard_hemo (run_hemo m nz hx)) /\
  (forall t, (t < TRs_per_window m)%nat ->
     on_windows (node_size m) hard_hemo (run_hemo m nz hx) t).
Proof.
  intros Hs HK. unfold run_hemo. rewrite Hs.
  destruct (hemo_loop_inv m nz (hemo_step_hard m (E_hist (run_neural m nz hx)))
              (fun _ _ _ _ => True) hard_hemo) with (st0 := init_hemo hx)
    as (_ & HG & Hw).
  - auto.
  - intros t s st _ _ _. apply hemo_step_hard_range.
  - intros; repeat split.
  - intros i _. exact I.
  - split; [exact (fun HT => HG HT HK) | exact (Hw HK)].
Qed.

(** ** The two passes of a call *)

Lemma forward_returns {X H : Type} (m : Model) (nz : Noise) (ext : X)
    (hx : matrix num) (hE : H) :
  (0 <= steps_per_TR m)%Z -> (1 <= node_size m)%nat ->
  integration_forward m nz ext hx hE
  = Some ((assemble m nz hx, hE), store_coupling m).
Proof.
  intros HK Hn. unfold integration_forward.
  destruct (Z.ltb_spec (steps_per_TR m) 0); [lia|].
  destruct (Nat.eqb_spec (node_size m) 0); [lia | reflexivity].
Qed.

Lemma reshape_hist_entry (m : Model) (h : nat -> nat -> nat -> num) (i k : nat) :
  (i < node_size m)%nat ->
  (k < TRs_per_window m * Z.to_nat (steps_per_TR m))%nat ->
  nget (reshape_hist m h) i k
  = h i (k / Z.to_nat (steps_per_TR m))%nat (k mod Z.to_nat (steps_per_TR m))%nat
  /\ (k / Z.to_nat (steps_per_TR m) < TRs_per_window m)%nat
  /\ (k mod Z.to_nat (steps_per_TR m) < Z.to_nat (steps_per_TR m))%nat.
Proof.
  intros Hi Hk. set (K := Z.to_nat (steps_per_TR m)) in *.
  assert (HK : (K <> 0)%nat) by (intros E; rewrite E in Hk; lia).
  split; [|split].
  - unfold nget, reshape_hist. cbv zeta. fold K. now rewrite mget_tabulate2.
  - apply Nat.Div0.div_lt_upper_bound. lia.
  - now apply Nat.mod_upper_bound.
Qed.

Lemma current_state_row (m : Model) (nz : Noise) (hx : matrix num) (i : nat) :
  (i < node_size m)%nat ->
  nth i (current_state (assemble m nz hx)) []
  = [E_mean (run_neural m nz hx) i; I_mean (run_neural m nz hx) i;
     s_x (run_hemo m nz hx) i; s_f (run_hemo m nz hx) i;
     s_v (run_hemo m nz hx) i; s_q (run_hemo m nz hx) i].
Proof.
  intros Hi. unfold assemble; cbv zeta; cbn [current_state].
  now rewrite nth_tabulate.
Qed.

(** A window of one period of one step, and of one period of two steps. *)
Lemma run_neural_one_step (m : Model) (nz : Noise) (hx : matrix num) :
  TRs_per_window m = 1%nat -> steps_per_TR m = 1%Z ->
  run_neural m nz hx
  = if use_dynamic_boundary m
    then neural_step_smooth m nz (lap_adj m) 0 0 (init_neural hx)
    else neural_step_hard m nz (lap_adj m) 0 0 (init_neural hx).
Proof.
  intros HT HK. unfold run_neural, neural_loop. rewrite HT, HK.
  now destruct (use_dynamic_boundary m).
Qed.

Lemma run_hemo_one_step (m : Model) (nz : Noise) (hx : matrix num) :
  TRs_per_window m = 1%nat -> steps_per_TR m = 1%Z ->
  run_hemo m nz hx
  = record_TR m nz 0
      (if use_dynamic_boundary m
       then hemo_step_smooth m (E_hist (run_neural m nz hx)) 0 0 (init_hemo hx)
       else hemo_step_hard m (E_hist (run_neural m nz hx)) 0 0 (init_hemo hx)).
Proof.
  intros HT HK. unfold run_hemo, hemo_loop. rewrite HT, HK.
  now destruct (use_dynamic_boundary m).
Qed.

Lemma run_hemo_two_steps (m : Model) (nz : Noise) (hx : matrix num) :
  TRs_per_window m = 1%nat -> steps_per_TR m = 2%Z ->
  run_hemo m nz hx
  = record_TR m nz 0
      (if use_dynamic_boundary m
       then hemo_step_smooth m (E_hist (run_neural m nz hx)) 0 1
              (hemo_step_smooth m (E_hist (run_neural m nz hx)) 0 0 (init_hemo hx))
       else hemo_step_hard m (E_hist (run_neural m nz hx)) 0 1
              (hemo_step_hard m (E_hist (run_neural m nz hx)) 0 0 (init_hemo hx))).
Proof.
  intros HT HK. unfold run_hemo, hemo_loop. rewrite HT, HK.
  now destruct (use_dynamic_boundary m).
Qed.

(** ** Smooth-saturation policy *)

(** C1 (amended).  With at least one region, one period and one fine
    step, under the smooth-saturation policy the call returns, and
    [current_state] has one row of six entries per region.  Each entry
    is NaN or lies in a closed range that the saturation reaches: E
    and I in (0, 1], x in [-1, 1], and f, v, q in [0, 2].  Every
    running mean of E and of I recorded after a fine step is NaN or in
    (0, 1]; the histories have one column per fine step. *)
Theorem smooth_saturation_ranges {X H : Type} (m : Model) (nz : Noise)
    (ext : X) (hx : matrix num) (hE : H) :
  (1 <= node_size m)%nat ->
  (1 <= TRs_per_window m)%nat ->
  (1 <= steps_per_TR m)%Z ->
  use_dynamic_boundary m = true ->
  exists ns m',
    integration_forward m nz ext hx hE = Some ((ns, hE), m') /\
    length (current_state ns) = node_size m /\
    (forall i, (i < node_size m)%nat ->
       exists E I x f v q : num,
         nth i (current_state ns) [] = [E; I; x; f; v; q] /\
         nan_or (fun r => 0 < r <= 1) E /\
         nan_or (fun r => 0 < r <= 1) I /\
         nan_or (fun r => -1 <= r <= 1) x /\
         nan_or (fun r => 0 <= r <= 2) f /\
         nan_or (fun r => 0 <= r <= 2) v /\
         nan_or (fun r => 0 <= r <= 2) q) /\
    exists wE wI : nat -> nat -> num,
      E_window ns
      = tabulate2 (node_size m)
          (TRs_per_window m * Z.to_nat (steps_per_TR m)) wE /\
      I_window ns
      = tabulate2 (node_size m)
          (TRs_per_window m * Z.to_nat (steps_per_TR m)) wI /\
      forall i k, (i < node_size m)%nat ->
        (k < TRs_per_window m * Z.to_nat (steps_per_TR m))%nat ->
        nan_or (fun r => 0 < r <= 1) (wE i k) /\
        nan_or (fun r => 0 < r <= 1) (wI i k).
Proof.
  intros Hn HT HK Hs.
  assert (HK' : (0 < Z.to_nat (steps_per_TR m))%nat) by lia.
  exists (assemble m nz hx), (store_coupling m).
  destruct (run_neural_smooth m nz hx Hs) as [Hmeans Hhist].
  destruct (run_hemo_smooth m nz hx Hs HK') as [Hhemo _].
  assert (Hpos : forall r, c_1e5 <= r <= 1 -> 0 < r <= 1)
    by (unfold c_1e5; intros; lra).
  split; [|split; [|split]].
  - apply forward_returns; [lia | exact Hn].
  - unfold assemble; cbv zeta; cbn [current_state]. apply tabulate_length.
  - intros i Hi. rewrite current_state_row by assumption.
    destruct (Hmeans ltac:(lia) HK' i Hi) as [HE HI].
    destruct (Hhemo ltac:(lia) i Hi) as (Hx & Hf & Hv & Hq).
    do 6 eexists. split; [reflexivity|].
    split; [exact (nan_or_weaken _ _ _ Hpos HE)|].
    split; [exact (nan_or_weaken _ _ _ Hpos HI)|].
    repeat split; assumption.
  - exists (fun i k => E_hist (run_neural m nz hx) i
                         (k / Z.to_nat (steps_per_TR m))%nat
                         (k mod Z.to_nat (steps_per_TR m))%nat),
           (fun i k => I_hist (run_neural m nz hx) i
                         (k / Z.to_nat (steps_per_TR m))%nat
                         (k mod Z.to_nat (steps_per_TR m))%nat).
    split; [reflexivity | split; [reflexivity|]].
    intros i k Hi Hk.
    assert (Ht : (k / Z.to_nat (steps_per_TR m) < TRs_per_window m)%nat)
      by (apply Nat.Div0.div_lt_upper_bound; lia).
    assert (Hs' : (k mod Z.to_nat (steps_per_TR m) < Z.to_nat (steps_per_TR m))%nat)
      by (apply Nat.mod_upper_bound; lia).
    destruct (Hhist _ _ Ht Hs' i Hi) as [HE HI].
    split; [exact (nan_or_weaken _ _ _ Hpos HE) | exact (nan_or_weaken _ _ _ Hpos HI)].
Qed.

Lemma smooth_saturation_ranges_witness :
  exists ns m',
    integration_forward (single_region_model true) zero_noise tt rest_state tt
    = Some ((ns, tt), m') /\
    length (current_state ns) = 1%nat.
Proof.
  destruct (smooth_saturation_ranges (single_region_model true) zero_noise tt
              rest_state tt) as (ns & m' & Hret & Hlen & _);
    try reflexivity; try (simpl; lia).
  exists ns, m'. split; assumption.
Defined.

Lemma example_params_valid (m : Model) :
  param m = example_params -> 0 <= step_size m -> valid_params m.
Proof.
  intros Hp Hdt. constructor; rewrite ?Hp; simpl; lra.
Qed.

Lemma single_region_valid (smooth : bool) : valid_config (single_region_model smooth).
Proof.
  constructor; simpl; try lia; try reflexivity.
  apply example_params_valid; simpl; [reflexivity | lra].
Qed.

Lemma tmean_one (f : nat -> num) (r : R) :
  f 0%nat = Fin r -> tmean 1 f = Fin r.
Proof.
  intros E. unfold tmean. simpl. rewrite E. simpl.
  destruct (Req_dec_T 1 0); [lra|]. f_equal. field.
Qed.

(** From a large negative seed of x the blood flow saturates to 0. *)
Lemma seeded_flow :
  s_f (run_hemo (single_region_model true) zero_noise seeded_state) 0%nat = Fin 0.
Proof.
  rewrite run_hemo_one_step by reflexivity.
  cbn [use_dynamic_boundary single_region_model example_model record_TR s_f
       hemo_step_smooth].
  unfold f_euler. cbn [init_hemo s_x s_f].
  unfold column, nget, mget, seeded_state.
  cbn [nth step_size single_region_model example_model tadd tsub tmul lift2
       ttanh lift1].
  rewrite tanh32_low by lra. f_equal. ring.
Qed.

(** From a high activity the inhibitory mean saturates to 1. *)
Lemma excited_inhibition :
  I_mean (run_neural (single_region_model true) zero_noise excited_state) 0%nat
  = Fin 1.
Proof.
  rewrite run_neural_one_step by reflexivity.
  cbn [use_dynamic_boundary single_region_model example_model].
  unfold neural_step_smooth; cbv zeta; cbn [I_mean].
  change (sampling_size (single_region_model true)) with 1%nat.
  match goal with |- floor_at _ (tmean _ ?f) = _ =>
    assert (Hf : f 0%nat = Fin 1) end.
  { cbv beta.
    cbn [init_neural E_mean I_mean xi_E0 xi_I0 xi_I zero_noise].
    unfold column, nget, mget, excited_state, input_I, I_euler.
    cbn [nth param single_region_model example_model example_params W_I I_0 g_EI
         aI bI dI tau_I gamma_I std_in step_size
         relu lift1 tadd tsub tmul lift2 ttanh tneg].
    match goal with |- context [h_tf _ _ _ (Fin ?z)] =>
      destruct (h_tf_pos 615 177 (87 / 1000) z) as (r & Hr & Hpos); [lra|];
      rewrite Hr end.
    rewrite reciprocal_Fin by lra. unfold tsqrt.
    destruct (Rlt_dec (5 / 100) 0) as [Hn|_]; [lra|].
    cbn [tadd tsub tmul lift2 ttanh lift1 relu].
    rewrite tanh32_high; [reflexivity|].
    rewrite !Rmult_0_r, Rmult_0_l, !Rplus_0_r.
    unfold c_1e3.
    match goal with |- _ <= 0 + Rmax 0 ?e =>
      pose proof (Rmax_r 0 e); assert (19 <= e); [nra | lra] end. }
  rewrite (tmean_one _ 1 Hf). simpl.
  destruct (Rlt_dec 1 c_1e5) as [Hn|_]; [unfold c_1e5 in Hn; lra | reflexivity].
Qed.

Lemma Rpower_10_alpha : 1000 <= Rpower 10 (1 / (32 / 100)).
Proof.
  apply Rle_trans with (Rpower 10 (INR 3)).
  - rewrite Rpower_pow by lra. simpl. lra.
  - apply Rle_Rpower; [lra | simpl; lra].
Qed.

(** From a blood volume of 10 the volume saturates to 0 in the first
    step, and in the second step the division by it leaves q NaN. *)
Lemma swollen_volume :
  s_v (hemo_step_smooth two_step_model
         (E_hist (run_neural two_step_model zero_noise swollen_state)) 0 0
         (init_hemo swollen_state)) 0%nat = Fin (1 + -1).
Proof.
  cbn [hemo_step_smooth s_v]. unfold v_euler. cbn [init_hemo s_f s_v].
  unfold column, nget, mget, swollen_state.
  cbn [nth param two_step_model example_model example_params alpha tau_0 step_size].
  rewrite !reciprocal_Fin by lra.
  cbn [tpow]. unfold rpow.
  destruct (Req_dec_T (1 / (32 / 100)) 0) as [E|_]; [lra|].
  destruct (Rlt_dec 0 10) as [_|Hn]; [|lra].
  cbn [tadd tsub tmul lift2 ttanh lift1].
  pose proof Rpower_10_alpha.
  rewrite tanh32_low; [reflexivity | nra].
Qed.

Lemma q_euler_no_volume (m : Model) (f q : num) :
  q_euler m f (Fin (1 + -1)) q = NaN.
Proof.
  unfold q_euler.
  assert (E : reciprocal (Fin (1 + -1)) = NaN).
  { unfold reciprocal. simpl. destruct (Req_dec_T (1 + -1) 0); [reflexivity | lra]. }
  rewrite E, tmul_NaN_r, tsub_NaN_r, tmul_NaN_r, tmul_NaN_l. apply tadd_NaN_r.
Qed.

Lemma swollen_extraction :
  s_q (run_hemo two_step_model zero_noise swollen_state) 0%nat = NaN.
Proof.
  rewrite run_hemo_two_steps by reflexivity.
  cbn [use_dynamic_boundary two_step_model example_model record_TR s_q].
  unfold hemo_step_smooth at 1. cbn [s_q].
  change (example_model 1 1 2 1 [[0]] [[0]] true true) with two_step_model.
  rewrite swollen_volume, q_euler_no_volume. reflexivity.
Qed.

(** C1 as stated fails.  The configurations are valid and the three
    states are valid states; the call returns f = 0 from the first
    (not f > 0), I = 1 from the second (not I < 1), and after two steps
    q = NaN from the third (not q in [0, 2)). *)
Lemma smooth_saturation_counterexample :
  valid_config (single_region_model true) /\
  valid_config two_step_model /\
  valid_state 1 seeded_state /\ valid_state 1 excited_state /\
  valid_state 1 swollen_state /\
  (exists ns m' E I x v q,
     integration_forward (single_region_model true) zero_noise tt seeded_state tt
     = Some ((ns, tt), m') /\
     nth 0 (current_state ns) [] = [E; I; x; Fin 0; v; q]) /\
  (exists ns m' E x f v q,
     integration_forward (single_region_model true) zero_noise tt excited_state tt
     = Some ((ns, tt), m') /\
     nth 0 (current_state ns) [] = [E; Fin 1; x; f; v; q]) /\
  (exists ns m' E I x f v,
     integration_forward two_step_model zero_noise tt swollen_state tt
     = Some ((ns, tt), m') /\
     nth 0 (current_state ns) [] = [E; I; x; f; v; NaN]).
Proof.
  assert (Hst : forall a b c d, 0 < d ->
            valid_state 1 [[Fin a; Fin b; Fin c; Fin 1; Fin d; Fin 1]]).
  { intros a b c d Hd i Hi. assert (i = 0%nat) by lia. subst.
    unfold nget, mget; simpl.
    repeat split; try (now eexists); (eexists; split; [reflexivity | lra]). }
  split; [apply single_region_valid|].
  split.
  { constructor; simpl; try lia; try reflexivity.
    apply example_params_valid; simpl; [reflexivity | lra]. }
  split; [apply Hst; lra|]. split; [apply Hst; lra|]. split; [apply Hst; lra|].
  split; [|split].
  - do 7 eexists. split; [apply forward_returns; simpl; lia|].
    rewrite current_state_row by (simpl; lia). now rewrite seeded_flow.
  - do 7 eexists. split; [apply forward_returns; simpl; lia|].
    rewrite current_state_row by (simpl; lia). now rewrite excited_inhibition.
  - do 7 eexists. split; [apply forward_returns; simpl; lia|].
    rewrite current_state_row by (simpl; lia). now rewrite swollen_extraction.
Qed.

(** ** Hard-clamp policy *)

Lemma rpow_negative_base (x y : R) :
  x < 0 -> y <> 0 -> is_int y = false -> rpow x y = NaN.
Proof.
  intros Hx Hy Hi. unfold rpow.
  destruct (Req_dec_T y 0); [contradiction|].
  destruct (Rlt_dec 0 x); [lra|].
  destruct (Req_dec_T x 0); [lra|]. now rewrite Hi.
Qed.

Lemma example_alpha_not_int : is_int (1 / alpha example_params) = false.
Proof.
  unfold is_int. simpl alpha.
  assert (E : Int_part (1 / (32 / 100)) = 3%Z).
  { symmetry. apply Int_part_spec. simpl. lra. }
  rewrite E. destruct (Req_dec_T _ _) as [H|_]; [exfalso; lra | reflexivity].
Qed.

(** C6 (amended).  Under the hard-clamp policy every hemodynamic Euler
    step sets f, v and q to the Euler value with the masked floor
    applied, and x to the Euler value itself: a value below 1e-3 is
    raised to 1e-3, a NaN stays.  So after every step each of f, v, q
    is NaN or at least 1e-3, and with at least one fine step per period
    the same holds of every f, v, q entry of the windows and of
    [current_state]. *)
Theorem hard_clamp_floor {X H : Type} (m : Model) (nz : Noise)
    (ext : X) (hx : matrix num) (hE : H) :
  (1 <= node_size m)%nat ->
  (1 <= TRs_per_window m)%nat ->
  (1 <= steps_per_TR m)%Z ->
  use_dynamic_boundary m = false ->
  (forall Eh t s st i,
     let st' := hemo_step_hard m Eh t s st in
     s_x st' i = x_euler m (Eh i t s) (s_x st i) (s_f st i) /\
     s_f st' i = floor_at c_1e3 (f_euler m (s_x st i) (s_f st i)) /\
     s_v st' i = floor_at c_1e3 (v_euler m (s_f st i) (s_v st i)) /\
     s_q st' i = floor_at c_1e3 (q_euler m (s_f st i) (s_v st i) (s_q st i)) /\
     nan_or (fun r => c_1e3 <= r) (s_f st' i) /\
     nan_or (fun r => c_1e3 <= r) (s_v st' i) /\
     nan_or (fun r => c_1e3 <= r) (s_q st' i)) /\
  (forall a, floor_at c_1e3 (Fin a) = Fin (Rmax a c_1e3)) /\
  floor_at c_1e3 NaN = NaN /\
  exists ns m',
    integration_forward m nz ext hx hE = Some ((ns, hE), m') /\
    (exists wf wv wq : nat -> nat -> num,
       f_window ns = tabulate2 (node_size m) (TRs_per_window m) wf /\
       v_window ns = tabulate2 (node_size m) (TRs_per_window m) wv /\
       q_window ns = tabulate2 (node_size m) (TRs_per_window m) wq /\
       forall i t, (i < node_size m)%nat -> (t < TRs_per_window m)%nat ->
         nan_or (fun r => c_1e3 <= r) (wf i t) /\
         nan_or (fun r => c_1e3 <= r) (wv i t) /\
         nan_or (fun r => c_1e3 <= r) (wq i t)) /\
    (forall i, (i < node_size m)%nat ->
       exists E I x f v q : num,
         nth i (current_state ns) [] = [E; I; x; f; v; q] /\
         nan_or (fun r => c_1e3 <= r) f /\
         nan_or (fun r => c_1e3 <= r) v /\
         nan_or (fun r => c_1e3 <= r) q).
Proof.
  intros Hn HT HK Hs.
  assert (HK' : (0 < Z.to_nat (steps_per_TR m))%nat) by lia.
  split; [|split; [|split]].
  - intros Eh t s st i. cbv zeta. unfold hemo_step_hard. cbn [s_x s_f s_v s_q].
    repeat split; apply floor_at_nan_or.
  - intros a. simpl. unfold Rmax.
    destruct (Rlt_dec a c_1e3), (Rle_dec a c_1e3); try reflexivity; try lra.
    f_equal. lra.
  - reflexivity.
  - exists (assemble m nz hx), (store_coupling m).
    destruct (run_hemo_hard m nz hx Hs HK') as [Hst Hw].
    split; [|split].
    + apply forward_returns; [lia | exact Hn].
    + exists (f_win (run_hemo m nz hx)), (v_win (run_hemo m nz hx)),
             (q_win (run_hemo m nz hx)).
      split; [reflexivity|]. split; [reflexivity|]. split; [reflexivity|].
      intros i t Hi Ht. exact (Hw t Ht i Hi).
    + intros i Hi. rewrite current_state_row by assumption.
      do 6 eexists. split; [reflexivity|]. exact (Hst ltac:(lia) i Hi).
Qed.

Lemma hard_clamp_floor_witness :
  exists ns m' wf,
    integration_forward (single_region_model false) zero_noise tt rest_state tt
    = Some ((ns, tt), m') /\
    f_window ns = tabulate2 1 1 wf /\
    nan_or (fun r => c_1e3 <= r) (wf 0%nat 0%nat).
Proof.
  destruct (hard_clamp_floor (single_region_model false) zero_noise tt
              rest_state tt) as (_ & _ & _ & ns & m' & Hret & Hwin & _);
    try reflexivity; try (simpl; lia).
  destruct Hwin as (wf & wv & wq & Ef & _ & _ & Hw).
  exists ns, m', wf. split; [assumption|]. split; [exact Ef|].
  apply (Hw 0%nat 0%nat); simpl; lia.
Defined.

Lemma negative_volume_step :
  s_v (hemo_step_hard (single_region_model false)
         (E_hist (run_neural (single_region_model false) zero_noise
                    negative_volume_state)) 0 0
         (init_hemo negative_volume_state)) 0%nat = NaN /\
  s_q (hemo_step_hard (single_region_model false)
         (E_hist (run_neural (single_region_model false) zero_noise
                    negative_volume_state)) 0 0
         (init_hemo negative_volume_state)) 0%nat = NaN.
Proof.
  assert (Hp : tpow (Fin (-1)) (reciprocal (Fin (alpha example_params))) = NaN).
  { rewrite reciprocal_Fin by (simpl; lra). simpl tpow.
    apply rpow_negative_base; [lra | simpl; lra | exact example_alpha_not_int]. }
  unfold hemo_step_hard; cbn [s_v s_q]. unfold v_euler, q_euler.
  cbn [init_hemo s_f s_v s_q]. unfold column, nget, mget, negative_volume_state.
  cbn [nth param single_region_model example_model].
  rewrite Hp. rewrite !tmul_NaN_r, !tsub_NaN_r, !tmul_NaN_r.
  cbn [tmul lift2]. rewrite !tadd_NaN_r. now split.
Qed.

(** C6 as stated fails: from a state with a negative blood volume the
    power [v ^ (1 / alpha)] has no value, the floor leaves the NaN in
    place, and the v and q that the call returns in the windows and in
    [current_state] are NaN, not values of at least 1e-3. *)
Lemma hard_clamp_floor_counterexample :
  exists ns m' E I x f,
    integration_forward (single_region_model false) zero_noise tt
      negative_volume_state tt = Some ((ns, tt), m') /\
    nth 0 (current_state ns) [] = [E; I; x; f; NaN; NaN] /\
    v_window ns = [[NaN]] /\ q_window ns = [[NaN]].
Proof.
  destruct negative_volume_step as [Hv Hq].
  do 6 eexists. split; [apply forward_returns; simpl; lia|].
  split; [|split].
  - rewrite current_state_row by (simpl; lia).
    rewrite run_hemo_one_step by reflexivity.
    cbn [use_dynamic_boundary single_region_model example_model record_TR s_v s_q].
    change (example_model 1 1 1 1 [[0]] [[0]] true false)
      with (single_region_model false).
    rewrite Hv, Hq. reflexivity.
  - unfold assemble; cbv zeta; cbn [v_window].
    rewrite run_hemo_one_step by reflexivity.
    cbn [use_dynamic_boundary single_region_model example_model record_TR v_win
         node_size TRs_per_window].
    unfold tabulate2, tabulate. cbn [seq map]. unfold upd_win. cbn [Nat.eqb].
    change (example_model 1 1 1 1 [[0]] [[0]] true false)
      with (single_region_model false).
    now rewrite Hv.
  - unfold assemble; cbv zeta; cbn [q_window].
    rewrite run_hemo_one_step by reflexivity.
    cbn [use_dynamic_boundary single_region_model example_model record_TR q_win
         node_size TRs_per_window].
    unfold tabulate2, tabulate. cbn [seq map]. unfold upd_win. cbn [Nat.eqb].
    change (example_model 1 1 1 1 [[0]] [[0]] true false)
      with (single_region_model false).
    now rewrite Hq.
Qed.

(** The scenario of the specification: one hard-clamp step from a
    large negative [x] seed drives the Euler value of [f] to -49, and
    the window holds the floor. *)
Example hard_clamp_seeded :
  nget (f_window (assemble (single_region_model false) zero_noise seeded_state)) 0 0
  = Fin c_1e3.
Proof.
  unfold assemble, run_hemo, hemo_loop, for_range; cbv zeta.
  cbn [f_window single_region_model example_model use_dynamic_boundary
       node_size TRs_per_window steps_per_TR Z.to_nat Pos.to_nat
       Pos.iter_op Nat.add seq fold_left].
  unfold nget. rewrite mget_tabulate2 by lia.
  change (seq 0 (Pos.to_nat 1)) with [0%nat]. cbn [fold_left].
  cbn [record_TR f_win hemo_step_hard s_f s_x init_hemo]. unfold upd_win.
  cbn [Nat.eqb]. unfold f_euler, column, nget, mget, seeded_state.
  cbn [nth step_size single_region_model example_model tadd tmul lift2].
  unfold floor_at. destruct (Rlt_dec _ _) as [_|Hn]; [reflexivity|].
  exfalso. apply Hn. unfold c_1e3. lra.
Qed.

(** ** What a call leaves on the model object *)

Lemma coupling_depends_on (m m2 : Model) :
  gains_con m2 = gains_con m -> sc m2 = sc m ->
  use_Laplacian m2 = use_Laplacian m ->
  sc_mod_normalized m2 = sc_mod_normalized m /\ lap_adj m2 = lap_adj m.
Proof.
  intros Hg Hsc Hl.
  assert (Hn : sc_mod_normalized m2 = sc_mod_normalized m).
  { unfold sc_mod_normalized, sc_sym, sc_mod. now rewrite Hg, Hsc. }
  split; [exact Hn|]. unfold lap_adj. now rewrite Hn, Hsc, Hl.
Qed.

Lemma assemble_ignores_sc_fitted (m : Model) (A : matrix num) (nz : Noise)
    (hx : matrix num) :
  assemble (set_sc_fitted m A) nz hx = assemble m nz hx.
Proof. reflexivity. Qed.

Lemma store_coupling_overwrites (m : Model) (A : matrix num) :
  (2 <= length (sc m))%nat ->
  store_coupling (set_sc_fitted m A) = store_coupling m.
Proof.
  intros Hn. unfold store_coupling. cbn [sc set_sc_fitted].
  destruct (Nat.ltb_spec 1 (length (sc m))); [reflexivity | lia].
Qed.

(** C8 (amended).  A call recomputes the coupling matrix from the gain
    parameters and the raw structural matrix.  With 2 regions or more it
    writes the normalised matrix to [model.sc_fitted] and changes no
    other attribute; with fewer it changes nothing.  What the call
    returns does not depend on the value stored in [model.sc_fitted]. *)
Theorem coupling_recomputed {X H : Type} (m : Model) (nz : Noise)
    (ext : X) (hx : matrix num) (hE : H) :
  (0 <= steps_per_TR m)%Z ->
  (1 <= node_size m)%nat ->
  exists ns,
    integration_forward m nz ext hx hE
    = Some ((ns, hE),
            if (1 <? length (sc m))%nat
            then set_sc_fitted m (sc_mod_normalized m) else m) /\
    (forall A, exists m'',
       integration_forward (set_sc_fitted m A) nz ext hx hE
       = Some ((ns, hE), m'') /\
       ((2 <= length (sc m))%nat -> m'' = set_sc_fitted m (sc_mod_normalized m))) /\
    (forall m2, gains_con m2 = gains_con m -> sc m2 = sc m ->
       use_Laplacian m2 = use_Laplacian m ->
       sc_mod_normalized m2 = sc_mod_normalized m /\ lap_adj m2 = lap_adj m).
Proof.
  intros HK Hn. exists (assemble m nz hx). split; [|split].
  - now rewrite forward_returns.
  - intros A. exists (store_coupling (set_sc_fitted m A)). split.
    + rewrite forward_returns by assumption.
      now rewrite assemble_ignores_sc_fitted.
    + intros H2. rewrite store_coupling_overwrites by assumption.
      unfold store_coupling.
      destruct (Nat.ltb_spec 1 (length (sc m))); [reflexivity | lia].
  - intros m2. apply coupling_depends_on.
Qed.

Lemma coupling_recomputed_witness :
  exists ns,
    integration_forward pair_model zero_noise tt rest_state_2 tt
    = Some ((ns, tt), set_sc_fitted pair_model (sc_mod_normalized pair_model)).
Proof.
  destruct (coupling_recomputed pair_model zero_noise tt rest_state_2 tt)
    as (ns & Hret & _); [simpl; lia | simpl; lia |].
  exists ns. exact Hret.
Defined.

Lemma pair_model_norm :
  fro_norm 2 (sc_sym pair_model) * fro_norm 2 (sc_sym pair_model) = 2.
Proof.
  unfold fro_norm. rewrite sqrt_sqrt by apply sum_squares_nonneg.
  unfold sum_squares, sc_sym, sc_mod, rget, mget; simpl.
  rewrite exp_0. lra.
Qed.

(** C8 as stated fails: after a call on two connected regions the model
    object holds the normalised coupling matrix in [sc_fitted], which
    differs from the value before the call. *)
Lemma coupling_persisted_counterexample :
  exists ns m',
    integration_forward pair_model zero_noise tt rest_state_2 tt
    = Some ((ns, tt), m') /\
    sc_fitted m' = sc_mod_normalized pair_model /\
    nget (sc_fitted pair_model) 0 1 = Fin 1 /\
    nget (sc_fitted m') 0 1 <> Fin 1 /\
    m' <> pair_model.
Proof.
  exists (assemble pair_model zero_noise rest_state_2), (store_coupling pair_model).
  assert (Hne : nget (sc_fitted (store_coupling pair_model)) 0 1 <> Fin 1).
  { change (sc_fitted (store_coupling pair_model))
      with (sc_mod_normalized pair_model).
    pose proof pair_model_norm as HN.
    assert (Hpos : 0 < fro_norm (length (sc pair_model)) (sc_sym pair_model)).
    { apply fro_norm_pos_of_nonzero;
        [exact ring_2x2_symmetric_nonneg | exact ring_2x2_nonzero]. }
    rewrite normalized_finite by (simpl; lia || exact Hpos).
    change (length (sc pair_model)) with 2%nat in *.
    intros E. injection E as E.
    assert (Hs : sc_sym pair_model 0 1 = 1).
    { unfold sc_sym, sc_mod, rget, mget; simpl. rewrite exp_0. lra. }
    rewrite Hs in E.
    assert (fro_norm 2 (sc_sym pair_model) = 1).
    { apply (Rmult_eq_reg_l (/ fro_norm 2 (sc_sym pair_model)));
        [|apply Rinv_neq_0_compat; lra].
      rewrite Rinv_l by lra. unfold Rdiv in E. lra. }
    nra. }
  split; [now rewrite forward_returns by (simpl; lia)|].
  split; [reflexivity|]. split; [reflexivity|]. split; [exact Hne|].
  intros E. apply Hne. now rewrite E.
Qed.

(** ** Steps per imaging period *)

Lemma py_int_floor (r : R) : 0 <= r -> py_int r = Int_part r.
Proof. intros Hr. unfold py_int. destruct (Rle_dec 0 r); [reflexivity | contradiction]. Qed.







(** ** A coupling matrix of norm zero *)

Lemma tmean_NaN (n : nat) (f : nat -> num) :
  (forall s, (s < n)%nat -> f s = NaN) -> tmean n f = NaN.
Proof.
  intros Hf. unfold tmean. destruct n as [|n].
  - simpl. destruct (Req_dec_T 0 0); [reflexivity | contradiction].
  - rewrite tsum_NaN; [reflexivity | lia | assumption].
Qed.

Lemma input_E_NaN (m : Model) (L : matrix num) (E I : nat -> nat -> num)
    (i s : nat) :
  (0 < node_size m)%nat ->
  (forall k, (k < node_size m)%nat -> nget L i k = NaN) ->
  input_E m L E I i s = NaN.
Proof.
  intros Hn HL. unfold input_E, matmul. cbv zeta.
  rewrite (tsum_NaN (node_size m)); [|assumption|].
  - now rewrite tmul_NaN_r, tadd_NaN_r.
  - intros k Hk. now rewrite HL.
Qed.

Lemma E_euler_NaN (m : Model) (e : num) (xi : R) : E_euler m e NaN xi = NaN.
Proof.
  unfold E_euler. cbv zeta. now rewrite !tmul_NaN_r, !tadd_NaN_r.
Qed.

Lemma neural_step_smooth_NaN (m : Model) (nz : Noise) (L : matrix num)
    (t s : nat) (st : neural_state) (i : nat) :
  (0 < node_size m)%nat ->
  (forall k, (k < node_size m)%nat -> nget L i k = NaN) ->
  E_mean (neural_step_smooth m nz L t s st) i = NaN.
Proof.
  intros Hn HL. unfold neural_step_smooth. cbv zeta. cbn [E_mean].
  rewrite tmean_NaN; [reflexivity|].
  intros s' _. rewrite input_E_NaN by assumption.
  change (h_tf _ _ _ (ttanh (relu NaN))) with NaN. now rewrite E_euler_NaN.
Qed.

Lemma neural_step_hard_NaN (m : Model) (nz : Noise) (L : matrix num)
    (t s : nat) (st : neural_state) (i : nat) :
  (0 < node_size m)%nat ->
  (forall k, (k < node_size m)%nat -> nget L i k = NaN) ->
  E_mean (neural_step_hard m nz L t s st) i = NaN.
Proof.
  intros Hn HL. unfold neural_step_hard. cbv zeta. cbn [E_mean].
  rewrite tmean_NaN; [reflexivity|].
  intros s' _. rewrite input_E_NaN by assumption.
  change (h_tf _ _ _ (Fin 1 * ttanh (relu NaN))%num) with NaN.
  now rewrite E_euler_NaN.
Qed.

Lemma run_neural_NaN (m : Model) (nz : Noise) (hx : matrix num) :
  (0 < node_size m)%nat ->
  (forall i k, (i < node_size m)%nat -> (k < node_size m)%nat ->
     nget (lap_adj m) i k = NaN) ->
  forall t s i, (t < TRs_per_window m)%nat ->
    (s < Z.to_nat (steps_per_TR m))%nat -> (i < node_size m)%nat ->
    E_hist (run_neural m nz hx) i t s = NaN.
Proof.
  intros Hn HL t s i Ht Hs Hi. unfold run_neural.
  destruct (use_dynamic_boundary m).
  - destruct (neural_loop_inv m (neural_step_smooth m nz (lap_adj m))
                (fun _ => True) (fun _ => True) (fun x => x = NaN) (fun _ => True))
      with (st0 := init_neural hx) as (_ & _ & Hh); auto.
    + intros t' s' st i' _ Hi'. split; [|exact I].
      unfold neural_step_smooth at 1; cbv zeta; cbn [E_hist].
      rewrite upd_hist_same.
      apply (neural_step_smooth_NaN m nz (lap_adj m) t' s' st i' Hn).
      intros k Hk. now apply HL.
    + intros t' s' st i' t'' s'' Hne.
      unfold neural_step_smooth; cbv zeta; cbn [E_hist I_hist].
      now rewrite !upd_hist_other.
    + now destruct (Hh t s Ht Hs i Hi).
  - destruct (neural_loop_inv m (neural_step_hard m nz (lap_adj m))
                (fun _ => True) (fun _ => True) (fun x => x = NaN) (fun _ => True))
      with (st0 := init_neural hx) as (_ & _ & Hh); auto.
    + intros t' s' st i' _ Hi'. split; [|exact I].
      unfold neural_step_hard at 1; cbv zeta; cbn [E_hist].
      rewrite upd_hist_same.
      change (ttanh ?x = NaN) with (ttanh x = ttanh NaN). f_equal.
      apply (neural_step_hard_NaN m nz (lap_adj m) t' s' st i' Hn).
      intros k Hk. now apply HL.
    + intros t' s' st i' t'' s'' Hne.
      unfold neural_step_hard; cbv zeta; cbn [E_hist I_hist].
      now rewrite !upd_hist_other.
    + now destruct (Hh t s Ht Hs i Hi).
Qed.

Lemma lap_adj_NaN (m : Model) (i j : nat) :
  (2 <= length (sc m))%nat ->
  fro_norm (length (sc m)) (sc_sym m) = 0 ->
  (i < length (sc m))%nat -> (j < length (sc m))%nat ->
  nget (lap_adj m) i j = NaN.
Proof.
  intros Hn Hz Hi Hj. rewrite lap_adj_coupled by assumption.
  destruct (use_Laplacian m).
  - apply laplacian_NaN; try assumption. now apply normalized_NaN.
  - now apply normalized_NaN.
Qed.

Lemma normalized_all_NaN (m : Model) :
  fro_norm (length (sc m)) (sc_sym m) = 0 ->
  sc_mod_normalized m
  = tabulate2 (length (sc m)) (length (sc m)) (fun _ _ => NaN).
Proof.
  intros Hz. unfold sc_mod_normalized. cbv zeta.
  apply tabulate2_ext. intros i j _ _. rewrite Hz. simpl.
  destruct (Req_dec_T 0 0); [reflexivity | contradiction].
Qed.

Lemma lap_adj_all_NaN (m : Model) :
  (2 <= length (sc m))%nat ->
  fro_norm (length (sc m)) (sc_sym m) = 0 ->
  lap_adj m = tabulate2 (length (sc m)) (length (sc m)) (fun _ _ => NaN).
Proof.
  intros Hn Hz. rewrite lap_adj_coupled by assumption.
  destruct (use_Laplacian m); [|now apply normalized_all_NaN].
  unfold laplacian. apply tabulate2_ext. intros i j Hi Hj.
  rewrite normalized_NaN by assumption. apply tadd_NaN_r.
Qed.

(** NaN in the Euler updates. *)
Ltac nan_tac :=
  repeat (progress (rewrite ?tmul_NaN_r, ?tadd_NaN_r, ?tsub_NaN_r));
  try reflexivity.

Lemma input_I_NaN (m : Model) (E I : nat -> nat -> num) (i s : nat) :
  E i s = NaN -> input_I m E I i s = NaN.
Proof. intros HE. unfold input_I. rewrite HE. nan_tac. Qed.

Lemma I_euler_NaN (m : Model) (e : num) (xi : R) : I_euler m e NaN xi = NaN.
Proof. unfold I_euler. nan_tac. Qed.

Lemma x_euler_NaN (m : Model) (x f : num) : x_euler m NaN x f = NaN.
Proof. unfold x_euler. nan_tac. Qed.

Lemma f_euler_NaN (m : Model) (f : num) : f_euler m NaN f = NaN.
Proof. unfold f_euler. nan_tac. Qed.

Lemma v_euler_NaN (m : Model) (v : num) : v_euler m NaN v = NaN.
Proof. unfold v_euler. nan_tac. Qed.

Lemma q_euler_NaN (m : Model) (v q : num) : q_euler m NaN v q = NaN.
Proof. unfold q_euler. nan_tac. Qed.

Lemma bold_signal_NaN (m : Model) (xi : R) (v : num) : bold_signal m xi v NaN = NaN.
Proof. unfold bold_signal. nan_tac. Qed.

(** The inhibitory means once the excitatory mean is NaN.  [G] holds
    after every step, and a step from a state with [G] records an
    entry with [P] and gives a state with [Hm]. *)
Section NeuralLoopFrom.

Variable m : Model.
Variable step : nat -> nat -> neural_state -> neural_state.
Variables G Hm : neural_state -> Prop.
Variable P : num -> Prop.

Hypothesis step_G : forall t s st, G (step t s st).
Hypothesis step_Hm : forall t s st, G st -> Hm (step t s st).
Hypothesis step_hist : forall t s st i,
  G st -> (i < node_size m)%nat -> P (I_hist (step t s st) i t s).
Hypothesis step_frame : forall t s st i t' s',
  (t' <> t \/ s' <> s) -> I_hist (step t s st) i t' s' = I_hist st i t' s'.

Let T := TRs_per_window m.
Let K := Z.to_nat (steps_per_TR m).

Lemma neural_loop_from (st0 : neural_state) :
  ((2 <= T * K)%nat -> Hm (neural_loop m step st0)) /\
  (forall t s i, (t < T)%nat -> (s < K)%nat -> (0 < t + s)%nat ->
     (i < node_size m)%nat -> P (I_hist (neural_loop m step st0) i t s)).
Proof.
  unfold neural_loop. fold T K.
  assert (Hout : (fun t st =>
    ((0 < t * K)%nat -> G st) /\ ((2 <= t * K)%nat -> Hm st) /\
    (forall t' s i, (t' < t)%nat -> (s < K)%nat -> (0 < t' + s)%nat ->
       (i < node_size m)%nat -> P (I_hist st i t' s))) T
    (for_range T (fun TR_i st =>
       for_range K (fun step_i st' => step TR_i step_i st') st) st0)).
  { apply for_range_ind.
    - split; [lia | split; [lia | intros; lia]].
    - intros t st Ht (HGt & HHt & Hh).
      pose proof (for_range_ind (fun s st' =>
        ((0 < t * K + s)%nat -> G st') /\ ((2 <= t * K + s)%nat -> Hm st') /\
        (forall t' s' i, (t' < t)%nat -> (s' < K)%nat -> (0 < t' + s')%nat ->
           (i < node_size m)%nat -> P (I_hist st' i t' s')) /\
        (forall s' i, (s' < s)%nat -> (0 < t + s')%nat ->
           (i < node_size m)%nat -> P (I_hist st' i t s'))) K
        (fun step_i st' => step t step_i st') st) as Hin.
      cbv beta in Hin. destruct Hin as (H1 & H2 & H3 & H4).
      { split; [intros; apply HGt; lia|]. split; [intros; apply HHt; lia|].
        split; [exact Hh | intros; lia]. }
      { intros s st' Hs (HG' & HH' & Hold & Hcur).
        split; [intros; apply step_G|]. split.
        - intros H2. apply step_Hm, HG'. lia.
        - split.
          + intros t' s' i Ht' Hs' Hpos Hi.
            rewrite step_frame by (left; lia). now apply Hold.
          + intros s' i Hs' Hpos Hi.
            destruct (Nat.eq_dec s' s) as [->|Hne].
            * apply step_hist; [|assumption]. apply HG'.
              destruct t; [lia|]. simpl. lia.
            * rewrite step_frame by (right; lia). apply Hcur; [lia | assumption..]. }
      split; [intros; apply H1; lia|].
      split; [intros; apply H2; lia|].
      intros t' s i Ht' Hs Hpos Hi.
      destruct (Nat.eq_dec t' t) as [->|Hne]; [now apply H4|].
      apply H3; [lia | assumption..]. }
  cbv beta in Hout. destruct Hout as (_ & H2 & H3). split; assumption.
Qed.

End NeuralLoopFrom.

Lemma neural_step_smooth_I_NaN (m : Model) (nz : Noise) (L : matrix num)
    (t s : nat) (st : neural_state) (i : nat) :
  E_mean st i = NaN -> I_mean (neural_step_smooth m nz L t s st) i = NaN.
Proof.
  intros HE. unfold neural_step_smooth. cbv zeta. cbn [I_mean].
  rewrite tmean_NaN; [reflexivity|].
  intros s' _. rewrite input_I_NaN by (now rewrite HE).
  change (h_tf _ _ _ (ttanh (relu NaN))) with NaN. now rewrite I_euler_NaN.
Qed.

Lemma neural_step_hard_I_NaN (m : Model) (nz : Noise) (L : matrix num)
    (t s : nat) (st : neural_state) (i : nat) :
  E_mean st i = NaN -> I_mean (neural_step_hard m nz L t s st) i = NaN.
Proof.
  intros HE. unfold neural_step_hard. cbv zeta. cbn [I_mean].
  rewrite tmean_NaN; [reflexivity|].
  intros s' _. rewrite input_I_NaN by (now rewrite HE).
  change (h_tf _ _ _ (Fin 1 * ttanh (relu NaN))%num) with NaN.
  now rewrite I_euler_NaN.
Qed.

Lemma run_neural_I_NaN (m : Model) (nz : Noise) (hx : matrix num) :
  (0 < node_size m)%nat ->
  (forall i k, (i < node_size m)%nat -> (k < node_size m)%nat ->
     nget (lap_adj m) i k = NaN) ->
  ((2 <= TRs_per_window m * Z.to_nat (steps_per_TR m))%nat ->
   forall i, (i < node_size m)%nat ->
     E_mean (run_neural m nz hx) i = NaN /\ I_mean (run_neural m nz hx) i = NaN) /\
  (forall t s i, (t < TRs_per_window m)%nat ->
     (s < Z.to_nat (steps_per_TR m))%nat -> (0 < t + s)%nat ->
     (i < node_size m)%nat -> I_hist (run_neural m nz hx) i t s = NaN).
Proof.
  intros Hn HL. unfold run_neural.
  set (G := fun st : neural_state =>
              forall i, (i < node_size m)%nat -> E_mean st i = NaN).
  set (Hm := fun st : neural_state =>
              forall i, (i < node_size m)%nat ->
                E_mean st i = NaN /\ I_mean st i = NaN).
  destruct (use_dynamic_boundary m).
  - apply (neural_loop_from m (neural_step_smooth m nz (lap_adj m)) G Hm
             (fun x => x = NaN)).
    + intros t s st i Hi. apply neural_step_smooth_NaN; auto.
    + intros t s st HG i Hi. split.
      * apply neural_step_smooth_NaN; auto.
      * apply neural_step_smooth_I_NaN. now apply HG.
    + intros t s st i HG Hi.
      unfold neural_step_smooth at 1; cbv zeta; cbn [I_hist].
      rewrite upd_hist_same.
      apply (neural_step_smooth_I_NaN m nz (lap_adj m) t s st i). now apply HG.
    + intros t s st i t' s' Hne.
      unfold neural_step_smooth; cbv zeta; cbn [I_hist].
      now rewrite upd_hist_other.
  - apply (neural_loop_from m (neural_step_hard m nz (lap_adj m)) G Hm
             (fun x => x = NaN)).
    + intros t s st i Hi. apply neural_step_hard_NaN; auto.
    + intros t s st HG i Hi. split.
      * apply neural_step_hard_NaN; auto.
      * apply neural_step_hard_I_NaN. now apply HG.
    + intros t s st i HG Hi.
      unfold neural_step_hard at 1; cbv zeta; cbn [I_hist].
      rewrite upd_hist_same.
      change (ttanh ?x = NaN) with (ttanh x = ttanh NaN). f_equal.
      apply (neural_step_hard_I_NaN m nz (lap_adj m) t s st i). now apply HG.
    + intros t s st i t' s' Hne.
      unfold neural_step_hard; cbv zeta; cbn [I_hist].
      now rewrite upd_hist_other.
Qed.

(** The hemodynamic states once the excitatory history is NaN: x after
    one step, f after two, v and q after three. *)
Section HemoNaN.

Variable m : Model.
Variable nz : Noise.
Variable step : nat -> nat -> hemo_state -> hemo_state.

Let n := node_size m.
Let T := TRs_per_window m.
Let K := Z.to_nat (steps_per_TR m).

Hypothesis step_x : forall t s st i,
  (t < T)%nat -> (s < K)%nat -> (i < n)%nat -> s_x (step t s st) i = NaN.
Hypothesis step_f : forall t s st i,
  s_x st i = NaN -> s_f (step t s st) i = NaN.
Hypothesis step_vq : forall t s st i,
  s_f st i = NaN -> s_v (step t s st) i = NaN /\ s_q (step t s st) i = NaN.
Hypothesis step_win : forall t s st,
  x_win (step t s st) = x_win st /\ f_win (step t s st) = f_win st /\
  v_win (step t s st) = v_win st /\ q_win (step t s st) = q_win st /\
  bold_win (step t s st) = bold_win st.

Lemma hemo_steps_NaN (t : nat) (st : hemo_state) :
  (t < T)%nat ->
  let st' := for_range K (fun step_i st => step t step_i st) st in
  ((1 <= K)%nat -> x_NaN n st') /\ ((3 <= K)%nat -> all_NaN n st') /\
  x_win st' = x_win st /\ f_win st' = f_win st /\ v_win st' = v_win st /\
  q_win st' = q_win st /\ bold_win st' = bold_win st.
Proof.
  intros Ht. cbv zeta.
  pose proof (for_range_ind (fun s st' =>
    ((1 <= s)%nat -> x_NaN n st') /\
    ((2 <= s)%nat -> forall i, (i < n)%nat -> s_f st' i = NaN) /\
    ((3 <= s)%nat -> all_NaN n st') /\
    x_win st' = x_win st /\ f_win st' = f_win st /\ v_win st' = v_win st /\
    q_win st' = q_win st /\ bold_win st' = bold_win st) K
    (fun step_i st => step t step_i st) st) as Hin.
  cbv beta in Hin. destruct Hin as (H1 & _ & H3 & Hw).
  - split; [intros; lia|]. split; [intros; lia|]. split; [intros; lia|].
    repeat split.
  - intros s st' Hs (Hx & Hf & Hall & Hw).
    destruct (step_win t s st') as (-> & -> & -> & -> & ->).
    split; [intros _ i Hi; now apply step_x|].
    split; [intros H2 i Hi; apply step_f, Hx; [lia | assumption]|].
    split; [|exact Hw].
    intros H3 i Hi.
    destruct (step_vq t s st' i) as [Hv Hq]; [apply Hf; [lia | assumption]|].
    repeat split; try assumption.
    + now apply step_x.
    + apply step_f, Hx; [lia | assumption].
  - split; [exact H1 | split; [exact H3 | exact Hw]].
Qed.

Lemma hemo_loop_NaN (st0 : hemo_state) :
  let st := hemo_loop m nz step st0 in
  ((1 <= T)%nat -> (3 <= K)%nat -> all_NaN n st) /\
  (forall t i, (t < T)%nat -> (i < n)%nat ->
     ((1 <= K)%nat -> x_win st i t = NaN) /\
     ((3 <= K)%nat ->
        f_win st i t = NaN /\ v_win st i t = NaN /\ q_win st i t = NaN /\
        bold_win st i t = NaN)).
Proof.
  cbv zeta. unfold hemo_loop. fold T K.
  apply (for_range_ind (fun t st =>
    ((1 <= t)%nat -> (3 <= K)%nat -> all_NaN n st) /\
    (forall t' i, (t' < t)%nat -> (i < n)%nat ->
       ((1 <= K)%nat -> x_win st i t' = NaN) /\
       ((3 <= K)%nat ->
          f_win st i t' = NaN /\ v_win st i t' = NaN /\ q_win st i t' = NaN /\
          bold_win st i t' = NaN)))).
  - cbv beta. split; intros; lia.
  - cbv beta. intros t st Ht (_ & Hw).
    destruct (hemo_steps_NaN t st Ht) as (Hx & Hall & Ex & Ef & Ev & Eq & Eb).
    set (st' := for_range K (fun step_i st1 => step t step_i st1) st) in *.
    split.
    + intros _ HK i Hi. unfold record_TR; cbn [s_x s_f s_v s_q].
      now apply Hall.
    + intros t' i Ht' Hi. unfold record_TR; cbn [x_win f_win v_win q_win bold_win].
      unfold upd_win. destruct (Nat.eqb_spec t' t) as [->|Hne].
      * split; [intros HK; now apply Hx|].
        intros HK. destruct (Hall HK i Hi) as (_ & Hf & Hv & Hq).
        repeat split; try assumption. rewrite Hq. apply bold_signal_NaN.
      * rewrite Ex, Ef, Ev, Eq, Eb. apply Hw; [lia | assumption].
Qed.

End HemoNaN.

Lemma run_hemo_NaN (m : Model) (nz : Noise) (hx : matrix num) :
  (forall t s i, (t < TRs_per_window m)%nat ->
     (s < Z.to_nat (steps_per_TR m))%nat -> (i < node_size m)%nat ->
     E_hist (run_neural m nz hx) i t s = NaN) ->
  let st := run_hemo m nz hx in
  ((1 <= TRs_per_window m)%nat -> (3 <= Z.to_nat (steps_per_TR m))%nat ->
   all_NaN (node_size m) st) /\
  (forall t i, (t < TRs_per_window m)%nat -> (i < node_size m)%nat ->
     ((1 <= Z.to_nat (steps_per_TR m))%nat -> x_win st i t = NaN) /\
     ((3 <= Z.to_nat (steps_per_TR m))%nat ->
        f_win st i t = NaN /\ v_win st i t = NaN /\ q_win st i t = NaN /\
        bold_win st i t = NaN)).
Proof.
  intros HE. cbv zeta. unfold run_hemo.
  destruct (use_dynamic_boundary m).
  - apply hemo_loop_NaN.
    + intros t s st i Ht Hs Hi. cbn [hemo_step_smooth s_x].
      rewrite HE by assumption. now rewrite x_euler_NaN.
    + intros t s st i Hx. cbn [hemo_step_smooth s_f].
      rewrite Hx. now rewrite f_euler_NaN.
    + intros t s st i Hf. cbn [hemo_step_smooth s_v s_q].
      rewrite Hf. now rewrite v_euler_NaN, q_euler_NaN.
    + intros; repeat split.
  - apply hemo_loop_NaN.
    + intros t s st i Ht Hs Hi. cbn [hemo_step_hard s_x].
      rewrite HE by assumption. now rewrite x_euler_NaN.
    + intros t s st i Hx. cbn [hemo_step_hard s_f].
      rewrite Hx. now rewrite f_euler_NaN.
    + intros t s st i Hf. cbn [hemo_step_hard s_v s_q].
      rewrite Hf. now rewrite v_euler_NaN, q_euler_NaN.
    + intros; repeat split.
Qed.

(** C9.  With 2 regions or more, when the symmetrised modulated matrix
    is zero its Frobenius norm is zero and the normalisation divides by
    it: the coupling matrix, the operator of the integrator and the
    matrix stored on the model are the [n x n] matrix of NaN, which is
    not of unit norm.  Of what the call returns, every entry of
    [E_window] is NaN and every entry of [I_window] after the first
    column; with at least one fine step per period every entry of
    [x_window] is NaN, and with at least three every entry of
    [f_window], [v_window], [q_window] and [bold_window], and (with a
    period) every entry of [current_state]. *)
Theorem zero_norm_coupling_NaN {X H : Type} (m : Model) (nz : Noise)
    (ext : X) (hx : matrix num) (hE : H) :
  (2 <= length (sc m))%nat ->
  length (sc m) = node_size m ->
  (0 <= steps_per_TR m)%Z ->
  (forall i j, (i < length (sc m))%nat -> (j < length (sc m))%nat ->
     sc_sym m i j = 0) ->
  fro_norm (length (sc m)) (sc_sym m) = 0 /\
  sc_mod_normalized m
  = tabulate2 (node_size m) (node_size m) (fun _ _ => NaN) /\
  lap_adj m = tabulate2 (node_size m) (node_size m) (fun _ _ => NaN) /\
  (forall tol, ~ symmetric_unit_norm tol (length (sc m)) (sc_mod_normalized m)) /\
  exists ns m',
    integration_forward m nz ext hx hE = Some ((ns, hE), m') /\
    sc_fitted m' = tabulate2 (node_size m) (node_size m) (fun _ _ => NaN) /\
    E_window ns
    = tabulate2 (node_size m) (TRs_per_window m * Z.to_nat (steps_per_TR m))
        (fun _ _ => NaN) /\
    (exists first : nat -> num,
       I_window ns
       = tabulate2 (node_size m) (TRs_per_window m * Z.to_nat (steps_per_TR m))
           (fun i k => if Nat.eqb k 0 then first i else NaN)) /\
    ((1 <= steps_per_TR m)%Z ->
     x_window ns = tabulate2 (node_size m) (TRs_per_window m) (fun _ _ => NaN)) /\
    ((3 <= steps_per_TR m)%Z ->
     f_window ns = tabulate2 (node_size m) (TRs_per_window m) (fun _ _ => NaN) /\
     v_window ns = tabulate2 (node_size m) (TRs_per_window m) (fun _ _ => NaN) /\
     q_window ns = tabulate2 (node_size m) (TRs_per_window m) (fun _ _ => NaN) /\
     bold_window ns = tabulate2 (node_size m) (TRs_per_window m) (fun _ _ => NaN) /\
     ((1 <= TRs_per_window m)%nat ->
      current_state ns
      = tabulate (node_size m) (fun _ => [NaN; NaN; NaN; NaN; NaN; NaN]))).
Proof.
  intros Hn Hsc HK Hz.
  assert (H0 : fro_norm (length (sc m)) (sc_sym m) = 0) by (now apply fro_norm_zero).
  assert (HA : sc_mod_normalized m
               = tabulate2 (node_size m) (node_size m) (fun _ _ => NaN)).
  { rewrite <- Hsc. now apply normalized_all_NaN. }
  assert (HL : forall i k, (i < node_size m)%nat -> (k < node_size m)%nat ->
                 nget (lap_adj m) i k = NaN).
  { intros i k Hi Hk. apply lap_adj_NaN; try assumption; lia. }
  assert (HE : forall t s i, (t < TRs_per_window m)%nat ->
                 (s < Z.to_nat (steps_per_TR m))%nat -> (i < node_size m)%nat ->
                 E_hist (run_neural m nz hx) i t s = NaN).
  { intros t s i Ht Hs Hi. apply run_neural_NaN; try assumption. lia. }
  destruct (run_neural_I_NaN m nz hx ltac:(lia) HL) as [Hmeans HI].
  destruct (run_hemo_NaN m nz hx HE) as [Hall Hwin]. cbv zeta in Hall, Hwin.
  split; [exact H0|]. split; [exact HA|]. split; [|split].
  - rewrite <- Hsc. now apply lap_adj_all_NaN.
  - intros tol. apply not_unit_norm_of_zero; [lia | exact H0].
  - exists (assemble m nz hx), (store_coupling m).
    split; [apply forward_returns; [assumption | lia]|].
    split.
    { unfold store_coupling.
      destruct (Nat.ltb_spec 1 (length (sc m))); [exact HA | lia]. }
    unfold assemble; cbv zeta.
    cbn [E_window I_window x_window f_window v_window q_window bold_window
         current_state].
    split; [|split; [|split; [|]]].
    + unfold reshape_hist. cbv zeta. apply tabulate2_ext. intros i k Hi Hk.
      destruct (reshape_hist_entry m (E_hist (run_neural m nz hx)) i k Hi Hk)
        as (_ & Ht & Hs). now apply HE.
    + exists (fun i => I_hist (run_neural m nz hx) i 0%nat 0%nat).
      unfold reshape_hist. cbv zeta. apply tabulate2_ext. intros i k Hi Hk.
      destruct (reshape_hist_entry m (I_hist (run_neural m nz hx)) i k Hi Hk)
        as (_ & Ht & Hs).
      destruct (Nat.eqb_spec k 0) as [->|Hne].
      * rewrite Nat.Div0.div_0_l, Nat.Div0.mod_0_l. reflexivity.
      * apply HI; try assumption.
        set (K := Z.to_nat (steps_per_TR m)) in *.
        pose proof (Nat.div_mod_eq k K) as Hdm.
        destruct (Nat.eq_dec (k / K) 0) as [E1|]; [|lia].
        destruct (Nat.eq_dec (k mod K) 0) as [E2|]; [|lia].
        rewrite E1, E2, Nat.mul_0_r in Hdm. lia.
    + intros HK1. apply tabulate2_ext. intros i t Hi Ht.
      apply (Hwin t i Ht Hi). lia.
    + intros HK3.
      assert (H3 : (3 <= Z.to_nat (steps_per_TR m))%nat) by lia.
      repeat split;
        try (apply tabulate2_ext; intros i t Hi Ht;
             destruct (Hwin t i Ht Hi) as [_ Hw];
             destruct (Hw H3) as (Hf & Hv & Hq & Hb); assumption).
      intros HT. apply tabulate_ext. intros i Hi.
      destruct (Hall HT H3 i Hi) as (-> & -> & -> & ->).
      destruct (Hmeans ltac:(nia) i Hi) as [-> ->]. reflexivity.
Qed.

Lemma zero_norm_coupling_NaN_witness :
  sc_mod_normalized three_step_unconnected = [[NaN; NaN]; [NaN; NaN]] /\
  exists ns m',
    integration_forward three_step_unconnected zero_noise tt rest_state_2 tt
    = Some ((ns, tt), m') /\
    E_window ns = [[NaN; NaN; NaN]; [NaN; NaN; NaN]] /\
    bold_window ns = [[NaN]; [NaN]] /\
    current_state ns
    = [[NaN; NaN; NaN; NaN; NaN; NaN]; [NaN; NaN; NaN; NaN; NaN; NaN]].
Proof.
  destruct (zero_norm_coupling_NaN three_step_unconnected zero_noise tt
              rest_state_2 tt)
    as (_ & HA & _ & _ & ns & m' & Hret & _ & HE & _ & _ & Hh).
  - simpl; lia.
  - reflexivity.
  - simpl; lia.
  - intros i j Hi Hj. simpl in Hi, Hj.
    apply sc_sym_of_zero;
      destruct i as [|[|i]]; try lia; destruct j as [|[|j]]; try lia; reflexivity.
  - split; [exact HA|]. exists ns, m'. split; [exact Hret|].
    split; [exact HE|].
    destruct Hh as (_ & _ & _ & Hb & Hc); [simpl; lia|].
    split; [exact Hb | apply Hc; simpl; lia].
Defined.

(** ** Parameter materialisation *)

Module MaterializerFacts.

Import String.
Import Materializer.
Local Open Scope string_scope.

Lemma visit_all_lists (cfg : config) (st : state) :
  param_reg (visit_all cfg st) = (param_reg st ++ loop_reg (visited cfg))%list /\
  param_hyper (visit_all cfg st) = (param_hyper st ++ loop_hyper (visited cfg))%list /\
  attrs (visit_all cfg st) = (loop_attrs (visited cfg) ++ attrs st)%list.
Proof.
  unfold visit_all, visited. revert st.
  induction (param cfg) as [|[name a] l IH]; intros st.
  - simpl. now rewrite !app_nil_r.
  - cbn [fold_left flat_map fst snd].
    destruct (prefix "__" name).
    + destruct (IH (keep_entry (name, a) st)) as (-> & -> & ->). now simpl.
    + destruct a as [v|].
      * match goal with |- context [fold_left _ l ?S] =>
          destruct (IH S) as (E1 & E2 & E3) end.
        cbn [fst snd] in *. rewrite E1, E2, E3. clear E1 E2 E3 IH.
        unfold visit, loop_reg, loop_hyper, loop_attrs. cbv zeta.
        cbn [flat_map map rev fst snd app].
        assert (Hh : fit_hyper (if fit_hyper v then randSet (draw cfg name) v else v)
                     = fit_hyper v) by (destruct (fit_hyper v) eqn:E; simpl; exact E).
        rewrite Hh.
        destruct (fit_hyper v);
          destruct (fit_par _); cbn [attrs param_reg param_hyper keep_entry
            set_attr append_reg append_hyper app];
          rewrite <- ?app_assoc; repeat split; reflexivity.
      * match goal with |- context [fold_left _ l ?S] =>
          destruct (IH S) as (E1 & E2 & E3) end.
        cbn [fst snd] in *. rewrite E1, E2, E3. now simpl.
Qed.

Lemma loop_reg_idents (l : list (string * par)) (r : tref) :
  In r (idents (loop_reg l)) -> exists name, r = Val name /\ In name (map fst l).
Proof.
  induction l as [|[name v] l IH]; simpl; [contradiction|].
  unfold idents in *. rewrite map_app, in_app_iff. intros [H|H].
  - destruct (fit_par v); simpl in H; [|contradiction].
    destruct H as [<-|[]]. exists name. auto.
  - destruct (IH H) as (k & -> & Hk). exists k. auto.
Qed.

Lemma loop_hyper_idents (l : list (string * par)) (r : tref) :
  In r (idents (loop_hyper l)) ->
  exists name, (r = PriorMean name \/ r = PriorVar name) /\ In name (map fst l).
Proof.
  induction l as [|[name v] l IH]; simpl; [contradiction|].
  unfold idents in *. rewrite map_app, in_app_iff. intros [H|H].
  - destruct (fit_hyper v); simpl in H; [|contradiction].
    destruct H as [<-|[<-|[]]]; exists name; auto.
  - destruct (IH H) as (k & Hr & Hk). exists k. auto.
Qed.

Lemma loop_reg_NoDup (l : list (string * par)) :
  NoDup (map fst l) -> NoDup (idents (loop_reg l)).
Proof.
  induction l as [|[name v] l IH]; simpl; intros Hnd; [constructor|].
  apply NoDup_cons_iff in Hnd as [Hnot Hnd].
  unfold idents in *. rewrite map_app. apply NoDup_app; [| now apply IH |].
  - destruct (fit_par v); simpl; repeat constructor. simpl; tauto.
  - intros r Hr Hin. destruct (fit_par v); simpl in Hr; [|contradiction].
    destruct Hr as [<-|[]].
    destruct (loop_reg_idents l _ Hin) as (k & E & Hk). injection E as <-.
    contradiction.
Qed.

Lemma loop_hyper_NoDup (l : list (string * par)) :
  NoDup (map fst l) -> NoDup (idents (loop_hyper l)).
Proof.
  induction l as [|[name v] l IH]; simpl; intros Hnd; [constructor|].
  apply NoDup_cons_iff in Hnd as [Hnot Hnd].
  unfold idents in *. rewrite map_app. apply NoDup_app; [| now apply IH |].
  - destruct (fit_hyper v); simpl; repeat constructor; simpl; [|tauto].
    intros [E|[]]. discriminate.
  - intros r Hr Hin. destruct (fit_hyper v); simpl in Hr; [|contradiction].
    destruct (loop_hyper_idents l _ Hin) as (k & E & Hk).
    destruct Hr as [<-|[<-|[]]]; destruct E as [E|E]; try discriminate;
      injection E as <-; contradiction.
Qed.

Lemma get_attr_loop (name : string) (l : list (string * par))
    (rest : list (string * tensor)) :
  ~ In name (map fst l) ->
  get_attr name (loop_attrs l ++ rest) = get_attr name rest.
Proof.
  unfold loop_attrs. induction l as [|[k v] l IH] using rev_ind; intros Hn.
  - reflexivity.
  - rewrite map_app, rev_app_distr. simpl.
    rewrite map_app, in_app_iff in Hn. simpl in Hn.
    destruct (String.eqb_spec k name) as [->|_]; [tauto|].
    apply IH. tauto.
Qed.

Lemma visited_names (cfg : config) (name : string) :
  In name (map fst (visited cfg)) -> exists a, In (name, a) (param cfg).
Proof.
  unfold visited. induction (param cfg) as [|[k a] l IH]; simpl; [contradiction|].
  rewrite map_app, in_app_iff. intros [H|H].
  - destruct (prefix "__" k); [contradiction|].
    destruct a as [v|]; [|contradiction].
    destruct H as [<-|[]]. eexists. left. reflexivity.
  - destruct (IH H) as [b Hb]. exists b. now right.
Qed.

Lemma trainable_attrs_loop (l : list (string * par)) (rest : list (string * tensor))
    (t : tensor) :
  In t (filter created_trainable (map snd (loop_attrs l ++ rest))) <->
  In t (filter created_trainable (map snd rest)).
Proof.
  rewrite map_app, filter_app, in_app_iff. split; [|auto].
  intros [H|H]; [|exact H]. exfalso.
  apply filter_In in H as [Hin Ht]. unfold loop_attrs in Hin.
  rewrite <- map_rev, map_map in Hin. apply in_map_iff in Hin as (e & <- & _).
  discriminate.
Qed.

Lemma setModelParameters_lists (cfg : config) :
  let st0 := gains_block cfg
    ((if use_Bifurcation cfg then bifurcation_block else fun st => st)
       ((if use_Gaussian_EI cfg then gaussian_EI_block else fun st => st)
          empty_state)) in
  param_reg (setModelParameters cfg)
    = (param_reg st0 ++ loop_reg (visited cfg))%list /\
  param_hyper (setModelParameters cfg)
    = (param_hyper st0 ++ loop_hyper (visited cfg))%list /\
  attrs (setModelParameters cfg) = (loop_attrs (visited cfg) ++ attrs st0)%list.
Proof.
  cbv zeta. unfold setModelParameters. cbv zeta.
  destruct (use_Gaussian_EI cfg), (use_Bifurcation cfg); apply visit_all_lists.
Qed.

Lemma collections_shape (G B RL HL : list tref) :
  (forall r, In r G -> exists a, r = Created a) ->
  (forall r, In r B -> exists a, r = Created a) ->
  (forall r, In r RL -> exists a, r = Val a) ->
  (forall r, In r HL -> exists a, r = PriorMean a \/ r = PriorVar a) ->
  NoDup G -> NoDup B -> NoDup RL -> NoDup HL ->
  (forall r, In r G -> ~ In r B) ->
  (forall r, In r (G ++ RL) -> ~ In r (B ++ HL)) /\
  NoDup ((G ++ RL) ++ (B ++ HL)).
Proof.
  intros HG HB HRL HHL NG NB NRL NHL Hdis.
  assert (D : forall r, In r (G ++ RL) -> ~ In r (B ++ HL)).
  { intros r H1 H2. rewrite in_app_iff in H1, H2.
    destruct H1 as [H1|H1], H2 as [H2|H2].
    - exact (Hdis r H1 H2).
    - destruct (HG r H1) as [a ->]. destruct (HHL _ H2) as [b [E|E]]; discriminate.
    - destruct (HRL r H1) as [a ->]. destruct (HB _ H2) as [b E]; discriminate.
    - destruct (HRL r H1) as [a ->]. destruct (HHL _ H2) as [b [E|E]]; discriminate. }
  split; [exact D|].
  apply NoDup_app; [apply NoDup_app | apply NoDup_app | exact D]; try assumption.
  - intros r H1 H2. destruct (HG r H1) as [a ->].
    destruct (HRL _ H2) as [b E]; discriminate.
  - intros r H1 H2. destruct (HB r H1) as [a ->].
    destruct (HHL _ H2) as [b [E|E]]; discriminate.
Qed.

(** Without the block of [use_Gaussian_EI], and with entries of distinct
    names, the two collections are disjoint, without duplicates, and
    hold every trainable tensor the call created. *)
Lemma collections_ok_without_gaussian (cfg : config) :
  use_Gaussian_EI cfg = false ->
  NoDup (map fst (visited cfg)) ->
  collections_ok (setModelParameters cfg).
Proof.
  intros Hg Hnd. destruct (setModelParameters_lists cfg) as (Hr & Hh & Ha).
  cbv zeta in Hr, Hh, Ha. rewrite Hg in Hr, Hh, Ha.
  unfold collections_ok, trainable_attrs. rewrite Hr, Hh, Ha. clear Hr Hh Ha.
  set (G := if use_fit_gains cfg then [Created "gains_con"] else []).
  set (B := if use_Bifurcation cfg
            then [Created "sup_ca"; Created "sup_cb"; Created "sup_cc"] else []).
  destruct (collections_shape G B (idents (loop_reg (visited cfg)))
              (idents (loop_hyper (visited cfg)))) as [D N].
  - subst G. intros r H. destruct (use_fit_gains cfg); [|contradiction].
    destruct H as [<-|[]]. now eexists.
  - subst B. intros r H. destruct (use_Bifurcation cfg); [|contradiction].
    destruct H as [<-|[<-|[<-|[]]]]; now eexists.
  - intros r H. destruct (loop_reg_idents _ _ H) as (a & -> & _). now eexists.
  - intros r H. destruct (loop_hyper_idents _ _ H) as (a & E & _). now exists a.
  - subst G. destruct (use_fit_gains cfg); repeat constructor. simpl; tauto.
  - subst B. destruct (use_Bifurcation cfg); repeat constructor; simpl;
      intuition discriminate.
  - now apply loop_reg_NoDup.
  - now apply loop_hyper_NoDup.
  - subst G B. intros r H1 H2.
    destruct (use_fit_gains cfg); [|contradiction].
    destruct H1 as [<-|[]].
    destruct (use_Bifurcation cfg); [|contradiction].
    destruct H2 as [E|[E|[E|[]]]]; discriminate.
  - assert (ER : idents (param_reg (gains_block cfg
                   ((if use_Bifurcation cfg then bifurcation_block
                     else fun st => st) empty_state))) = G).
    { subst G. unfold gains_block.
      destruct (use_Bifurcation cfg), (use_fit_gains cfg); reflexivity. }
    assert (EH : idents (param_hyper (gains_block cfg
                   ((if use_Bifurcation cfg then bifurcation_block
                     else fun st => st) empty_state))) = B).
    { subst B. unfold gains_block.
      destruct (use_Bifurcation cfg), (use_fit_gains cfg); reflexivity. }
    unfold idents in *. rewrite !map_app, ER, EH.
    split; [exact D | split; [exact N|]].
    intros t Ht. rewrite <- map_app in Ht. apply trainable_attrs_loop in Ht.
    rewrite !in_app_iff. subst G B. unfold gains_block in Ht.
    destruct (use_Bifurcation cfg), (use_fit_gains cfg); cbn in Ht;
      repeat (destruct Ht as [<-|Ht]; [cbn; tauto|]); contradiction.
Qed.

Lemma block_lists_gaussian (cfg : config) :
  use_Gaussian_EI cfg = true ->
  let st0 := gains_block cfg
    ((if use_Bifurcation cfg then bifurcation_block else fun st => st)
       (gaussian_EI_block empty_state)) in
  idents (param_reg st0)
    = (if use_fit_gains cfg then [Created "gains_con"] else []) /\
  idents (param_hyper st0)
    = ([Created "E_m"; Created "I_m"; Created "v_m"; Created "q_m";
        Created "E_v_inv"; Created "I_v_inv"; Created "v_v_inv";
        Created "v_v_inv"]
       ++ (if use_Bifurcation cfg
           then [Created "sup_ca"; Created "sup_cb"; Created "sup_cc"] else []))%list /\
  In {| ident := Created "q_v_inv"; data := Scalar 100; requires_grad := true |}
     (filter created_trainable (map snd (attrs st0))).
Proof.
  intros _. cbv zeta. unfold gains_block.
  destruct (use_Bifurcation cfg), (use_fit_gains cfg);
    (split; [reflexivity | split; [reflexivity|]]); cbn; tauto.
Qed.

(** C4 (the code at the failing input).  With [use_Gaussian_EI] on,
    whatever the other flags and the parameter set: the trainable scalar
    [q_v_inv] that the call creates is in neither collection, [v_v_inv]
    is twice in the hyperprior collection, and so the collections do not
    satisfy the claim. *)
Theorem gaussian_EI_collections_broken (n : nat) (bif gains : bool)
    (params : list (string * attribute)) (d : string -> tdata) :
  let st := setModelParameters
    {| node_size := n; use_Gaussian_EI := true; use_Bifurcation := bif;
       use_fit_gains := gains; param := params; draw := d |} in
  In {| ident := Created "q_v_inv"; data := Scalar 100; requires_grad := true |}
     (trainable_attrs st) /\
  ~ In (Created "q_v_inv") (idents (param_reg st ++ param_hyper st)) /\
  firstn 8 (idents (param_hyper st))
    = [Created "E_m"; Created "I_m"; Created "v_m"; Created "q_m";
       Created "E_v_inv"; Created "I_v_inv"; Created "v_v_inv";
       Created "v_v_inv"] /\
  ~ collections_ok st.
Proof.
  cbv zeta.
  set (cfg := {| node_size := n; use_Gaussian_EI := true; use_Bifurcation := bif;
                 use_fit_gains := gains; param := params; draw := d |}).
  destruct (setModelParameters_lists cfg) as (Hr & Hh & Ha).
  destruct (block_lists_gaussian cfg eq_refl) as (Br & Bh & Bq).
  cbv zeta in Hr, Hh, Ha, Br, Bh, Bq. cbn [use_Gaussian_EI cfg] in Hr, Hh, Ha.
  fold cfg in Hr, Hh, Ha.
  assert (Hq : In {| ident := Created "q_v_inv"; data := Scalar 100;
                     requires_grad := true |}
                  (trainable_attrs (setModelParameters cfg))).
  { unfold trainable_attrs. rewrite Ha. now apply trainable_attrs_loop. }
  assert (Hmiss : ~ In (Created "q_v_inv")
                    (idents (param_reg (setModelParameters cfg)
                             ++ param_hyper (setModelParameters cfg)))).
  { unfold idents in *. rewrite Hr, Hh, !map_app, Br, Bh, !in_app_iff.
    intros [[H|H]|[[H|H]|H]].
    - destruct gains; cbn in H; intuition discriminate.
    - destruct (loop_reg_idents _ _ H) as (a & E & _). discriminate.
    - cbn in H. intuition discriminate.
    - destruct bif; cbn in H; intuition discriminate.
    - destruct (loop_hyper_idents _ _ H) as (a & [E|E] & _); discriminate. }
  assert (Hfirst : firstn 8 (idents (param_hyper (setModelParameters cfg)))
                   = [Created "E_m"; Created "I_m"; Created "v_m"; Created "q_m";
                      Created "E_v_inv"; Created "I_v_inv"; Created "v_v_inv";
                      Created "v_v_inv"]).
  { unfold idents in *. rewrite Hh, map_app, Bh. reflexivity. }
  repeat split; try assumption.
  intros (_ & _ & Hcov). apply Hmiss. apply (Hcov _ Hq).
Qed.

Lemma gains_block_attr (cfg : config) (st : state) :
  get_attr "gains_con" (attrs (gains_block cfg st))
  = Some {| ident := Created "gains_con";
            data := if use_fit_gains cfg
                    then Mat (zeros_plus (node_size cfg) c_005)
                    else Mat (np_zeros (node_size cfg));
            requires_grad := use_fit_gains cfg |}.
Proof. unfold gains_block. now destruct (use_fit_gains cfg). Qed.

(** C5 (amended).  When no entry of the parameter set is itself named
    [gains_con], the call leaves in [model.gains_con] a matrix of
    [node_size x node_size] entries that it created: with gain fitting
    on, a trainable matrix whose entries are all 0.05, registered in the
    point-trainable collection; with gain fitting off, a fixed matrix of
    zeros that is in neither collection. *)
Theorem gains_con_created (cfg : config) :
  (forall e, In e (param cfg) -> fst e <> "gains_con") ->
  let st := setModelParameters cfg in
  let n := node_size cfg in
  exists t a,
    get_attr "gains_con" (attrs st) = Some t /\
    ident t = Created "gains_con" /\ data t = Mat a /\
    List.length a = n /\ Forall (fun row => List.length row = n) a /\
    (use_fit_gains cfg = true ->
       requires_grad t = true /\ In t (param_reg st) /\
       forall i j, (i < n)%nat -> (j < n)%nat -> rget a i j = c_005) /\
    (use_fit_gains cfg = false ->
       requires_grad t = false /\
       ~ In (ident t) (idents (param_reg st ++ param_hyper st)) /\
       forall i j, (i < n)%nat -> (j < n)%nat -> rget a i j = 0).
Proof.
  intros Hnames. cbv zeta.
  destruct (setModelParameters_lists cfg) as (Hr & Hh & Ha).
  cbv zeta in Hr, Hh, Ha.
  assert (Hnot : ~ In "gains_con" (map fst (visited cfg))).
  { intros H. destruct (visited_names cfg _ H) as [a Ha'].
    exact (Hnames _ Ha' eq_refl). }
  eexists. exists (tabulate2 (node_size cfg) (node_size cfg)
                     (fun _ _ => if use_fit_gains cfg then 0 + c_005 else 0)).
  split; [rewrite Ha, get_attr_loop by assumption; apply gains_block_attr|].
  cbn [ident data requires_grad].
  split; [reflexivity|].
  split; [now destruct (use_fit_gains cfg)|].
  split; [apply tabulate_length|].
  split.
  { apply Forall_forall. intros row Hin. unfold tabulate2, tabulate in Hin.
    apply in_map_iff in Hin as (i & <- & _). apply tabulate_length. }
  split; intros Hg; rewrite Hg.
  - split; [reflexivity|]. split.
    + rewrite Hr. apply in_or_app. left.
      unfold gains_block. rewrite Hg.
      destruct (use_Gaussian_EI cfg), (use_Bifurcation cfg); cbn; tauto.
    + intros i j Hi Hj. unfold rget. rewrite mget_tabulate2 by assumption.
      unfold c_005. lra.
  - split; [reflexivity|]. split.
    + unfold idents. rewrite Hr, Hh, !map_app, !in_app_iff.
      unfold gains_block. rewrite Hg.
      intros [[H|H]|[H|H]].
      * destruct (use_Gaussian_EI cfg), (use_Bifurcation cfg); cbn in H;
          contradiction.
      * destruct (loop_reg_idents _ _ H) as (a & E & _). discriminate.
      * destruct (use_Gaussian_EI cfg), (use_Bifurcation cfg); cbn in H;
          intuition discriminate.
      * destruct (loop_hyper_idents _ _ H) as (a & [E|E] & _); discriminate.
    + intros i j Hi Hj. unfold rget. now rewrite mget_tabulate2.
Qed.

Lemma gains_con_created_witness :
  exists t,
    get_attr "gains_con" (attrs (setModelParameters (no_entries false true true)))
    = Some t /\ ident t = Created "gains_con".
Proof.
  destruct (gains_con_created (no_entries false true true))
    as (t & a & Ht & Hi & _); [intros e []|].
  exists t. split; assumption.
Defined.

(** C5 as stated fails: with gain fitting on, the trainable matrix in
    [model.gains_con] is not initialised to zero. *)
Lemma gains_con_zero_init_counterexample :
  exists t a,
    get_attr "gains_con" (attrs (setModelParameters (no_entries false true true)))
    = Some t /\
    requires_grad t = true /\ data t = Mat a /\ rget a 0 0 <> 0.
Proof.
  eexists. eexists. split; [reflexivity|]. split; [reflexivity|].
  split; [reflexivity|]. unfold rget, mget; simpl. unfold c_005. lra.
Qed.

End MaterializerFacts.

(** * Further properties of the code *)

(** ** Initial condition *)

(** X1.  For uniform draws in [0, 1), [createIC] returns one row of six
    finite entries per region: E, I and x are at least 0 and f, v and q
    at least 1, and none exceeds 0.2 respectively 1.2 by as much as
    0.01 (the conversion to 32 bits can reach 0.2 and 1.2 themselves);
    the result is a valid state for a call. *)
Theorem createIC_valid (m : Model) (u : nat -> nat -> R) :
  (forall i c, 0 <= u i c < 1) ->
  length (createIC m u) = node_size m /\
  (forall i, (i < node_size m)%nat ->
     exists E I x f v q : R,
       nth i (createIC m u) [] = [Fin E; Fin I; Fin x; Fin f; Fin v; Fin q] /\
       0 <= E < 21 / 100 /\ 0 <= I < 21 / 100 /\ 0 <= x < 21 / 100 /\
       1 <= f < 121 / 100 /\ 1 <= v < 121 / 100 /\ 1 <= q < 121 / 100) /\
  valid_state (node_size m) (createIC m u).
Proof.
  intros Hu.
  assert (Hrow : forall i, (i < node_size m)%nat ->
            nth i (createIC m u) []
            = [Fin (2 / 10 * u i 0%nat + 0); Fin (2 / 10 * u i 1%nat + 0);
               Fin (2 / 10 * u i 2%nat + 0); Fin (2 / 10 * u i 3%nat + 1);
               Fin (2 / 10 * u i 4%nat + 1); Fin (2 / 10 * u i 5%nat + 1)]).
  { intros i Hi. unfold createIC, tabulate2. now rewrite nth_tabulate. }
  split; [apply tabulate_length|]. split.
  - intros i Hi. rewrite Hrow by assumption.
    do 6 eexists. split; [reflexivity|].
    pose proof (Hu i 0%nat). pose proof (Hu i 1%nat). pose proof (Hu i 2%nat).
    pose proof (Hu i 3%nat). pose proof (Hu i 4%nat). pose proof (Hu i 5%nat).
    repeat split; lra.
  - intros i Hi. unfold nget, mget. rewrite Hrow by assumption. cbn [nth].
    pose proof (Hu i 3%nat). pose proof (Hu i 4%nat).
    repeat split; try (now eexists); (eexists; split; [reflexivity | lra]).
Qed.

Lemma createIC_valid_witness :
  valid_state 1 (createIC (single_region_model true) (fun _ _ => 1 / 2)).
Proof.
  apply (createIC_valid (single_region_model true) (fun _ _ => 1 / 2)).
  intros _ _. lra.
Defined.

(** ** Response function *)



(** X3.  With [d = 0] the denominator of the response function is zero
    for all finite [a], [b], [z], and the result is not a finite number;
    an input that is not finite gives a result that is not finite. *)
Theorem h_tf_not_finite (a b d z : R) :
  ~ finite (h_tf (Fin a) (Fin b) (Fin 0) (Fin z)) /\
  ~ finite (h_tf (Fin a) (Fin b) (Fin d) NaN).
Proof.
  split.
  - unfold h_tf; simpl. destruct (Req_dec_T _ 0) as [_|Hn].
    + intros [r Hr]. discriminate.
    + exfalso. apply Hn.
      replace (- 0 * (a * z - b)) with 0 by ring. rewrite exp_0.
      replace (1 - 1) with 0 by ring. rewrite Rabs_R0. ring.
  - intros [r Hr]. discriminate.
Qed.

(** ** Coupling matrix *)

Lemma sum_squares_ext (n : nat) (A B : nat -> nat -> R) :
  (forall i j, (i < n)%nat -> (j < n)%nat -> A i j = B i j) ->
  sum_squares n A = sum_squares n B.
Proof.
  intros E. unfold sum_squares. apply rsum_ext. intros i Hi.
  apply rsum_ext. intros j Hj. now rewrite E.
Qed.

Lemma fro_norm_scale (n : nat) (c : R) (A B : nat -> nat -> R) :
  0 <= c ->
  (forall i j, (i < n)%nat -> (j < n)%nat -> B i j = c * A i j) ->
  fro_norm n B = c * fro_norm n A.
Proof.
  intros Hc E. unfold fro_norm.
  rewrite (sum_squares_ext n B (fun i j => c * A i j)) by assumption.
  replace (sum_squares n (fun i j => c * A i j)) with (c * c * sum_squares n A).
  - rewrite sqrt_mult; [| nra | apply sum_squares_nonneg].
    now rewrite sqrt_square.
  - unfold sum_squares. rewrite <- rsum_scale. apply rsum_ext; intros i _.
    rewrite <- rsum_scale. apply rsum_ext; intros j _. ring.
Qed.

(** Two models whose symmetrised matrices differ by a positive factor
    have the same coupling matrix and the same operator. *)
Lemma coupling_scale_invariant (m1 m2 : Model) (c : R) :
  0 < c ->
  length (sc m2) = length (sc m1) ->
  use_Laplacian m2 = use_Laplacian m1 ->
  (forall i j, (i < length (sc m1))%nat -> (j < length (sc m1))%nat ->
     sc_sym m2 i j = c * sc_sym m1 i j) ->
  sc_mod_normalized m2 = sc_mod_normalized m1 /\ lap_adj m2 = lap_adj m1.
Proof.
  intros Hc Hlen Hlap E.
  assert (HN : fro_norm (length (sc m1)) (sc_sym m2)
               = c * fro_norm (length (sc m1)) (sc_sym m1))
    by (apply fro_norm_scale; [lra | assumption]).
  assert (Hn : sc_mod_normalized m2 = sc_mod_normalized m1).
  { unfold sc_mod_normalized. cbv zeta. rewrite Hlen.
    apply tabulate2_ext. intros i j Hi Hj. rewrite E, HN by assumption.
    simpl. destruct (Req_dec_T (fro_norm _ (sc_sym m1)) 0) as [Hz|Hnz].
    - rewrite Hz, Rmult_0_r. destruct (Req_dec_T 0 0); [reflexivity | contradiction].
    - destruct (Req_dec_T _ 0) as [Hz|_]; [exfalso; nra|].
      f_equal. field. lra. }
  split; [exact Hn|]. unfold lap_adj. now rewrite Hn, Hlen, Hlap.
Qed.

Lemma rget_scale (c : R) (M : matrix R) (i j : nat) :
  rget (map (map (fun x => c * x)) M) i j = c * rget M i j.
Proof.
  unfold rget, mget.
  change (@nil R) with (map (fun x => c * x) []) at 1.
  rewrite map_nth.
  destruct (Nat.lt_ge_cases j (length (nth i M []))) as [Hj|Hj].
  - rewrite (nth_indep _ 0 (c * 0)) by (now rewrite length_map).
    apply map_nth.
  - rewrite !nth_overflow by (rewrite ?length_map; assumption). ring.
Qed.

Lemma rget_shift (k : R) (n : nat) (M : matrix R) (i j : nat) :
  square n M -> (i < n)%nat -> (j < n)%nat ->
  rget (map (map (fun x => x + k)) M) i j = rget M i j + k.
Proof.
  intros [Hlen Hrows] Hi Hj. unfold rget, mget.
  change (@nil R) with (map (fun x => x + k) []) at 1.
  rewrite map_nth.
  assert (Hrow : length (nth i M []) = n).
  { rewrite Forall_forall in Hrows. apply Hrows, nth_In. lia. }
  rewrite (nth_indep _ 0 (0 + k)) by (rewrite length_map; lia).
  exact (map_nth (fun x => x + k) (nth i M []) 0 j).
Qed.

(** X4.  Raising every connection gain by the same amount leaves the
    coupling matrix and the operator of the integrator unchanged, as
    long as the sizes stay moderate before and after: they depend on
    the gains only through their differences. *)
Theorem coupling_gain_shift (m : Model) (k : R) :
  square (length (sc m)) (gains_con m) ->
  moderate_coupling m -> moderate_coupling (shift_gains k m) ->
  sc_mod_normalized (shift_gains k m) = sc_mod_normalized m /\
  lap_adj (shift_gains k m) = lap_adj m.
Proof.
  intros Hsq _ _. apply (coupling_scale_invariant m (shift_gains k m) (exp k));
    try reflexivity; [apply exp_pos|].
  intros i j Hi Hj. unfold sc_sym, sc_mod. cbn [gains_con sc shift_gains].
  rewrite !(rget_shift k (length (sc m))) by assumption.
  rewrite !exp_plus. ring.
Qed.

Lemma zeros_2x2_square : square 2 zeros_2x2.
Proof. split; [reflexivity | repeat constructor]. Qed.

Lemma pair_model_shift_moderate :
  moderate_coupling (shift_gains (5 / 100) pair_model).
Proof.
  destruct pair_model_moderate as [H1 _ H3 H4].
  constructor; [exact H1 | | exact H3 | exact H4].
  cbn [gains_con shift_gains pair_model example_model]. unfold zeros_2x2.
  cbn [map].
  apply (rget_2x2 _ _ _ _ (fun r => Rabs r <= 20));
    try (rewrite Rabs_pos_eq; lra); rewrite Rabs_R0; lra.
Qed.

Lemma coupling_gain_shift_witness :
  sc_mod_normalized (shift_gains (5 / 100) pair_model) = sc_mod_normalized pair_model.
Proof.
  apply (coupling_gain_shift pair_model (5 / 100)).
  - exact zeros_2x2_square.
  - exact pair_model_moderate.
  - exact pair_model_shift_moderate.
Defined.

(** X5.  Scaling the structural matrix by a positive factor leaves the
    coupling matrix and the operator of the integrator unchanged, as
    long as the sizes stay moderate before and after. *)
Theorem coupling_sc_scaling (m : Model) (c : R) :
  0 < c ->
  moderate_coupling m -> moderate_coupling (scale_sc c m) ->
  sc_mod_normalized (scale_sc c m) = sc_mod_normalized m /\
  lap_adj (scale_sc c m) = lap_adj m.
Proof.
  intros Hc _ _. apply (coupling_scale_invariant m (scale_sc c m) c);
    try assumption; try reflexivity.
  - cbn [sc scale_sc]. now rewrite length_map.
  - intros i j Hi Hj. unfold sc_sym, sc_mod. cbn [gains_con sc scale_sc].
    rewrite !rget_scale. ring.
Qed.

Lemma pair_model_scale_moderate : moderate_coupling (scale_sc 3 pair_model).
Proof.
  destruct pair_model_moderate as [H1 H2 _ _].
  constructor; [exact H1 | exact H2 | |].
  - cbn [sc scale_sc pair_model example_model]. unfold ring_2x2. cbn [map].
    apply (rget_2x2 _ _ _ _ (fun r => 0 <= r <= 1000000)); lra.
  - exists 0%nat, 1%nat. split; [simpl; lia|]. split; [simpl; lia|].
    unfold rget, mget. simpl. lra.
Qed.

Lemma coupling_sc_scaling_witness :
  sc_mod_normalized (scale_sc 3 pair_model) = sc_mod_normalized pair_model.
Proof.
  apply (coupling_sc_scaling pair_model 3);
    [lra | exact pair_model_moderate | exact pair_model_scale_moderate].
Defined.

Lemma diag_comm (v : nat -> num) (i j : nat) :
  (i <> j -> diag v i j = diag v j i) /\ (i = j -> diag v i j = diag v j i).
Proof.
  split; [|now intros ->]. intros Hne. unfold diag.
  destruct (Nat.eqb_spec i j); [contradiction|].
  destruct (Nat.eqb_spec j i); [congruence | reflexivity].
Qed.

(** X7.  The operator of the integrator is symmetric for every
    structural matrix and gain matrix, with or without the Laplacian
    mode, also where its entries are NaN. *)
Theorem lap_adj_symmetric (m : Model) (i j : nat) :
  (i < length (sc m))%nat -> (j < length (sc m))%nat ->
  nget (lap_adj m) i j = nget (lap_adj m) j i.
Proof.
  intros Hi Hj.
  assert (HA : forall a b, (a < length (sc m))%nat -> (b < length (sc m))%nat ->
                nget (sc_mod_normalized m) a b = nget (sc_mod_normalized m) b a).
  { intros a b Ha Hb. rewrite !normalized_entry by assumption.
    now rewrite sc_sym_comm. }
  destruct (le_lt_dec 2 (length (sc m))) as [H2|H1].
  - rewrite lap_adj_coupled by assumption. destruct (use_Laplacian m).
    + rewrite !laplacian_entry by assumption. rewrite (HA i j) by assumption.
      destruct (Nat.eq_dec i j) as [->|Hne]; [reflexivity|].
      now rewrite (proj1 (diag_comm _ i j) Hne).
    + now apply HA.
  - assert (i = 0%nat) by lia. assert (j = 0%nat) by lia. now subst.
Qed.

Lemma lap_adj_symmetric_witness :
  nget (lap_adj pair_model) 0 1 = nget (lap_adj pair_model) 1 0.
Proof. apply (lap_adj_symmetric pair_model 0 1); simpl; lia. Defined.

Lemma laplacian_entry_Fin (n : nat) (A : matrix num) (a : nat -> nat -> R)
    (i j : nat) :
  (forall r c, (r < n)%nat -> (c < n)%nat -> nget A r c = Fin (a r c)) ->
  (i < n)%nat -> (j < n)%nat ->
  nget (laplacian n A) i j
  = Fin ((if Nat.eqb i j then - rsum n (a i) else 0) + a i j).
Proof.
  intros Ha Hi Hj. rewrite laplacian_entry, Ha by assumption. unfold diag.
  destruct (Nat.eqb i j).
  - rewrite (tsum_ext n _ (fun c => Fin (a i c))) by (intros; now apply Ha).
    now rewrite tsum_Fin.
  - simpl. f_equal. ring.
Qed.

(** X8.  With the Laplacian mode on, 2 regions or more and moderate
    sizes, regions whose sampled activity is the same value in [-1, 1]
    receive no coupling input: the product of the operator with a
    constant column is zero. *)
Theorem laplacian_synchrony (m : Model) (E : nat -> nat -> num) (e : R)
    (i s : nat) :
  use_Laplacian m = true ->
  (2 <= length (sc m))%nat ->
  length (sc m) = node_size m ->
  moderate_coupling m ->
  Rabs e <= 1 ->
  (forall k, (k < node_size m)%nat -> E k s = Fin e) ->
  (i < node_size m)%nat ->
  matmul m (lap_adj m) E i s = Fin 0.
Proof.
  intros Hl H2 Hsc Hmod _ HE Hi. unfold matmul.
  pose proof (moderate_norm_pos m Hmod) as Hpos.
  rewrite lap_adj_coupled, Hl by assumption. rewrite Hsc in *.
  set (n := node_size m) in *.
  set (a := fun r c => sc_sym m r c / fro_norm n (sc_sym m)).
  assert (Ha : forall r c, (r < n)%nat -> (c < n)%nat ->
             nget (sc_mod_normalized m) r c = Fin (a r c)).
  { intros r c Hr Hc. subst a n. cbv beta. rewrite <- Hsc in *.
    now apply normalized_finite. }
  rewrite (tsum_ext n _ (fun k =>
    Fin (e * ((if Nat.eqb i k then - rsum n (a i) else 0) + a i k)))).
  - rewrite tsum_Fin, rsum_scale, rsum_plus, rsum_single by assumption.
    f_equal. replace (fun j => a i j) with (a i) by reflexivity. ring.
  - intros k Hk. rewrite (laplacian_entry_Fin n _ a) by assumption.
    rewrite HE by assumption. simpl. f_equal. ring.
Qed.

Lemma laplacian_synchrony_witness :
  matmul pair_model (lap_adj pair_model) (fun _ _ => Fin (1 / 2)) 0 0 = Fin 0.
Proof.
  apply (laplacian_synchrony pair_model (fun _ _ => Fin (1 / 2)) (1 / 2) 0 0);
    try reflexivity; try (simpl; lia).
  - exact pair_model_moderate.
  - rewrite Rabs_pos_eq; lra.
Defined.

(** ** State and histories of a call *)

Lemma nget_current_state (m : Model) (nz : Noise) (hx : matrix num) (i c : nat) :
  (i < node_size m)%nat ->
  nget (current_state (assemble m nz hx)) i c
  = nth c [E_mean (run_neural m nz hx) i; I_mean (run_neural m nz hx) i;
           s_x (run_hemo m nz hx) i; s_f (run_hemo m nz hx) i;
           s_v (run_hemo m nz hx) i; s_q (run_hemo m nz hx) i] NaN.
Proof.
  intros Hi. unfold nget, mget. now rewrite current_state_row.
Qed.

(** X10.  Under the smooth-saturation policy, with at least one fine
    step per period, the windows of x, f, v and q have one column per
    period, every entry of [x_window] is NaN or in [-1, 1], and every
    entry of [f_window], [v_window] and [q_window] is NaN or in
    [0, 2]. *)
Theorem smooth_window_ranges {X H : Type} (m : Model) (nz : Noise) (ext : X)
    (hx : matrix num) (hE : H) :
  (1 <= node_size m)%nat ->
  (1 <= steps_per_TR m)%Z ->
  use_dynamic_boundary m = true ->
  exists ns m' (wx wf wv wq : nat -> nat -> num),
    integration_forward m nz ext hx hE = Some ((ns, hE), m') /\
    x_window ns = tabulate2 (node_size m) (TRs_per_window m) wx /\
    f_window ns = tabulate2 (node_size m) (TRs_per_window m) wf /\
    v_window ns = tabulate2 (node_size m) (TRs_per_window m) wv /\
    q_window ns = tabulate2 (node_size m) (TRs_per_window m) wq /\
    forall i t, (i < node_size m)%nat -> (t < TRs_per_window m)%nat ->
      nan_or (fun r => -1 <= r <= 1) (wx i t) /\
      nan_or (fun r => 0 <= r <= 2) (wf i t) /\
      nan_or (fun r => 0 <= r <= 2) (wv i t) /\
      nan_or (fun r => 0 <= r <= 2) (wq i t).
Proof.
  intros Hn HK Hs.
  exists (assemble m nz hx), (store_coupling m),
    (x_win (run_hemo m nz hx)), (f_win (run_hemo m nz hx)),
    (v_win (run_hemo m nz hx)), (q_win (run_hemo m nz hx)).
  destruct (run_hemo_smooth m nz hx Hs ltac:(lia)) as [_ Hw].
  split; [apply forward_returns; [lia | exact Hn]|].
  do 4 (split; [reflexivity|]).
  intros i t Hi Ht. exact (Hw t Ht i Hi).
Qed.

Lemma smooth_window_ranges_witness :
  exists ns m' wx,
    integration_forward (single_region_model true) zero_noise tt rest_state tt
    = Some ((ns, tt), m') /\
    x_window ns = tabulate2 1 1 wx /\
    nan_or (fun r => -1 <= r <= 1) (wx 0%nat 0%nat).
Proof.
  destruct (smooth_window_ranges (single_region_model true) zero_noise tt
              rest_state tt)
    as (ns & m' & wx & wf & wv & wq & Hret & Ex & _ & _ & _ & Hw);
    try reflexivity; try (simpl; lia).
  exists ns, m', wx. split; [assumption|]. split; [exact Ex|].
  apply (Hw 0%nat 0%nat); simpl; lia.
Defined.

(** X11.  Under the hard-clamp policy, with at least one period and one
    fine step, the E and I of [current_state] are NaN or positive (they
    are means of floored values, not saturated), and every entry of
    [E_window] and [I_window], the tanh of such a mean, is NaN or in
    (0, 1]. *)
Theorem hard_clamp_neural_bounds {X H : Type} (m : Model) (nz : Noise) (ext : X)
    (hx : matrix num) (hE : H) :
  (1 <= node_size m)%nat ->
  (1 <= TRs_per_window m)%nat ->
  (1 <= steps_per_TR m)%Z ->
  use_dynamic_boundary m = false ->
  exists ns m' (wE wI : nat -> nat -> num),
    integration_forward m nz ext hx hE = Some ((ns, hE), m') /\
    (forall i, (i < node_size m)%nat ->
       exists E I x f v q : num,
         nth i (current_state ns) [] = [E; I; x; f; v; q] /\
         nan_or (fun r => 0 < r) E /\ nan_or (fun r => 0 < r) I) /\
    E_window ns
    = tabulate2 (node_size m) (TRs_per_window m * Z.to_nat (steps_per_TR m)) wE /\
    I_window ns
    = tabulate2 (node_size m) (TRs_per_window m * Z.to_nat (steps_per_TR m)) wI /\
    forall i k, (i < node_size m)%nat ->
      (k < TRs_per_window m * Z.to_nat (steps_per_TR m))%nat ->
      nan_or (fun r => 0 < r <= 1) (wE i k) /\
      nan_or (fun r => 0 < r <= 1) (wI i k).
Proof.
  intros Hn HT HK Hs.
  assert (HK' : (0 < Z.to_nat (steps_per_TR m))%nat) by lia.
  destruct (run_neural_hard m nz hx Hs) as [Hm Hh].
  assert (Hpos : forall r, c_1e5 <= r -> 0 < r) by (unfold c_1e5; intros; lra).
  exists (assemble m nz hx), (store_coupling m),
    (fun i k => E_hist (run_neural m nz hx) i
                  (k / Z.to_nat (steps_per_TR m))%nat
                  (k mod Z.to_nat (steps_per_TR m))%nat),
    (fun i k => I_hist (run_neural m nz hx) i
                  (k / Z.to_nat (steps_per_TR m))%nat
                  (k mod Z.to_nat (steps_per_TR m))%nat).
  split; [apply forward_returns; [lia | exact Hn]|].
  split; [|split; [reflexivity | split; [reflexivity|]]].
  - intros i Hi. rewrite current_state_row by assumption.
    destruct (Hm ltac:(lia) HK' i Hi) as [HE HI].
    do 6 eexists. split; [reflexivity|].
    split; [exact (nan_or_weaken _ _ _ Hpos HE) | exact (nan_or_weaken _ _ _ Hpos HI)].
  - intros i k Hi Hk.
    assert (Ht : (k / Z.to_nat (steps_per_TR m) < TRs_per_window m)%nat)
      by (apply Nat.Div0.div_lt_upper_bound; lia).
    assert (Hs' : (k mod Z.to_nat (steps_per_TR m) < Z.to_nat (steps_per_TR m))%nat)
      by (apply Nat.mod_upper_bound; lia).
    exact (Hh _ _ Ht Hs' i Hi).
Qed.

Lemma hard_clamp_neural_bounds_witness :
  exists ns m' wE,
    integration_forward (single_region_model false) zero_noise tt rest_state tt
    = Some ((ns, tt), m') /\
    E_window ns = tabulate2 1 1 wE /\
    nan_or (fun r => 0 < r <= 1) (wE 0%nat 0%nat).
Proof.
  destruct (hard_clamp_neural_bounds (single_region_model false) zero_noise tt
              rest_state tt)
    as (ns & m' & wE & wI & Hret & _ & EE & _ & Hw);
    try reflexivity; try (simpl; lia).
  exists ns, m', wE. split; [assumption|]. split; [exact EE|].
  apply (Hw 0%nat 0%nat); simpl; lia.
Defined.

Lemma neural_loop_last (m : Model)
    (step : nat -> nat -> neural_state -> neural_state) (st : neural_state)
    (T' K' : nat) :
  TRs_per_window m = S T' -> Z.to_nat (steps_per_TR m) = S K' ->
  exists st', neural_loop m step st = step T' K' st'.
Proof.
  intros HT HK. unfold neural_loop. rewrite HT, HK.
  rewrite for_range_S, for_range_S. eexists. reflexivity.
Qed.

Lemma hemo_loop_last (m : Model) (nz : Noise)
    (step : nat -> nat -> hemo_state -> hemo_state) (st : hemo_state) (T' : nat) :
  TRs_per_window m = S T' ->
  exists st', hemo_loop m nz step st = record_TR m nz T' st'.
Proof.
  intros HT. unfold hemo_loop. rewrite HT, for_range_S. eexists. reflexivity.
Qed.

Lemma last_index (T' K' : nat) :
  ((S T' * S K' - 1) / S K' = T')%nat /\ ((S T' * S K' - 1) mod S K' = K')%nat.
Proof.
  assert (E : (S T' * S K' - 1 = S K' * T' + K')%nat) by lia.
  split.
  - symmetry. apply (Nat.div_unique _ _ T' K'); lia.
  - symmetry. apply (Nat.mod_unique _ _ T' K'); lia.
Qed.

(** X12.  With at least one period and one step, the last column of
    [E_window] and of [I_window] is the mean that the call returns in
    [current_state] under the smooth-saturation policy, and the tanh of
    that mean under the hard-clamp policy. *)
Theorem last_history_entry {X H : Type} (m : Model) (nz : Noise) (ext : X)
    (hx : matrix num) (hE : H) :
  (1 <= steps_per_TR m)%Z ->
  (1 <= TRs_per_window m)%nat ->
  (1 <= node_size m)%nat ->
  exists ns m',
    integration_forward m nz ext hx hE = Some ((ns, hE), m') /\
    forall i, (i < node_size m)%nat ->
      let last := (TRs_per_window m * Z.to_nat (steps_per_TR m) - 1)%nat in
      nget (E_window ns) i last
      = (if use_dynamic_boundary m then nget (current_state ns) i 0
         else ttanh (nget (current_state ns) i 0)) /\
      nget (I_window ns) i last
      = (if use_dynamic_boundary m then nget (current_state ns) i 1
         else ttanh (nget (current_state ns) i 1)).
Proof.
  intros HK HT Hn. exists (assemble m nz hx), (store_coupling m).
  split; [apply forward_returns; [lia | exact Hn]|].
  intros i Hi. cbv zeta. rewrite !nget_current_state by assumption. cbn [nth].
  destruct (TRs_per_window m) as [|T'] eqn:ET; [lia|].
  destruct (Z.to_nat (steps_per_TR m)) as [|K'] eqn:EK; [lia|].
  assert (Hlast : (S T' * S K' - 1 < TRs_per_window m * Z.to_nat (steps_per_TR m))%nat)
    by (rewrite ET, EK; lia).
  unfold assemble; cbv zeta; cbn [E_window I_window].
  destruct (reshape_hist_entry m (E_hist (run_neural m nz hx)) i _ Hi Hlast)
    as (-> & _ & _).
  destruct (reshape_hist_entry m (I_hist (run_neural m nz hx)) i _ Hi Hlast)
    as (-> & _ & _).
  rewrite EK. destruct (last_index T' K') as [-> ->].
  unfold run_neural. destruct (use_dynamic_boundary m).
  - destruct (neural_loop_last m (neural_step_smooth m nz (lap_adj m))
                (init_neural hx) T' K' ET EK) as [st' ->].
    unfold neural_step_smooth; cbv zeta; cbn [E_hist I_hist E_mean I_mean].
    now rewrite !upd_hist_same.
  - destruct (neural_loop_last m (neural_step_hard m nz (lap_adj m))
                (init_neural hx) T' K' ET EK) as [st' ->].
    unfold neural_step_hard; cbv zeta; cbn [E_hist I_hist E_mean I_mean].
    now rewrite !upd_hist_same.
Qed.

Lemma last_history_entry_witness :
  exists ns m',
    integration_forward (single_region_model false) zero_noise tt rest_state tt
    = Some ((ns, tt), m') /\
    nget (E_window ns) 0 0 = ttanh (nget (current_state ns) 0 0).
Proof.
  destruct (last_history_entry (single_region_model false) zero_noise tt
              rest_state tt) as (ns & m' & Hret & Hl); try (simpl; lia).
  exists ns, m'. split; [assumption|]. apply (Hl 0%nat). simpl; lia.
Defined.

(** X13.  With at least one period, the last column of [x_window],
    [f_window], [v_window] and [q_window] is the x, f, v, q that the
    call returns in [current_state], under either policy. *)
Theorem window_last_column {X H : Type} (m : Model) (nz : Noise) (ext : X)
    (hx : matrix num) (hE : H) :
  (0 <= steps_per_TR m)%Z ->
  (1 <= TRs_per_window m)%nat ->
  (1 <= node_size m)%nat ->
  exists ns m',
    integration_forward m nz ext hx hE = Some ((ns, hE), m') /\
    forall i, (i < node_size m)%nat ->
      let last := (TRs_per_window m - 1)%nat in
      nget (x_window ns) i last = nget (current_state ns) i 2 /\
      nget (f_window ns) i last = nget (current_state ns) i 3 /\
      nget (v_window ns) i last = nget (current_state ns) i 4 /\
      nget (q_window ns) i last = nget (current_state ns) i 5.
Proof.
  intros HK HT Hn. exists (assemble m nz hx), (store_coupling m).
  split; [apply forward_returns; [lia | exact Hn]|].
  intros i Hi. cbv zeta. rewrite !nget_current_state by assumption. cbn [nth].
  unfold assemble; cbv zeta; cbn [x_window f_window v_window q_window].
  unfold nget. rewrite !mget_tabulate2 by lia.
  destruct (TRs_per_window m) as [|T'] eqn:ET; [lia|].
  replace (S T' - 1)%nat with T' by lia.
  unfold run_hemo. destruct (use_dynamic_boundary m).
  - destruct (hemo_loop_last m nz (hemo_step_smooth m (E_hist (run_neural m nz hx)))
                (init_hemo hx) T' ET) as [st' ->].
    unfold record_TR; cbn [x_win f_win v_win q_win s_x s_f s_v s_q].
    unfold upd_win. now rewrite Nat.eqb_refl.
  - destruct (hemo_loop_last m nz (hemo_step_hard m (E_hist (run_neural m nz hx)))
                (init_hemo hx) T' ET) as [st' ->].
    unfold record_TR; cbn [x_win f_win v_win q_win s_x s_f s_v s_q].
    unfold upd_win. now rewrite Nat.eqb_refl.
Qed.

Lemma window_last_column_witness :
  exists ns m',
    integration_forward (single_region_model true) zero_noise tt rest_state tt
    = Some ((ns, tt), m') /\
    nget (f_window ns) 0 0 = nget (current_state ns) 0 3.
Proof.
  destruct (window_last_column (single_region_model true) zero_noise tt
              rest_state tt) as (ns & m' & Hret & Hl); try (simpl; lia).
  exists ns, m'. split; [assumption|]. apply (Hl 0%nat). simpl; lia.
Defined.

(** ** BOLD samples *)

Section HemoBold.

Variable m : Model.
Variable nz : Noise.
Variable step : nat -> nat -> hemo_state -> hemo_state.

Hypothesis step_frame : forall t s st,
  v_win (step t s st) = v_win st /\ q_win (step t s st) = q_win st /\
  bold_win (step t s st) = bold_win st.

Lemma hemo_steps_frame (t : nat) (K : nat) (st : hemo_state) :
  let st' := for_range K (fun step_i st => step t step_i st) st in
  v_win st' = v_win st /\ q_win st' = q_win st /\ bold_win st' = bold_win st.
Proof.
  cbv zeta.
  apply (for_range_ind (fun _ st' =>
    v_win st' = v_win st /\ q_win st' = q_win st /\ bold_win st' = bold_win st)).
  - repeat split.
  - cbv beta. intros s st' _ (Hv & Hq & Hb).
    destruct (step_frame t s st') as (-> & -> & ->). auto.
Qed.

Lemma hemo_loop_bold (st0 : hemo_state) (t i : nat) :
  (t < TRs_per_window m)%nat ->
  bold_win (hemo_loop m nz step st0) i t
  = bold_signal m (xi_bold nz t i)
      (v_win (hemo_loop m nz step st0) i t) (q_win (hemo_loop m nz step st0) i t).
Proof.
  unfold hemo_loop. revert t.
  apply (for_range_ind (fun T st =>
    forall t, (t < T)%nat ->
      bold_win st i t
      = bold_signal m (xi_bold nz t i) (v_win st i t) (q_win st i t))).
  - cbv beta. intros; lia.
  - cbv beta. intros T st HT IH t Ht.
    destruct (hemo_steps_frame T (Z.to_nat (steps_per_TR m)) st) as (Hv & Hq & Hb).
    cbv zeta in Hv, Hq, Hb.
    unfold record_TR; cbn [v_win q_win bold_win]. unfold upd_win.
    destruct (Nat.eqb_spec t T) as [->|Hne]; [reflexivity|].
    rewrite Hv, Hq, Hb. apply IH. lia.
Qed.

End HemoBold.

Lemma run_hemo_bold (m : Model) (nz : Noise) (hx : matrix num) (t i : nat) :
  (t < TRs_per_window m)%nat ->
  bold_win (run_hemo m nz hx) i t
  = bold_signal m (xi_bold nz t i)
      (v_win (run_hemo m nz hx) i t) (q_win (run_hemo m nz hx) i t).
Proof.
  intros Ht. unfold run_hemo.
  destruct (use_dynamic_boundary m); apply hemo_loop_bold; try assumption;
    intros; repeat split.
Qed.

(** X14.  Under either policy, every BOLD sample that a call returns is
    the observation equation applied to the entries of [v_window] and
    [q_window] of the same region and period, with the observation
    noise drawn for that period and region. *)
Theorem bold_from_windows {X H : Type} (m : Model) (nz : Noise) (ext : X)
    (hx : matrix num) (hE : H) :
  (0 <= steps_per_TR m)%Z ->
  (1 <= node_size m)%nat ->
  exists ns m',
    integration_forward m nz ext hx hE = Some ((ns, hE), m') /\
    forall i t, (i < node_size m)%nat -> (t < TRs_per_window m)%nat ->
      nget (bold_window ns) i t
      = bold_signal m (xi_bold nz t i)
          (nget (v_window ns) i t) (nget (q_window ns) i t).
Proof.
  intros HK Hn. exists (assemble m nz hx), (store_coupling m).
  split; [apply forward_returns; assumption|].
  intros i t Hi Ht. unfold assemble; cbv zeta.
  cbn [bold_window v_window q_window]. unfold nget.
  rewrite !mget_tabulate2 by assumption. now apply run_hemo_bold.
Qed.

Lemma bold_from_windows_witness :
  exists ns m',
    integration_forward (single_region_model true) zero_noise tt rest_state tt
    = Some ((ns, tt), m') /\
    nget (bold_window ns) 0 0
    = bold_signal (single_region_model true) 0
        (nget (v_window ns) 0 0) (nget (q_window ns) 0 0).
Proof.
  destruct (bold_from_windows (single_region_model true) zero_noise tt
              rest_state tt) as (ns & m' & Hret & Hb); try (simpl; lia).
  exists ns, m'. split; [assumption|]. apply (Hb 0%nat 0%nat); simpl; lia.
Defined.

(** ** Edge cases of a call *)

(** X16.  With [sampling_size = 0] the mean over the samples is the
    mean of nothing: under either policy [E_window] and [I_window] have
    one row per region and one column per fine step, and every entry
    is NaN. *)
Theorem no_samples_NaN {X H : Type} (m : Model) (nz : Noise) (ext : X)
    (hx : matrix num) (hE : H) :
  sampling_size m = 0%nat ->
  (0 <= steps_per_TR m)%Z ->
  (1 <= node_size m)%nat ->
  exists ns m',
    integration_forward m nz ext hx hE = Some ((ns, hE), m') /\
    E_window ns
    = tabulate2 (node_size m) (TRs_per_window m * Z.to_nat (steps_per_TR m))
        (fun _ _ => NaN) /\
    I_window ns
    = tabulate2 (node_size m) (TRs_per_window m * Z.to_nat (steps_per_TR m))
        (fun _ _ => NaN).
Proof.
  intros HS HK Hn. exists (assemble m nz hx), (store_coupling m).
  split; [apply forward_returns; assumption|].
  assert (Hh : forall t s, (t < TRs_per_window m)%nat ->
            (s < Z.to_nat (steps_per_TR m))%nat ->
            hist_entries (node_size m) (fun x => x = NaN) (fun x => x = NaN)
              (run_neural m nz hx) t s).
  { unfold run_neural. destruct (use_dynamic_boundary m).
    - destruct (neural_loop_inv m (neural_step_smooth m nz (lap_adj m))
                  (fun _ => True) (fun _ => True) (fun x => x = NaN) (fun x => x = NaN))
        with (st0 := init_neural hx) as (_ & _ & Hh); auto.
      + intros t' s' st i' _ _.
        unfold neural_step_smooth; cbv zeta; cbn [E_hist I_hist].
        rewrite !upd_hist_same, HS.
        rewrite !tmean_NaN by (intros; lia). now split.
      + intros t' s' st i' t'' s'' Hne.
        unfold neural_step_smooth; cbv zeta; cbn [E_hist I_hist].
        now rewrite !upd_hist_other.
    - destruct (neural_loop_inv m (neural_step_hard m nz (lap_adj m))
                  (fun _ => True) (fun _ => True) (fun x => x = NaN) (fun x => x = NaN))
        with (st0 := init_neural hx) as (_ & _ & Hh); auto.
      + intros t' s' st i' _ _.
        unfold neural_step_hard; cbv zeta; cbn [E_hist I_hist].
        rewrite !upd_hist_same, HS.
        rewrite !tmean_NaN by (intros; lia). now split.
      + intros t' s' st i' t'' s'' Hne.
        unfold neural_step_hard; cbv zeta; cbn [E_hist I_hist].
        now rewrite !upd_hist_other. }
  unfold assemble; cbv zeta; cbn [E_window I_window]. unfold reshape_hist. cbv zeta.
  split; apply tabulate2_ext; intros i k Hi Hk.
  - destruct (reshape_hist_entry m (E_hist (run_neural m nz hx)) i k Hi Hk)
      as (_ & Ht & Hs). apply (Hh _ _ Ht Hs i Hi).
  - destruct (reshape_hist_entry m (I_hist (run_neural m nz hx)) i k Hi Hk)
      as (_ & Ht & Hs). apply (Hh _ _ Ht Hs i Hi).
Qed.

Lemma no_samples_NaN_witness :
  exists ns m',
    integration_forward (example_model 1 1 1 0 [[0]] [[0]] true true)
      zero_noise tt rest_state tt = Some ((ns, tt), m') /\
    E_window ns = [[NaN]].
Proof.
  destruct (no_samples_NaN (example_model 1 1 1 0 [[0]] [[0]] true true)
              zero_noise tt rest_state tt) as (ns & m' & Hret & HE & _);
    try reflexivity; try (simpl; lia).
  exists ns, m'. split; assumption.
Defined.



(** ** Construction *)

(** X18.  When [tr] is a whole multiple [k] of a positive [step_size],
    the constructor sets the number of fine steps per period to [k]. *)
Theorem init_exact_multiple (node_size_ TRs_per_window_ : nat) (step_size_ : R)
    (sampling_size_ : nat) (k : nat) (sc_ : matrix R) (use_fit_gains_ : bool)
    (param_ : Params)
    (use_Bifurcation_ use_Gaussian_EI_ use_Laplacian_ use_dynamic_boundary_ : bool)
    (gains_con_ : matrix R) :
  0 < step_size_ ->
  exists m,
    RNNRWW_init node_size_ TRs_per_window_ step_size_ sampling_size_
      (INR k * step_size_) sc_ use_fit_gains_ param_ use_Bifurcation_
      use_Gaussian_EI_ use_Laplacian_ use_dynamic_boundary_ gains_con_ = Some m /\
    steps_per_TR m = Z.of_nat k /\ Z.to_nat (steps_per_TR m) = k.
Proof.
  intros Hs. unfold RNNRWW_init.
  destruct (Req_dec_T step_size_ 0) as [E|_]; [lra|].
  eexists; split; [reflexivity|]. cbn [steps_per_TR].
  replace (INR k * step_size_ / step_size_) with (INR k) by (field; lra).
  rewrite py_int_floor by apply pos_INR. rewrite Int_part_INR.
  split; [reflexivity | apply Nat2Z.id].
Qed.

Lemma init_exact_multiple_witness :
  exists m,
    RNNRWW_init 1 1 (5 / 100) 1 (INR 20 * (5 / 100)) [[0]] false example_params
      true false true true [[0]] = Some m /\
    steps_per_TR m = 20%Z.
Proof.
  destruct (init_exact_multiple 1 1 (5 / 100) 1 20 [[0]] false example_params
              true false true true [[0]]) as (m & Hi & HK & _); [lra|].
  exists m. split; assumption.
Defined.

(** X19.  For a negative [tr] and a positive [step_size] the constructor
    truncates towards zero: the step count is 0 while [tr > - step_size]
    (the floor would be -1), and it is negative for [tr <= - step_size],
    in which case every call raises. *)
Theorem init_negative_tr (node_size_ TRs_per_window_ : nat) (step_size_ : R)
    (sampling_size_ : nat) (tr_ : R) (sc_ : matrix R) (use_fit_gains_ : bool)
    (param_ : Params)
    (use_Bifurcation_ use_Gaussian_EI_ use_Laplacian_ use_dynamic_boundary_ : bool)
    (gains_con_ : matrix R) :
  0 < step_size_ -> tr_ < 0 ->
  exists m,
    RNNRWW_init node_size_ TRs_per_window_ step_size_ sampling_size_ tr_ sc_
      use_fit_gains_ param_ use_Bifurcation_ use_Gaussian_EI_ use_Laplacian_
      use_dynamic_boundary_ gains_con_ = Some m /\
    (- step_size_ < tr_ ->
       steps_per_TR m = 0%Z /\ Int_part (tr_ / step_size_) = (-1)%Z) /\
    (tr_ <= - step_size_ ->
       (steps_per_TR m < 0)%Z /\
       forall (nz : Noise) (hx : matrix num),
         integration_forward m nz tt hx tt = None).
Proof.
  intros Hs Htr. unfold RNNRWW_init.
  destruct (Req_dec_T step_size_ 0) as [E|_]; [lra|].
  eexists; split; [reflexivity|]. cbn [steps_per_TR].
  set (r := tr_ / step_size_).
  assert (Hr : r * step_size_ = tr_) by (unfold r; field; lra).
  assert (Hneg : r < 0) by nra.
  unfold py_int. destruct (Rle_dec 0 r) as [H0|_]; [lra|].
  destruct (base_Int_part (- r)) as [Hlo Hhi].
  split.
  - intros Hgt. assert (-1 < r) by nra. split.
    + assert (Int_part (- r) = 0%Z) as ->; [|reflexivity].
      symmetry. apply Int_part_spec. simpl. lra.
    + symmetry. apply Int_part_spec. simpl. lra.
  - intros Hle. assert (r <= -1) by nra.
    assert (HI : (1 <= Int_part (- r))%Z).
    { apply le_IZR. simpl.
      destruct (Z_lt_le_dec (Int_part (- r)) 1) as [Hlt|Hge]; [|now apply IZR_le].
      assert (IZR (Int_part (- r)) <= 0).
      { replace 0 with (IZR 0) by reflexivity. apply IZR_le. lia. }
      lra. }
    split; [lia|]. intros nz hx. unfold integration_forward.
    cbn [steps_per_TR].
    destruct (Z.ltb_spec (- Int_part (- r)) 0); [reflexivity | lia].
Qed.

Lemma init_negative_tr_witness :
  exists m,
    RNNRWW_init 1 1 1 1 (-2) [[0]] false example_params true false true true
      [[0]] = Some m /\
    integration_forward m zero_noise tt rest_state tt = None.
Proof.
  destruct (init_negative_tr 1 1 1 1 (-2) [[0]] false example_params
              true false true true [[0]]) as (m & Hi & _ & Hneg); [lra | lra |].
  exists m. split; [exact Hi|]. apply Hneg. lra.
Defined.

(** ** Parameter materialisation, continued *)

Module MaterializerMore.

Import String.
Import Materializer.
Import MaterializerExamples.
Import MaterializerFacts.
Local Open Scope string_scope.

Lemma param_after_visit_all (cfg : config) (st : state) :
  param_after (visit_all cfg st)
  = (param_after st
     ++ map (fun e =>
          if prefix "__" (fst e) then e
          else match snd e with
               | IsPar v =>
                   (fst e, IsPar (if fit_hyper v
                                  then randSet (draw cfg (fst e)) v else v))
               | Other => (fst e, Other)
               end) (param cfg))%list.
Proof.
  unfold visit_all. revert st.
  induction (param cfg) as [|[name a] l IH]; intros st.
  - simpl. now rewrite app_nil_r.
  - cbn [fold_left map fst snd]. rewrite IH.
    destruct (prefix "__" name).
    + cbn [keep_entry param_after]. now rewrite <- app_assoc.
    + destruct a as [v|]; unfold visit; cbv zeta;
        cbn [keep_entry param_after set_attr].
      * destruct (fit_hyper v), (fit_par _);
          cbn [append_reg append_hyper param_after];
          now rewrite <- app_assoc.
      * now rewrite <- app_assoc.
Qed.

Lemma blocks_param_after (cfg : config) :
  param_after (gains_block cfg
    ((if use_Bifurcation cfg then bifurcation_block else fun st => st)
       ((if use_Gaussian_EI cfg then gaussian_EI_block else fun st => st)
          empty_state))) = [].
Proof.
  unfold gains_block.
  destruct (use_Gaussian_EI cfg), (use_Bifurcation cfg), (use_fit_gains cfg);
    reflexivity.
Qed.

Lemma setModelParameters_unfold (cfg : config) :
  setModelParameters cfg
  = visit_all cfg (gains_block cfg
      ((if use_Bifurcation cfg then bifurcation_block else fun st => st)
         ((if use_Gaussian_EI cfg then gaussian_EI_block else fun st => st)
            empty_state))).
Proof.
  unfold setModelParameters. cbv zeta.
  now destruct (use_Gaussian_EI cfg), (use_Bifurcation cfg).
Qed.

(** X20.  The call leaves the parameter container with the same entries
    in the same order: an entry with [fit_hyper] has its current value
    replaced by the draw of [randSet] and nothing else changed, every
    other attribute is untouched; when no entry has [fit_hyper] the
    container is unchanged. *)
Theorem container_after (cfg : config) :
  let st := setModelParameters cfg in
  map fst (param_after st) = map fst (param cfg) /\
  (forall k name v, nth_error (param cfg) k = Some (name, IsPar v) ->
     prefix "__" name = false -> fit_hyper v = true ->
     nth_error (param_after st) k
     = Some (name, IsPar (randSet (draw cfg name) v))) /\
  (forall k name v, nth_error (param cfg) k = Some (name, IsPar v) ->
     fit_hyper v = false ->
     nth_error (param_after st) k = Some (name, IsPar v)) /\
  ((forall name v, In (name, IsPar v) (param cfg) -> fit_hyper v = false) ->
   param_after st = param cfg).
Proof.
  cbv zeta. rewrite setModelParameters_unfold, param_after_visit_all,
    blocks_param_after. cbn [app].
  split; [|split; [|split]].
  - rewrite map_map. apply map_ext. intros [name a]. cbn [fst snd].
    destruct (prefix "__" name); [reflexivity|]. now destruct a.
  - intros k name v Hk Hp Hh. rewrite nth_error_map, Hk. cbn [option_map fst snd].
    now rewrite Hp, Hh.
  - intros k name v Hk Hh. rewrite nth_error_map, Hk. cbn [option_map fst snd].
    rewrite Hh. now destruct (prefix "__" name).
  - intros Hno. rewrite <- (map_id (param cfg)) at 2.
    apply map_ext_in. intros [name a] Hin. cbn [fst snd].
    destruct (prefix "__" name); [reflexivity|].
    destruct a as [v|]; [|reflexivity]. now rewrite (Hno name v Hin).
Qed.

Lemma visited_in (cfg : config) (name : string) (v1 : par) :
  In (name, v1) (visited cfg) <->
  exists v, In (name, IsPar v) (param cfg) /\ prefix "__" name = false /\
            v1 = (if fit_hyper v then randSet (draw cfg name) v else v).
Proof.
  unfold visited. rewrite in_flat_map. split.
  - intros ([k a] & Hin & H). cbn [fst snd] in H.
    destruct (prefix "__" k) eqn:Hp; [contradiction|].
    destruct a as [v|]; [|contradiction].
    destruct H as [E|[]]. injection E as <- <-. exists v. auto.
  - intros (v & Hin & Hp & ->). exists (name, IsPar v). split; [exact Hin|].
    cbn [fst snd]. rewrite Hp. now left.
Qed.

Lemma visited_NoDup (cfg : config) :
  NoDup (map fst (param cfg)) -> NoDup (map fst (visited cfg)).
Proof.
  unfold visited. induction (param cfg) as [|[k a] l IH]; intros Hnd.
  - constructor.
  - cbn [map fst] in Hnd. apply NoDup_cons_iff in Hnd as [Hnot Hnd].
    cbn [flat_map fst snd]. rewrite map_app. apply NoDup_app; [| now apply IH |].
    + destruct (prefix "__" k); [constructor|].
      destruct a; repeat constructor. simpl; tauto.
    + intros name H1 H2.
      assert (name = k) as ->.
      { destruct (prefix "__" k); [contradiction|].
        destruct a; [|contradiction]. now destruct H1 as [<-|[]]. }
      apply Hnot. apply in_map_iff in H2 as ([k' v'] & E & Hin).
      cbn [fst] in E. subst k'. apply in_flat_map in Hin as ([k2 a2] & Hin & H).
      cbn [fst snd] in H. destruct (prefix "__" k2); [contradiction|].
      destruct a2; [|contradiction]. destruct H as [E|[]]. injection E as -> _.
      apply in_map_iff. now exists (k, IsPar v).
Qed.

Lemma get_attr_app (name : string) (l1 l2 : list (string * tensor)) :
  get_attr name (l1 ++ l2)
  = match get_attr name l1 with
    | Some t => Some t
    | None => get_attr name l2
    end.
Proof.
  induction l1 as [|[k t] l1 IH]; [reflexivity|]. simpl.
  now destruct (String.eqb k name).
Qed.

Lemma get_attr_loop_in (name : string) (v : par) (l : list (string * par))
    (rest : list (string * tensor)) :
  NoDup (map fst l) -> In (name, v) l ->
  get_attr name (loop_attrs l ++ rest) = Some (val_tensor name v).
Proof.
  revert rest. induction l as [|[k w] l IH]; intros rest Hnd Hin; [contradiction|].
  cbn [map fst] in Hnd. apply NoDup_cons_iff in Hnd as [Hnot Hnd].
  unfold loop_attrs in *. cbn [map rev fst snd]. rewrite <- app_assoc.
  destruct Hin as [E|Hin].
  - injection E as -> ->.
    pose proof (get_attr_loop name l ([(name, val_tensor name v)] ++ rest) Hnot) as HL.
    unfold loop_attrs in HL. rewrite HL. simpl. now rewrite String.eqb_refl.
  - now apply IH.
Qed.

(** X21.  When the attributes of the parameter container have distinct
    names, every entry of type [par] whose name does not start with two
    underscores is left on the model as the attribute of the same name,
    bound to the current value of the entry (the draw of [randSet] when
    the entry has [fit_hyper]), whatever its flags. *)
Theorem entry_exposed (cfg : config) (name : string) (v : par) :
  NoDup (map fst (param cfg)) ->
  In (name, IsPar v) (param cfg) ->
  prefix "__" name = false ->
  get_attr name (attrs (setModelParameters cfg))
  = Some (val_tensor name
            (if fit_hyper v then randSet (draw cfg name) v else v)).
Proof.
  intros Hnd Hin Hp. destruct (setModelParameters_lists cfg) as (_ & _ & ->).
  apply get_attr_loop_in; [now apply visited_NoDup|].
  apply visited_in. exists v. auto.
Qed.

Lemma entry_exposed_witness :
  exists t,
    get_attr "g" (attrs (setModelParameters (one_entry true))) = Some t /\
    data t = Scalar 21.
Proof.
  eexists. split.
  - apply (entry_exposed (one_entry true) "g").
    + repeat constructor. simpl; tauto.
    + left. reflexivity.
    + reflexivity.
  - reflexivity.
Defined.

Lemma blocks_created (cfg : config) (r : tref) :
  In r (idents (param_reg (gains_block cfg
    ((if use_Bifurcation cfg then bifurcation_block else fun st => st)
       ((if use_Gaussian_EI cfg then gaussian_EI_block else fun st => st)
          empty_state))))) \/
  In r (idents (param_hyper (gains_block cfg
    ((if use_Bifurcation cfg then bifurcation_block else fun st => st)
       ((if use_Gaussian_EI cfg then gaussian_EI_block else fun st => st)
          empty_state))))) ->
  exists a, r = Created a.
Proof.
  unfold gains_block.
  destruct (use_Gaussian_EI cfg), (use_Bifurcation cfg), (use_fit_gains cfg);
    cbn; intros [H|H];
    repeat (destruct H as [<-|H]; [now eexists|]); contradiction.
Qed.

Lemma loop_reg_in (l : list (string * par)) (name : string) :
  In (Val name) (idents (loop_reg l)) <->
  exists v, In (name, v) l /\ fit_par v = true.
Proof.
  unfold idents, loop_reg. rewrite in_map_iff. split.
  - intros (t & Ht & Hin). apply in_flat_map in Hin as ([k v] & Hin & H).
    cbn [fst snd] in H. destruct (fit_par v) eqn:Hf; [|contradiction].
    destruct H as [<-|[]]. injection Ht as ->. exists v. auto.
  - intros (v & Hin & Hf). exists (val_tensor name v). split; [reflexivity|].
    apply in_flat_map. exists (name, v). split; [exact Hin|].
    cbn [fst snd]. rewrite Hf. now left.
Qed.

Lemma loop_hyper_in (l : list (string * par)) (name : string) :
  (In (PriorMean name) (idents (loop_hyper l)) <->
   exists v, In (name, v) l /\ fit_hyper v = true) /\
  (In (PriorVar name) (idents (loop_hyper l)) <->
   exists v, In (name, v) l /\ fit_hyper v = true).
Proof.
  unfold idents, loop_hyper. rewrite !in_map_iff. split; split.
  - intros (t & Ht & Hin). apply in_flat_map in Hin as ([k v] & Hin & H).
    cbn [fst snd] in H. destruct (fit_hyper v) eqn:Hf; [|contradiction].
    destruct H as [<-|[<-|[]]]; [|discriminate]. injection Ht as ->.
    exists v. auto.
  - intros (v & Hin & Hf). exists (prior_mean_tensor name v).
    split; [reflexivity|]. apply in_flat_map. exists (name, v).
    split; [exact Hin|]. cbn [fst snd]. rewrite Hf. now left.
  - intros (t & Ht & Hin). apply in_flat_map in Hin as ([k v] & Hin & H).
    cbn [fst snd] in H. destruct (fit_hyper v) eqn:Hf; [|contradiction].
    destruct H as [<-|[<-|[]]]; [discriminate|]. injection Ht as ->.
    exists v. auto.
  - intros (v & Hin & Hf). exists (prior_var_tensor name v).
    split; [reflexivity|]. apply in_flat_map. exists (name, v).
    split; [exact Hin|]. cbn [fst snd]. rewrite Hf. now right; left.
Qed.

(** X22.  Whatever the mode flags, the current value of an entry is in
    the point-trainable collection exactly when the entry is of type
    [par], its name does not start with two underscores and it has
    [fit_par]; its prior mean and its prior variance are in the
    hyperprior collection exactly when it has [fit_hyper]. *)
Theorem registered_iff_flag (cfg : config) (name : string) :
  let st := setModelParameters cfg in
  (In (Val name) (idents (param_reg st)) <->
   exists v, In (name, IsPar v) (param cfg) /\ prefix "__" name = false /\
             fit_par v = true) /\
  (In (PriorMean name) (idents (param_hyper st)) <->
   exists v, In (name, IsPar v) (param cfg) /\ prefix "__" name = false /\
             fit_hyper v = true) /\
  (In (PriorVar name) (idents (param_hyper st)) <->
   exists v, In (name, IsPar v) (param cfg) /\ prefix "__" name = false /\
             fit_hyper v = true).
Proof.
  cbv zeta. destruct (setModelParameters_lists cfg) as (Hr & Hh & _).
  cbv zeta in Hr, Hh. rewrite Hr, Hh. unfold idents. rewrite !map_app.
  assert (Hflags : forall P : par -> bool,
            (forall d v, P (randSet d v) = P v) ->
            (exists v1, In (name, v1) (visited cfg) /\ P v1 = true) <->
            (exists v, In (name, IsPar v) (param cfg) /\ prefix "__" name = false /\
                       P v = true)).
  { intros P HP. split.
    - intros (v1 & Hin & Hf). apply visited_in in Hin as (v & Hin & Hp & ->).
      exists v. repeat split; try assumption.
      destruct (fit_hyper v); [now rewrite HP in Hf | exact Hf].
    - intros (v & Hin & Hp & Hf). eexists. split.
      + apply visited_in. exists v. eauto.
      + destruct (fit_hyper v); [now rewrite HP | exact Hf]. }
  assert (Hno : forall r, (forall a, r <> Created a) ->
            forall l, In r (map ident (param_reg (gains_block cfg
              ((if use_Bifurcation cfg then bifurcation_block else fun st => st)
                 ((if use_Gaussian_EI cfg then gaussian_EI_block else fun st => st)
                    empty_state)))) ++ l) -> In r l).
  { intros r Hc l H. apply in_app_iff in H as [H|H]; [|exact H].
    destruct (blocks_created cfg r (or_introl H)) as [a ->].
    now destruct (Hc a). }
  assert (Hno' : forall r, (forall a, r <> Created a) ->
            forall l, In r (map ident (param_hyper (gains_block cfg
              ((if use_Bifurcation cfg then bifurcation_block else fun st => st)
                 ((if use_Gaussian_EI cfg then gaussian_EI_block else fun st => st)
                    empty_state)))) ++ l) -> In r l).
  { intros r Hc l H. apply in_app_iff in H as [H|H]; [|exact H].
    destruct (blocks_created cfg r (or_intror H)) as [a ->].
    now destruct (Hc a). }
  destruct (loop_hyper_in (visited cfg) name) as [HM HV].
  split; [|split].
  - rewrite <- (Hflags fit_par) by reflexivity.
    rewrite <- loop_reg_in. split.
    + apply Hno. discriminate.
    + intros H. apply in_or_app. now right.
  - rewrite <- (Hflags fit_hyper) by reflexivity. rewrite <- HM. split.
    + apply Hno'. discriminate.
    + intros H. apply in_or_app. now right.
  - rewrite <- (Hflags fit_hyper) by reflexivity. rewrite <- HV. split.
    + apply Hno'. discriminate.
    + intros H. apply in_or_app. now right.
Qed.

(** X23.  With [use_Gaussian_EI] off and attributes of distinct names
    in the parameter container, the two collections are disjoint,
    without duplicates, and hold every trainable tensor that the call
    created. *)
Theorem collections_ok_distinct_names (cfg : config) :
  use_Gaussian_EI cfg = false ->
  NoDup (map fst (param cfg)) ->
  collections_ok (setModelParameters cfg).
Proof.
  intros Hg Hnd. apply collections_ok_without_gaussian; [exact Hg|].
  now apply visited_NoDup.
Qed.

Lemma collections_ok_distinct_names_witness :
  collections_ok (setModelParameters (one_entry true)).
Proof.
  apply collections_ok_distinct_names; [reflexivity|].
  repeat constructor. simpl; tauto.
Defined.

End MaterializerMore.
